(** * Kira art engine: seeded scene generation, particle simulation and
      the Helius live feed

    A shallow embedding of [generative.js] (hashFloat, hashInt,
    handleSolanaEvent, walletToParams, ParticleSystem) and [helius.js]
    (HeliusLiveFeed) together with the properties of the design document
    that can be settled on it.

    Conventions of the embedding.
    - A JavaScript string is the list of its UTF-16 code units.
    - A JavaScript number is the rational it denotes.  The integer part
      of the hash ([Math.imul], [| 0]) is carried out on [Z] with the
      32-bit wrap-around written out.
    - The feed ([HeliusLiveFeed]) and the distances of [walletToParams]
      compute as the language does, in binary64: a literal [c] of the
      source is [num c], the double nearest to [c], and every sum,
      difference and product is rounded to the nearest double, ties to
      even ([Double.round64]).  None of these values comes near the
      overflow threshold, and infinities and NaN are not modelled.
    - The quotient [hashFloat] returns, the attributes of a node and the
      motion of the particles are kept exact: the double of the code is
      the rounding of the exact value.
    - The platform functions the sources call ([Math.hypot], [Math.sqrt],
      [Math.sin], [Math.cos], [Math.PI], [Math.random], [Date.now]) are
      fields of a [Platform]; every theorem holds for every platform.
    - A function that can throw returns a [Result]. *)

From Stdlib Require Import ZArith QArith Qround Qminmax Qpower Qabs Lqa Lia.
From Stdlib Require Import List String Ascii Bool Permutation Sorted.
From Stdlib Require Import DecimalString.
Import ListNotations.

Local Open Scope Z_scope.

(* ================================================================= *)
(** ** JavaScript strings *)

Module JsString.

Definition str : Type := list Z.

(** A string literal of the source. *)
Definition lit (s : string) : str :=
  map (fun c => Z.of_nat (nat_of_ascii c)) (list_ascii_of_string s).

Arguments lit s : simpl never.

(** [String(i)] for a non-negative integer, as [a + i] computes it. *)
Definition of_nat (n : nat) : str :=
  lit (NilZero.string_of_uint (Nat.to_uint n)).

Fixpoint starts_with (pat s : str) : bool :=
  match pat, s with
  | [], _ => true
  | _ :: _, [] => false
  | p :: pat', c :: s' => (p =? c) && starts_with pat' s'
  end.

(** [s.includes(pat)] *)
Fixpoint includes (s pat : str) : bool :=
  starts_with pat s ||
  match s with
  | [] => false
  | _ :: s' => includes s' pat
  end.

(** [s.slice(0, n)] *)
Definition slice0 (n : nat) (s : str) : str := firstn n s.

Definition eqb (s t : str) : bool :=
  (Nat.eqb (List.length s) (List.length t)) && starts_with s t.

End JsString.

Import JsString.

(* ================================================================= *)
(** ** Numbers *)

Definition Qltb (a b : Q) : bool := negb (Qle_bool b a).

(** *** binary64

    The doubles of the language, as the rationals they denote, with
    rounding to nearest, ties to even.  A double has 53 significant
    bits; below [2 ^ -1022] the numbers are subnormal and their last
    place stays at [2 ^ -1074]. *)
Module Double.

(** The position of the leading bit of a positive rational:
    [2 ^ ilog2 q <= q < 2 ^ (ilog2 q + 1)]. *)
Definition ilog2 (q : Q) : Z :=
  let k := Z.log2 (Qnum q) - Z.log2 (Zpos (Qden q)) in
  if Qle_bool (2 ^ k) q then k else k - 1.

(** The nearest integer, the even one of two that are as near. *)
Definition rne (x : Q) : Z :=
  let f := Qfloor x in
  match (x - inject_Z f ?= 1 # 2)%Q with
  | Lt => f
  | Gt => f + 1
  | Eq => if Z.even f then f else f + 1
  end.

(** The unit in the last place of the doubles around [a > 0]. *)
Definition ulp (a : Q) : Q := (2 ^ (Z.max (ilog2 a) (-1022) - 52))%Q.

Definition round_pos (a : Q) : Q := (inject_Z (rne (a / ulp a)) * ulp a)%Q.

(** The double nearest to [x]. *)
Definition round64 (x : Q) : Q :=
  match (x ?= 0)%Q with
  | Lt => (- round_pos (- x))%Q
  | _ => round_pos x
  end.

(** A numeric literal of the source. *)
Definition num (q : Q) : Q := round64 q.

(** [a + b], [a - b] and [a * b] on doubles. *)
Definition fadd (a b : Q) : Q := round64 (a + b).
Definition fsub (a b : Q) : Q := round64 (a - b).
Definition fmul (a b : Q) : Q := round64 (a * b).

(** [x] is a double. *)
Definition is_double (x : Q) : Prop := (round64 x == x)%Q.

(** A number of the grid: an integer of at most 53 bits times a power
    of two no smaller than the last place of the subnormals. *)
Definition on_grid (y : Q) : Prop :=
  exists n c : Z, 0 <= n <= 2 ^ 53 /\ -1074 <= c /\
                  (y == inject_Z n * 2 ^ c)%Q.

End Double.

Import Double.

Arguments round64 x : simpl never.
Arguments num q : simpl never.
Arguments fadd a b : simpl never.
Arguments fsub a b : simpl never.
Arguments fmul a b : simpl never.

(** The platform: what the sources take from the JavaScript runtime.
    [Math_random k] is the value of the [k]-th call of [Math.random()],
    [Date_now k] the value of the [k]-th call of [Date.now()]. *)
Class Platform : Type := {
  Math_hypot : Q -> Q -> Q;
  Math_sqrt : Q -> Q;
  Math_sin : Q -> Q;
  Math_cos : Q -> Q;
  Math_PI : Q;
  Math_random : nat -> Q;
  Date_now : nat -> Z
}.

(** [Math.random()] returns a value in [0, 1). *)
Definition random_in_unit (P : Platform) : Prop :=
  forall k, (0 <= Math_random k /\ Math_random k < 1)%Q.


(** A platform with rational stand-ins, used to run the model: the
    square root to 20 decimal places, rounded to a double. *)
Definition sqrt_approx (s : Q) : Q :=
  round64 (Z.sqrt (Qfloor (s * inject_Z (10 ^ 40))%Q) # 10 ^ 20)%Q.

Definition hypot_approx (a b : Q) : Q := sqrt_approx (a * a + b * b).

Definition sin_approx (t : Q) : Q := (t - t * t * t / 6)%Q.
Definition cos_approx (t : Q) : Q := (1 - t * t / 2)%Q.

Definition sample_random (k : nat) : Q := Z.of_nat (k * 37 mod 100) # 100.

(** A clock that is read every 7 ms. *)
Definition sample_clock (k : nat) : Z := 1700000000000 + 7 * Z.of_nat k.

Definition samplePlatform : Platform := {|
  Math_hypot := hypot_approx;
  Math_sqrt := sqrt_approx;
  Math_sin := sin_approx;
  Math_cos := cos_approx;
  Math_PI := 3.141592653589793;
  Math_random := sample_random;
  Date_now := sample_clock
|}.

(** The same runtime at a later point of the random stream and of the
    clock, with coarser trigonometric functions. *)
Definition laterPlatform : Platform := {|
  Math_hypot := hypot_approx;
  Math_sqrt := sqrt_approx;
  Math_sin := fun t => t;
  Math_cos := fun _ => 1%Q;
  Math_PI := 3.141592653589793;
  Math_random := fun k => sample_random (k + 5);
  Date_now := fun k => sample_clock (k + 3)
|}.

(** A runtime whose [Math.random()] returns [1 - 2 ^ -52], a double
    of [0, 1). *)
Definition top_draw : Q := 4503599627370495 # 4503599627370496.

Definition topPlatform : Platform := {|
  Math_hypot := hypot_approx;
  Math_sqrt := sqrt_approx;
  Math_sin := sin_approx;
  Math_cos := cos_approx;
  Math_PI := 3.141592653589793;
  Math_random := fun _ => top_draw;
  Date_now := sample_clock
|}.

(* ================================================================= *)
(** ** SeededHash: hashFloat and hashInt *)

Module SeededHash.

(** [z | 0] *)
Definition toInt32 (z : Z) : Z := (z + 2 ^ 31) mod 2 ^ 32 - 2 ^ 31.

(** [Math.imul(a, b)] *)
Definition imul (a b : Z) : Z := toInt32 (toInt32 a * toInt32 b).

(** One round of the loop: [h = Math.imul(31, h) + str.charCodeAt(i) | 0]. *)
Definition hashStep (h c : Z) : Z := toInt32 (imul 31 h + c).

Definition hashLoop (s : str) (seed : Z) : Z := fold_left hashStep s seed.

(** [(Math.abs(h) % 100000) / 100000] *)
Definition hashFloat (s : str) (seed : Z) : Q :=
  (Z.abs (hashLoop s seed) mod 100000) # 100000.

(** [Math.floor(hashFloat(str, seed) * max)] *)
Definition hashInt (s : str) (seed max : Z) : Z :=
  Qfloor (hashFloat s seed * inject_Z max).

End SeededHash.

Import SeededHash.

(* ================================================================= *)
(** ** SceneGenerator: walletToParams *)

Module Generative.

Record Palette : Type := {
  primary : string;
  secondary : string;
  accent : string
}.

Definition palettes : list Palette := [
  {| primary := "#00e5ff"; secondary := "#7c6af7"; accent := "#ff6b2b" |};
  {| primary := "#00ff88"; secondary := "#0066ff"; accent := "#ff0088" |};
  {| primary := "#ffcc00"; secondary := "#ff4400"; accent := "#00ccff" |};
  {| primary := "#cc00ff"; secondary := "#00ffcc"; accent := "#ff6600" |}
].

Record Node : Type := {
  node_x : Q;
  node_y : Q;
  mass : Q;
  speed : Q;
  phase : Q;
  connections : list nat
}.

(** The object [walletToParams] returns.  [palette] is
    [palettes[paletteIdx]], [None] for [undefined]. *)
Record SceneParams : Type := {
  nodeCount : Z;
  palette : option Palette;
  nodes : list Node;
  particleCount : Z;
  turbulence : Q;
  address : str;
  liveEnabled : bool
}.

Definition default_seed : str := lit "default_kira_seed".

(** [if (!address || address.length < 8) address = 'default_kira_seed'] *)
Definition effective_seed (address : str) : str :=
  if (List.length address =? 0)%nat || (List.length address <? 8)%nat
  then default_seed else address.

(** [arr.map((n, j) => f(n, j))] *)
Definition mapi {A B : Type} (f : nat -> A -> B) (l : list A) : list B :=
  map (fun jn => f (fst jn) (snd jn)) (combine (seq 0 (List.length l)) l).

(** An entry [{ j, dist }] of [candidates]. *)
Record Candidate : Type := { cj : nat; dist : Q }.

(** [candidates.sort((a, b) => a.dist - b.dist)]: the sort of the
    language is stable, so an element is placed before the elements
    that follow it in the array and are no nearer. *)
Fixpoint insert (c : Candidate) (l : list Candidate) : list Candidate :=
  match l with
  | [] => [c]
  | d :: l' =>
      if Qle_bool (dist c) (dist d) then c :: l else d :: insert c l'
  end.

Definition sort (l : list Candidate) : list Candidate :=
  fold_right insert [] l.

Section WithPlatform.
Context {P : Platform}.

(** The object pushed for index [i] in the first loop. *)
Definition makeNode (a : str) (i : nat) : Node :=
  let ai := a ++ of_nat i in
  let zi := Z.of_nat i in
  {| node_x := hashFloat ai (10 + zi);
     node_y := hashFloat ai (20 + zi);
     mass := 0.3 + hashFloat ai (30 + zi) * 0.7;
     speed := 0.0002 + hashFloat ai (40 + zi) * 0.0008;
     phase := hashFloat ai (50 + zi) * Math_PI * 2;
     connections := [] |}.

(** [2 + hashInt(a + 'conn' + i, i, 3)] *)
Definition connCount (a : str) (i : nat) : Z :=
  2 + hashInt ((a ++ lit "conn") ++ of_nat i) (Z.of_nat i) 3.

(** [Math.hypot(n.x - nodes[i].x, n.y - nodes[i].y)]: the two
    coordinates are doubles, the roundings of the quotients the nodes
    hold, and each difference is rounded. *)
Definition distance (ni n : Node) : Q :=
  Math_hypot (fsub (num (node_x n)) (num (node_x ni)))
             (fsub (num (node_y n)) (num (node_y ni))).

(** [nodes.map((n, j) => ({ j, dist })).filter(c => c.j !== i).sort(...)] *)
Definition candidates (ns : list Node) (i : nat) (ni : Node)
  : list Candidate :=
  sort
    (filter (fun c => negb (Nat.eqb (cj c) i))
       (mapi (fun j n => {| cj := j; dist := distance ni n |}) ns)).

(** One round of the second loop: the new [connections] of node [i].
    The loop assigns [nodes[i].connections] in place; the positions it
    reads are not changed by it, so the candidates of every node are
    computed from the nodes as the first loop left them. *)
Definition connect (a : str) (ns : list Node) (i : nat) (ni : Node)
  : Node :=
  {| node_x := node_x ni; node_y := node_y ni; mass := mass ni;
     speed := speed ni; phase := phase ni;
     connections :=
       map cj (firstn (Z.to_nat (connCount a i)) (candidates ns i ni)) |}.

(** [hashInt(a, 2, 4)] *)
Definition paletteIdx (a : str) : Z := hashInt a 2 4.

Definition walletToParams (address0 : str) : SceneParams :=
  let a := effective_seed address0 in
  let nodeCount := 12 + hashInt a 1 36 in
  let paletteIdx := paletteIdx a in
  let ns := map (makeNode a) (seq 0 (Z.to_nat nodeCount)) in
  let ns' := mapi (connect a ns) ns in
  {| nodeCount := nodeCount;
     palette := nth_error palettes (Z.to_nat paletteIdx);
     nodes := ns';
     particleCount := 40 + hashInt a 3 80;
     turbulence := 0.3 + hashFloat a 4 * 0.7;
     address := a;
     liveEnabled := false |}.

End WithPlatform.

End Generative.

(* ================================================================= *)
(** ** Exceptions *)

Inductive Error : Type := TypeError | SyntaxError | InvalidStateError.

Inductive Result (A : Type) : Type :=
| Ok (a : A)
| Throw (e : Error).

Arguments Ok {A} a.
Arguments Throw {A} e.

(* ================================================================= *)
(** ** Methods as computations on an object

    A method runs on the state of its object, may change it, and returns
    or throws; what it changed before throwing stays changed. *)

Module Effects.

Definition Eff (S A : Type) : Type := S -> Result A * S.

Definition ret {S A} (a : A) : Eff S A := fun s => (Ok a, s).

Definition bind {S A B} (m : Eff S A) (k : A -> Eff S B) : Eff S B :=
  fun s =>
    match m s with
    | (Ok a, s') => k a s'
    | (Throw e, s') => (Throw e, s')
    end.

Definition throw {S A} (e : Error) : Eff S A := fun s => (Throw e, s).

(** [try { m } catch (e) {}] *)
Definition try_catch {S} (m : Eff S unit) : Eff S unit :=
  fun s => (Ok tt, snd (m s)).

Definition lift {S A} (r : Result A) : Eff S A := fun s => (r, s).

Definition get {S A} (field : S -> A) : Eff S A :=
  fun s => (Ok (field s), s).

Definition modify {S} (g : S -> S) : Eff S unit := fun s => (Ok tt, g s).

(** The object after a method that was called from the event loop. *)
Definition exec {S A} (m : Eff S A) (s : S) : S := snd (m s).

Declare Scope eff_scope.
Delimit Scope eff_scope with eff.
Notation "x <- m ;; k" := (bind m (fun x => k))
  (at level 61, m at next level, right associativity) : eff_scope.
Notation "m ;; k" := (bind m (fun _ => k))
  (at level 61, right associativity) : eff_scope.

(** [list[n] = v] for an index inside the list. *)
Fixpoint update_nth {A} (n : nat) (v : A) (l : list A) : list A :=
  match l, n with
  | [], _ => []
  | _ :: l', O => v :: l'
  | a :: l', S n' => a :: update_nth n' v l'
  end.

Fixpoint remove_nth {A} (n : nat) (l : list A) : list A :=
  match l, n with
  | [], _ => []
  | _ :: l', O => l'
  | a :: l', S n' => a :: remove_nth n' l'
  end.

(** [for (const x of xs) body(x)] *)
Fixpoint for_each {S A} (xs : list A) (body : A -> Eff S unit) : Eff S unit :=
  match xs with
  | [] => ret tt
  | x :: rest => bind (body x) (fun _ => for_each rest body)
  end.

End Effects.

Import Effects.

(* ================================================================= *)
(** ** JSON values, as [JSON.parse] returns them *)

Module Json.

#[local] Unset Elimination Schemes.

Inductive json : Type :=
| JNull
| JBool (b : bool)
| JNum (q : Q)
| JStr (s : str)
| JArr (items : list json)
| JObj (fields : list (str * json)).

#[local] Set Elimination Schemes.

(** A value that may be [undefined]. *)
Definition value : Type := option json.

(** Truthiness, as [!v], [v || d] and [if (v)] test it. *)
Definition truthy (v : value) : bool :=
  match v with
  | None | Some JNull => false
  | Some (JBool b) => b
  | Some (JNum q) => negb (Qeq_bool q 0)
  | Some (JStr s) => negb (Nat.eqb (List.length s) 0)
  | Some (JArr _) | Some (JObj _) => true
  end.

Fixpoint assoc (k : str) (fields : list (str * json)) : value :=
  match fields with
  | [] => None
  | (k', v) :: rest => if JsString.eqb k k' then Some v else assoc k rest
  end.

(** [v.k] for a [v] that is neither [null] nor [undefined] and a key
    [k] that no prototype defines: an own property of an object, and
    [undefined] on a string, a number, a boolean or an array. *)
Definition prop (v : json) (k : str) : value :=
  match v with
  | JObj fields => assoc k fields
  | _ => None
  end.

(** [v?.k] *)
Definition oprop (v : value) (k : str) : value :=
  match v with
  | None | Some JNull => None
  | Some o => prop o k
  end.

(** [v || d] *)
Definition or_else (v : value) (d : json) : json :=
  match v with
  | Some j => if truthy v then j else d
  | None => d
  end.

(** [l.includes(pat)] for a string [pat]: the substring test on a
    string, strict membership on an array, and a TypeError on a value
    without an [includes] method. *)
Definition includes_of (l : json) (pat : str) : Result bool :=
  match l with
  | JStr s => Ok (includes s pat)
  | JArr items =>
      Ok (existsb (fun x => match x with
                            | JStr s => JsString.eqb s pat
                            | _ => false
                            end) items)
  | _ => Throw TypeError
  end.

(** [a(l) || b(l)] inside a callback. *)
Definition either (a b : Result bool) : Result bool :=
  match a with
  | Ok false => b
  | r => r
  end.

(** [items.some(cb)] on an array. *)
Fixpoint some (cb : json -> Result bool) (items : list json) : Result bool :=
  match items with
  | [] => Ok false
  | x :: rest =>
      match cb x with
      | Ok false => some cb rest
      | r => r
      end
  end.

(** [logs.some(cb)] on any value: only an array has the method. *)
Definition some_of (logs : json) (cb : json -> Result bool) : Result bool :=
  match logs with
  | JArr items => some cb items
  | _ => Throw TypeError
  end.

(** [sig.slice(0, 8)] *)
Definition slice8 (sig : json) : Result json :=
  match sig with
  | JStr s => Ok (JStr (slice0 8 s))
  | JArr items => Ok (JArr (firstn 8 items))
  | _ => Throw TypeError
  end.

End Json.

Import Json.

(* ================================================================= *)
(** ** helius.js: HeliusLiveFeed *)

Module Helius.

Inductive EventType : Type := TRANSACTION | WHALE | MEV | MINT | BURN.

(** The string each member of [EventType] stands for. *)
Definition type_name (t : EventType) : string :=
  match t with
  | TRANSACTION => "tx"
  | WHALE => "whale"
  | MEV => "mev"
  | MINT => "mint"
  | BURN => "burn"
  end.

(** The object handed to [onEvent]. *)
Record Event : Type := {
  type : EventType;
  magnitude : Q;
  sig : json;
  timestamp : Z
}.

(** [readyState] of a WebSocket. *)
Inductive ReadyState : Type := CONNECTING | OPEN | CLOSING | CLOSED.

(** What a pending [setTimeout] will run. *)
Inductive Task : Type :=
| RunConnect    (** [() => this.connect()] *)
| RunDemoTick.  (** the callback of [scheduleNext] *)

Record Timer : Type := { task : Task; delay : Q }.

(** The fields of the feed object, followed by the part of the
    runtime its methods act on: the sockets it has created (by index),
    the pending timers, the requests sent, the events handed to the
    [onEvent] callback (newest first) and the number of calls of
    [Math.random] and of [Date.now] so far. *)
Record Feed : Type := {
  apiKey : option str;
  ws : option nat;
  connected : bool;
  demoActive : bool;
  reconnectDelay : Q;
  eventCount : Z;
  lastEventMs : Z;
  sockets : list ReadyState;
  timers : list Timer;
  sent : list nat;
  delivered : list Event;
  randomCalls : nat;
  clockCalls : nat
}.

(** [new HeliusLiveFeed(apiKey, onEvent)] *)
Definition constructor (key : option str) : Feed := {|
  apiKey := key;
  ws := None;
  connected := false;
  demoActive := false;
  reconnectDelay := 2000;
  eventCount := 0;
  lastEventMs := 0;
  sockets := [];
  timers := [];
  sent := [];
  delivered := [];
  randomCalls := 0;
  clockCalls := 0
|}.

Definition set_ws (v : option nat) (f : Feed) : Feed :=
  {| apiKey := apiKey f; ws := v; connected := connected f;
     demoActive := demoActive f; reconnectDelay := reconnectDelay f;
     eventCount := eventCount f; lastEventMs := lastEventMs f;
     sockets := sockets f; timers := timers f; sent := sent f;
     delivered := delivered f; randomCalls := randomCalls f; clockCalls := clockCalls f |}.

Definition set_connected (v : bool) (f : Feed) : Feed :=
  {| apiKey := apiKey f; ws := ws f; connected := v;
     demoActive := demoActive f; reconnectDelay := reconnectDelay f;
     eventCount := eventCount f; lastEventMs := lastEventMs f;
     sockets := sockets f; timers := timers f; sent := sent f;
     delivered := delivered f; randomCalls := randomCalls f; clockCalls := clockCalls f |}.

Definition set_demoActive (v : bool) (f : Feed) : Feed :=
  {| apiKey := apiKey f; ws := ws f; connected := connected f;
     demoActive := v; reconnectDelay := reconnectDelay f;
     eventCount := eventCount f; lastEventMs := lastEventMs f;
     sockets := sockets f; timers := timers f; sent := sent f;
     delivered := delivered f; randomCalls := randomCalls f; clockCalls := clockCalls f |}.

Definition set_reconnectDelay (v : Q) (f : Feed) : Feed :=
  {| apiKey := apiKey f; ws := ws f; connected := connected f;
     demoActive := demoActive f; reconnectDelay := v;
     eventCount := eventCount f; lastEventMs := lastEventMs f;
     sockets := sockets f; timers := timers f; sent := sent f;
     delivered := delivered f; randomCalls := randomCalls f; clockCalls := clockCalls f |}.

Definition set_eventCount (v : Z) (f : Feed) : Feed :=
  {| apiKey := apiKey f; ws := ws f; connected := connected f;
     demoActive := demoActive f; reconnectDelay := reconnectDelay f;
     eventCount := v; lastEventMs := lastEventMs f;
     sockets := sockets f; timers := timers f; sent := sent f;
     delivered := delivered f; randomCalls := randomCalls f; clockCalls := clockCalls f |}.

Definition set_lastEventMs (v : Z) (f : Feed) : Feed :=
  {| apiKey := apiKey f; ws := ws f; connected := connected f;
     demoActive := demoActive f; reconnectDelay := reconnectDelay f;
     eventCount := eventCount f; lastEventMs := v;
     sockets := sockets f; timers := timers f; sent := sent f;
     delivered := delivered f; randomCalls := randomCalls f; clockCalls := clockCalls f |}.

Definition set_sockets (v : list ReadyState) (f : Feed) : Feed :=
  {| apiKey := apiKey f; ws := ws f; connected := connected f;
     demoActive := demoActive f; reconnectDelay := reconnectDelay f;
     eventCount := eventCount f; lastEventMs := lastEventMs f;
     sockets := v; timers := timers f; sent := sent f;
     delivered := delivered f; randomCalls := randomCalls f; clockCalls := clockCalls f |}.

Definition set_timers (v : list Timer) (f : Feed) : Feed :=
  {| apiKey := apiKey f; ws := ws f; connected := connected f;
     demoActive := demoActive f; reconnectDelay := reconnectDelay f;
     eventCount := eventCount f; lastEventMs := lastEventMs f;
     sockets := sockets f; timers := v; sent := sent f;
     delivered := delivered f; randomCalls := randomCalls f; clockCalls := clockCalls f |}.

Definition set_sent (v : list nat) (f : Feed) : Feed :=
  {| apiKey := apiKey f; ws := ws f; connected := connected f;
     demoActive := demoActive f; reconnectDelay := reconnectDelay f;
     eventCount := eventCount f; lastEventMs := lastEventMs f;
     sockets := sockets f; timers := timers f; sent := v;
     delivered := delivered f; randomCalls := randomCalls f; clockCalls := clockCalls f |}.

Definition set_delivered (v : list Event) (f : Feed) : Feed :=
  {| apiKey := apiKey f; ws := ws f; connected := connected f;
     demoActive := demoActive f; reconnectDelay := reconnectDelay f;
     eventCount := eventCount f; lastEventMs := lastEventMs f;
     sockets := sockets f; timers := timers f; sent := sent f;
     delivered := v; randomCalls := randomCalls f; clockCalls := clockCalls f |}.

Definition set_randomCalls (v : nat) (f : Feed) : Feed :=
  {| apiKey := apiKey f; ws := ws f; connected := connected f;
     demoActive := demoActive f; reconnectDelay := reconnectDelay f;
     eventCount := eventCount f; lastEventMs := lastEventMs f;
     sockets := sockets f; timers := timers f; sent := sent f;
     delivered := delivered f; randomCalls := v; clockCalls := clockCalls f |}.

Definition set_clockCalls (v : nat) (f : Feed) : Feed :=
  {| apiKey := apiKey f; ws := ws f; connected := connected f;
     demoActive := demoActive f; reconnectDelay := reconnectDelay f;
     eventCount := eventCount f; lastEventMs := lastEventMs f;
     sockets := sockets f; timers := timers f; sent := sent f;
     delivered := delivered f; randomCalls := randomCalls f;
     clockCalls := v |}.

(** A method of the feed. *)
Definition M (A : Type) : Type := Eff Feed A.

Local Open Scope eff_scope.

(** [!this.apiKey || this.apiKey === 'demo'] *)
Definition no_key (key : option str) : bool :=
  match key with
  | None => true
  | Some k => Nat.eqb (List.length k) 0 || JsString.eqb k (lit "demo")
  end.

(** The patterns [_handleMessage] looks for in the log lines. *)
Definition isTransfer (l : json) : Result bool :=
  includes_of l (lit "Instruction: Transfer").
Definition isLarge (l : json) : Result bool :=
  includes_of l (lit "1000000000").
Definition isSwap (l : json) : Result bool :=
  either (includes_of l (lit "Program log: Instruction: Swap"))
         (includes_of l (lit "ArbInstruction")).
Definition isMint (l : json) : Result bool :=
  either (includes_of l (lit "Instruction: MintTo"))
         (includes_of l (lit "InitializeMint")).
Definition isBurn (l : json) : Result bool :=
  includes_of l (lit "Instruction: Burn").

Section WithPlatform.
Context {P : Platform}.

(** [Math.random()] *)
Definition random : M Q :=
  fun f => (Ok (Math_random (randomCalls f)),
            set_randomCalls (S (randomCalls f)) f).

(** [Date.now()] *)
Definition dateNow : M Z :=
  fun f => (Ok (Date_now (clockCalls f)),
            set_clockCalls (S (clockCalls f)) f).

(** [setTimeout(callback, d)] *)
Definition setTimeout (t : Task) (d : Q) : M unit :=
  modify (fun f => set_timers (timers f ++ [{| task := t; delay := d |}]) f).

(** [this.onEvent(e)] *)
Definition onEvent (e : Event) : M unit :=
  modify (fun f => set_delivered (e :: delivered f) f).

(** [this.ws.send(...)]: a socket that is still connecting throws,
    an open one sends, a closing or closed one drops the data. *)
Definition ws_send : M unit :=
  w <- get ws;;
  match w with
  | None => throw TypeError
  | Some id =>
      ss <- get sockets;;
      match nth_error ss id with
      | Some CONNECTING => throw InvalidStateError
      | Some OPEN => modify (fun f => set_sent (id :: sent f) f)
      | _ => ret tt
      end
  end.

(** [socket.close()] *)
Definition ws_close (id : nat) : M unit :=
  ss <- get sockets;;
  match nth_error ss id with
  | Some CONNECTING | Some OPEN =>
      modify (set_sockets (update_nth id CLOSING ss))
  | _ => ret tt
  end.

(** Lines 90 to 114 of [_handleMessage]: the type and the magnitude. *)
Definition classify (logs : json) : M (EventType * Q) :=
  r <- random;;
  let tm := (TRANSACTION, fadd (num 0.3) (fmul r (num 0.4))) in
  transfer <- lift (some_of logs isTransfer);;
  tm <- (if transfer : bool then
           large <- lift (some_of logs isLarge);;
           if large : bool then
             r <- random;; ret (WHALE, fadd (num 0.8) (fmul r (num 0.2)))
           else ret tm
         else ret tm);;
  swap <- lift (some_of logs isSwap);;
  tm <- (if swap : bool then
           r <- random;; ret (MEV, fadd (num 0.6) (fmul r (num 0.4)))
         else ret tm);;
  mint <- lift (some_of logs isMint);;
  tm <- (if mint : bool then ret (MINT, num 0.5) else ret tm);;
  burn <- lift (some_of logs isBurn);;
  if burn : bool then ret (BURN, num 0.5) else ret tm.

Definition _handleMessage (data : json) : M unit :=
  let v := oprop (oprop (oprop (Some data) (lit "params")) (lit "result"))
                 (lit "value") in
  match v with
  | None => ret tt
  | Some j =>
      if negb (truthy v) then ret tt
      else
        let logs := or_else (prop j (lit "logs")) (JArr []) in
        let sig := or_else (prop j (lit "signature")) (JStr []) in
        tm <- classify logs;;
        modify (fun f => set_eventCount (eventCount f + 1) f);;
        t <- dateNow;;
        modify (set_lastEventMs t);;
        s8 <- lift (slice8 sig);;
        t' <- dateNow;;
        onEvent {| type := fst tm; magnitude := snd tm; sig := s8;
                   timestamp := t' |}
  end.

(** [scheduleNext] inside [_startDemoMode] *)
Definition scheduleNext : M unit :=
  r <- random;;
  setTimeout RunDemoTick (fadd (num 80) (fmul r (num 120))).

Definition _startDemoMode : M unit :=
  active <- get demoActive;;
  if active : bool then ret tt
  else modify (set_demoActive true);; scheduleNext.

(** The probability bands of the simulated feed. *)
Definition demoPick (rand : Q) : M (EventType * Q) :=
  if Qltb rand (num 0.005) then
    r <- random;; ret (WHALE, fadd (num 0.85) (fmul r (num 0.15)))
  else if Qltb rand (num 0.025) then
    r <- random;; ret (MEV, fadd (num 0.6) (fmul r (num 0.3)))
  else if Qltb rand (num 0.04) then ret (MINT, num 0.5)
  else if Qltb rand (num 0.05) then ret (BURN, num 0.45)
  else r <- random;; ret (TRANSACTION, fadd (num 0.2) (fmul r (num 0.5))).

(** The callback [scheduleNext] hands to [setTimeout]. *)
Definition demoTick : M unit :=
  c <- get connected;;
  active <- get demoActive;;
  if negb c && active then
    rand <- random;;
    tm <- demoPick rand;;
    modify (fun f => set_eventCount (eventCount f + 1) f);;
    t <- dateNow;;
    modify (set_lastEventMs t);;
    t' <- dateNow;;
    onEvent {| type := fst tm; magnitude := snd tm;
               sig := JStr (lit "demo"); timestamp := t' |};;
    scheduleNext
  else if c then modify (set_demoActive false)
  else ret tt.

(** [connect()]; [ctor_ok] tells whether [new WebSocket(url)]
    returns a socket or throws. *)
Definition connect (ctor_ok : bool) : M unit :=
  key <- get apiKey;;
  if no_key key then _startDemoMode
  else if ctor_ok then
    ss <- get sockets;;
    modify (set_sockets (ss ++ [CONNECTING]));;
    modify (set_ws (Some (List.length ss)))
  else _startDemoMode.

Definition onopen : M unit :=
  modify (set_connected true);;
  ws_send.

(** [payload] is what [JSON.parse(msg.data)] returns, [None] when it
    throws a SyntaxError. *)
Definition onmessage (payload : option json) : M unit :=
  try_catch
    match payload with
    | None => throw SyntaxError
    | Some data => _handleMessage data
    end.

(** The delays the feed reaches are 2000, 3000, 4500, 6750, 10125,
    15187.5, 22781.25 and 30000: doubles whose product by 1.5 is
    exact. *)
Definition onclose : M unit :=
  modify (set_connected false);;
  d <- get reconnectDelay;;
  setTimeout RunConnect d;;
  modify (set_reconnectDelay (Qmin (d * 1.5) 30000)).

Definition onerror : M unit :=
  w <- get ws;;
  match w with
  | None => throw TypeError
  | Some id => ws_close id
  end;;
  active <- get demoActive;;
  if negb active then _startDemoMode else ret tt.

Definition disconnect : M unit :=
  w <- get ws;;
  match w with
  | None => ret tt
  | Some id => ws_close id
  end;;
  modify (set_connected false).

Record Stats : Type := {
  stats_connected : bool;
  stats_eventCount : Z;
  stats_lastEventMs : Z;
  msSinceLastEvent : Z
}.

Definition getStats : M Stats :=
  c <- get connected;;
  n <- get eventCount;;
  l <- get lastEventMs;;
  t <- dateNow;;
  ret {| stats_connected := c;
         stats_eventCount := n;
         stats_lastEventMs := l;
         msSinceLastEvent := t - l |}.

(** *** The event loop

    What can happen to a feed: the page calls [connect],
    [disconnect] or [getStats], a socket the feed created reports an
    event, or a pending timer fires. *)
Inductive Action : Type :=
| CallConnect (ctor_ok : bool)
| CallDisconnect
| SocketOpen (id : nat)
| SocketMessage (id : nat) (payload : option json)
| SocketError (id : nat)
| SocketClose (id : nat)
| TimerFires (n : nat) (ctor_ok : bool)
| CallGetStats.

Definition run_task (t : Task) (ctor_ok : bool) : M unit :=
  match t with
  | RunConnect => connect ctor_ok
  | RunDemoTick => demoTick
  end.

(** One turn of the event loop; [None] when the action cannot happen
    in this state. *)
Definition step (f : Feed) (a : Action) : option Feed :=
  match a with
  | CallConnect ok => Some (exec (connect ok) f)
  | CallDisconnect => Some (exec disconnect f)
  | SocketOpen id =>
      match nth_error (sockets f) id with
      | Some CONNECTING =>
          Some (exec onopen (set_sockets (update_nth id OPEN (sockets f)) f))
      | _ => None
      end
  | SocketMessage id payload =>
      match nth_error (sockets f) id with
      | Some OPEN => Some (exec (onmessage payload) f)
      | _ => None
      end
  | SocketError id =>
      match nth_error (sockets f) id with
      | Some CLOSED | None => None
      | Some _ => Some (exec onerror f)
      end
  | SocketClose id =>
      match nth_error (sockets f) id with
      | Some CLOSED | None => None
      | Some _ =>
          Some (exec onclose
                  (set_sockets (update_nth id CLOSED (sockets f)) f))
      end
  | TimerFires n ok =>
      match nth_error (timers f) n with
      | Some t =>
          Some (exec (run_task (task t) ok)
                  (set_timers (remove_nth n (timers f)) f))
      | None => None
      end
  | CallGetStats => Some (exec getStats f)
  end.

Fixpoint run (f : Feed) (acts : list Action) : option Feed :=
  match acts with
  | [] => Some f
  | a :: rest =>
      match step f a with
      | Some f' => run f' rest
      | None => None
      end
  end.

(** The states a feed built with [key] can be in. *)
Inductive reachable (key : option str) : Feed -> Prop :=
| reach_new : reachable key (constructor key)
| reach_step f a f' :
    reachable key f -> step f a = Some f' -> reachable key f'.

(** The number of pending callbacks of the simulated loop. *)
Definition is_demo_tick (t : Timer) : bool :=
  match task t with RunDemoTick => true | RunConnect => false end.

Definition pending_demo_ticks (f : Feed) : nat :=
  List.length (filter is_demo_tick (timers f)).

End WithPlatform.

End Helius.

(* ================================================================= *)
(** ** generative.js: handleSolanaEvent and ParticleSystem *)

Module ParticleSystem.

Import Generative Helius.
Local Open Scope eff_scope.

(** The object [handleSolanaEvent] returns. *)
Record Effect : Type := {
  color : string;
  size : Q;
  duration : Q;
  effect_type : EventType;
  effect_magnitude : Q;
  effect_timestamp : Z;
  effect_sig : json
}.

(** The table [effects]: colour, size and duration of each type. *)
Definition effects (t : EventType) : string * Q * Q :=
  match t with
  | TRANSACTION => ("#00ffff"%string, 0.3%Q, 800%Q)
  | WHALE => ("#ff00ff"%string, 1.2%Q, 2000%Q)
  | MEV => ("#ffff00"%string, 0.8%Q, 1200%Q)
  | MINT => ("#00ff00"%string, 0.6%Q, 1500%Q)
  | BURN => ("#ff0000"%string, 0.7%Q, 1400%Q)
  end.

Definition handleSolanaEvent (event : Event) : Effect :=
  let '(c, s, d) := effects (type event) in
  {| color := c; size := s; duration := d;
     effect_type := type event;
     effect_magnitude := magnitude event;
     effect_timestamp := timestamp event;
     effect_sig := sig event |}.

(** A particle.  [homeNode] is [None] on an object that has no such
    property. *)
Record Particle : Type := {
  px : Q;
  py : Q;
  vx : Q;
  vy : Q;
  life : Q;
  maxLife : Q;
  homeNode : option nat;
  trail : list (Q * Q)
}.

(** [{ ...node, sx, sy }] *)
Record ScaledNode : Type := {
  base : Node;
  sx : Q;
  sy : Q
}.

Record LiveEffect : Type := {
  live_effect : Effect;
  live_x : Q;
  live_y : Q;
  start : Z;
  live_duration : Q
}.

(** The fields of a particle system, with the size of its canvas, the
    number of calls of [Math.random] so far and the clock. *)
Record System : Type := {
  width : Q;
  height : Q;
  params : SceneParams;
  particles : list Particle;
  time : Q;
  scaledNodes : list ScaledNode;
  liveEffect : option LiveEffect;
  randomCalls : nat;
  now : Z
}.

Definition set_particles (v : list Particle) (s : System) : System :=
  {| width := width s; height := height s; params := params s;
     particles := v; time := time s; scaledNodes := scaledNodes s;
     liveEffect := liveEffect s; randomCalls := randomCalls s;
     now := now s |}.

Definition set_time (v : Q) (s : System) : System :=
  {| width := width s; height := height s; params := params s;
     particles := particles s; time := v; scaledNodes := scaledNodes s;
     liveEffect := liveEffect s; randomCalls := randomCalls s;
     now := now s |}.

Definition set_scaledNodes (v : list ScaledNode) (s : System) : System :=
  {| width := width s; height := height s; params := params s;
     particles := particles s; time := time s; scaledNodes := v;
     liveEffect := liveEffect s; randomCalls := randomCalls s;
     now := now s |}.

Definition set_liveEffect (v : option LiveEffect) (s : System) : System :=
  {| width := width s; height := height s; params := params s;
     particles := particles s; time := time s;
     scaledNodes := scaledNodes s; liveEffect := v;
     randomCalls := randomCalls s; now := now s |}.

Definition set_randomCalls (v : nat) (s : System) : System :=
  {| width := width s; height := height s; params := params s;
     particles := particles s; time := time s;
     scaledNodes := scaledNodes s; liveEffect := liveEffect s;
     randomCalls := v; now := now s |}.

Definition M (A : Type) : Type := Eff System A.

(** [x] of an object that may be [undefined]: reading a property of
    [undefined] throws a TypeError. *)
Definition defined {A} (o : option A) : M A :=
  match o with
  | Some a => ret a
  | None => throw TypeError
  end.

(** [Math.max(a, b)] *)
Definition Math_max (a b : Q) : Q := Qmax a b.

Section WithPlatform.
Context {P : Platform}.

(** [Math.random()] *)
Definition random : M Q :=
  fun s => (Ok (Math_random (randomCalls s)),
            set_randomCalls (S (randomCalls s)) s).

Definition _scaleNode (w h : Q) (n : Node) : ScaledNode :=
  {| base := n; sx := node_x n * w; sy := node_y n * h |}%Q.

(** [this.scaledNodes[i % this.scaledNodes.length]]: with no node at
    all the index is NaN and the element [undefined]. *)
Definition home_index (i len : nat) : option nat :=
  match len with
  | O => None
  | _ => Some (i mod len)%nat
  end.

Definition lookup_home (ns : list ScaledNode) (h : option nat)
  : option ScaledNode :=
  match h with
  | Some i => nth_error ns i
  | None => None
  end.

(** The body of the loop of [_initParticles]. *)
Definition initParticle (i : nat) : M unit :=
  ns <- get scaledNodes;;
  let h := home_index i (List.length ns) in
  homeNode <- defined (lookup_home ns h);;
  r1 <- random;;
  r2 <- random;;
  r3 <- random;;
  r4 <- random;;
  r5 <- random;;
  r6 <- random;;
  modify (fun s =>
    set_particles
      (particles s ++
       [{| px := sx homeNode + (r1 - 0.5) * 60;
           py := sy homeNode + (r2 - 0.5) * 60;
           vx := (r3 - 0.5) * 0.5;
           vy := (r4 - 0.5) * 0.5;
           life := r5;
           maxLife := 0.6 + r6 * 0.4;
           homeNode := h;
           trail := [] |}%Q]) s).

Definition _initParticles : M unit :=
  modify (fun s =>
    set_scaledNodes
      (map (_scaleNode (width s) (height s)) (nodes (params s))) s);;
  modify (set_particles []);;
  count <- get (fun s => particleCount (params s));;
  for_each (seq 0 (Z.to_nat count)) initParticle.

(** [new ParticleSystem(canvas, params)] for a canvas [w] by [h]. *)
Definition constructor (w h : Q) (p : SceneParams)
  : Result unit * System :=
  _initParticles
    {| width := w; height := h; params := p; particles := [];
       time := 0; scaledNodes := []; liveEffect := None;
       randomCalls := 0; now := 0 |}.

Definition resize : M unit :=
  modify (fun s =>
    set_scaledNodes
      (map (_scaleNode (width s) (height s)) (nodes (params s))) s).

(** The branch of [handleLiveEvent] for a whale: the callback of
    [forEach]. *)
Definition pull (w h : Q) (node : Node) (e : Effect) (p : Particle)
  : Particle :=
  let dx := (node_x node * w - px p)%Q in
  let dy := (node_y node * h - py p)%Q in
  let d := Math_sqrt (dx * dx + dy * dy) in
  if Qltb d 200 then
    {| px := px p; py := py p;
       vx := vx p + dx * 0.0005 * effect_magnitude e;
       vy := vy p + dy * 0.0005 * effect_magnitude e;
       life := life p; maxLife := maxLife p; homeNode := homeNode p;
       trail := trail p |}%Q
  else p.

(** The branch for a burn: the callback of [filter]. *)
Definition outside (w h : Q) (node : Node) (p : Particle) : bool :=
  let dx := (node_x node * w - px p)%Q in
  let dy := (node_y node * h - py p)%Q in
  Qltb 4000 (dx * dx + dy * dy).

Definition handleLiveEvent (effect : Effect) : M unit :=
  r <- random;;
  ns <- get (fun s => nodes (params s));;
  let idx := Qfloor (r * inject_Z (Z.of_nat (List.length ns))) in
  let node := if idx <? 0 then None else nth_error ns (Z.to_nat idx) in
  node <- defined node;;
  t <- get now;;
  modify (set_liveEffect
            (Some {| live_effect := effect; live_x := node_x node;
                     live_y := node_y node; start := t;
                     live_duration :=
                       if Qeq_bool (duration effect) 0 then 1000
                       else duration effect |}));;
  w <- get width;;
  h <- get height;;
  match effect_type effect with
  | WHALE =>
      modify (fun s => set_particles (map (pull w h node effect) (particles s)) s)
  | MINT =>
      r1 <- random;;
      r2 <- random;;
      modify (fun s =>
        set_particles
          (particles s ++
           [{| px := node_x node * w;
               py := node_y node * h;
               vx := (r1 - 0.5) * 2;
               vy := (r2 - 0.5) * 2;
               life := 1000;
               maxLife := 1000;
               homeNode := None;
               trail := [] |}%Q]) s)
  | BURN =>
      modify (fun s => set_particles (filter (outside w h node) (particles s)) s)
  | _ => ret tt
  end.

(** The body of the first loop of [update], for the particle at
    index [i]; the particle is changed in place. *)
Definition stepParticle (W H turb : Q) (i : nat) : M unit :=
  ps <- get particles;;
  p <- defined (nth_error ps i);;
  t <- get time;;
  ns <- get scaledNodes;;
  home <- defined (lookup_home ns (homeNode p));;
  let dx := (sx home + Math_sin (t + phase (base home)) * 40 - px p)%Q in
  let dy :=
    (sy home + Math_cos (t * 0.7 + phase (base home)) * 40 - py p)%Q in
  let d := Math_hypot dx dy in
  let angle := ((px p * 0.003 + py p * 0.003 + t * 0.3) * turb)%Q in
  let vx1 :=
    ((vx p + (dx / Math_max d 1 * 0.04 + Math_cos angle * 0.02)) * 0.96)%Q in
  let vy1 :=
    ((vy p + (dy / Math_max d 1 * 0.04 + Math_sin angle * 0.02)) * 0.96)%Q in
  let x1 := (px p + vx1)%Q in
  let y1 := (py p + vy1)%Q in
  let pushed := trail p ++ [(x1, y1)] in
  let trail1 :=
    if (18 <? List.length pushed)%nat then tl pushed else pushed in
  let life1 := (life p + 0.004)%Q in
  if Qltb (maxLife p) life1 || Qltb x1 0 || Qltb W x1
     || Qltb y1 0 || Qltb H y1
  then
    r1 <- random;;
    r2 <- random;;
    r3 <- random;;
    r4 <- random;;
    modify (fun s =>
      set_particles
        (update_nth i
           {| px := sx home + (r1 - 0.5) * 80;
              py := sy home + (r2 - 0.5) * 80;
              vx := (r3 - 0.5) * 0.4;
              vy := (r4 - 0.5) * 0.4;
              life := 0;
              maxLife := maxLife p;
              homeNode := homeNode p;
              trail := [] |}%Q (particles s)) s)
  else
    modify (fun s =>
      set_particles
        (update_nth i
           {| px := x1; py := y1; vx := vx1; vy := vy1; life := life1;
              maxLife := maxLife p; homeNode := homeNode p;
              trail := trail1 |} (particles s)) s).

(** The body of the second loop of [update]. *)
Definition drift (W H t : Q) (n : ScaledNode) : ScaledNode :=
  let b := base n in
  {| base := b;
     sx := node_x b * W + Math_sin (t * speed b * 200 + phase b) * 18;
     sy := node_y b * H + Math_cos (t * speed b * 160 + phase b) * 18 |}%Q.

Definition update : M unit :=
  modify (fun s => set_time (time s + 0.008)%Q s);;
  turb <- get (fun s => turbulence (params s));;
  W <- get width;;
  H <- get height;;
  ps <- get particles;;
  for_each (seq 0 (List.length ps)) (stepParticle W H turb);;
  t <- get time;;
  modify (fun s => set_scaledNodes (map (drift W H t) (scaledNodes s)) s).

End WithPlatform.

End ParticleSystem.

(* ================================================================= *)
(** ** The statements of the design document *)

Module Design.

Import Helius.

(** A feed message whose log lines are the strings [lines]. *)
Definition lines_json (lines : list str) : json := JArr (map JStr lines).

(** Some line contains one of the patterns. *)
Definition any_line (pats : list str) (lines : list str) : bool :=
  existsb (fun l => existsb (fun p => includes l p) pats) lines.

Definition transfer_line := any_line [lit "Instruction: Transfer"].
Definition large_amount_line := any_line [lit "1000000000"].
Definition swap_line :=
  any_line [lit "Program log: Instruction: Swap"; lit "ArbInstruction"].
Definition mint_line :=
  any_line [lit "Instruction: MintTo"; lit "InitializeMint"].
Definition burn_line := any_line [lit "Instruction: Burn"].

(** The classifier of the design document, read as a priority list:
    burn beats mint beats mev beats whale beats the default. *)
Definition classify_by_priority (lines : list str) : EventType :=
  if burn_line lines then BURN
  else if mint_line lines then MINT
  else if swap_line lines then MEV
  else if transfer_line lines && large_amount_line lines then WHALE
  else TRANSACTION.

(** The magnitudes of a live message, by type.  The bounds are the
    doubles the literals of the source denote. *)
Definition magnitude_band (t : EventType) (m : Q) : Prop :=
  match t with
  | TRANSACTION => num 0.3 <= m /\ m <= num 0.7
  | WHALE => num 0.8 <= m /\ m <= 1
  | MEV => num 0.6 <= m /\ m <= 1
  | MINT | BURN => m == 0.5
  end%Q.

(** [params.result.value] of a parsed message, as
    [data?.params?.result?.value] reads it. *)
Definition message_value (data : json) : value :=
  oprop (oprop (oprop (Some data) (lit "params")) (lit "result"))
        (lit "value").

(** A transport message that is malformed: its payload does not parse,
    or the parsed value has no (truthy) [params.result.value]. *)
Definition malformed (payload : option json) : Prop :=
  match payload with
  | None => True
  | Some data => truthy (message_value data) = false
  end.

Section WithPlatform.
Context {P : Platform}.

(** The type the simulated loop gives the draw [rand]. *)
Definition demo_type (rand : Q) (f : Feed) : option EventType :=
  match fst (demoPick rand f) with
  | Ok (t, _) => Some t
  | Throw _ => None
  end.

(** Within [0, 1), the draws given type [t] are those of [lo, hi).
    A draw is a double. *)
Definition band (t : EventType) (lo hi : Q) : Prop :=
  (0 <= lo /\ lo <= hi /\ hi <= 1)%Q /\
  forall rand f, is_double rand -> (0 <= rand /\ rand < 1)%Q ->
    (demo_type rand f = Some t <-> (lo <= rand /\ rand < hi)%Q).

(** Type [t] is given to the draws of [lo, hi), the fraction [w] of
    the draw range. *)
Definition fraction (t : EventType) (lo hi w : Q) : Prop :=
  band t lo hi /\ (w == hi - lo)%Q.

(** The magnitudes of a simulated event, by type. *)
Definition demo_band (t : EventType) (m : Q) : Prop :=
  match t with
  | WHALE => num 0.85 <= m /\ m <= 1
  | MEV => num 0.6 <= m /\ m < num 0.9
  | MINT => m == 0.5
  | BURN => m == num 0.45
  | TRANSACTION => num 0.2 <= m /\ m <= num 0.7
  end%Q.

End WithPlatform.

End Design.

(** The part of a feed that decides its connection: the key, the
    current socket, the two flags, the reconnect delay, the sockets, the
    pending timers and the requests sent. *)
Definition control (f : Helius.Feed) :=
  (Helius.apiKey f, Helius.ws f, Helius.connected f, Helius.demoActive f,
   Helius.reconnectDelay f, Helius.sockets f, Helius.timers f, Helius.sent f).

(** The simulated loop is running exactly when one of its callbacks is
    pending, and there is never more than one. *)
Definition demo_invariant (f : Helius.Feed) : Prop :=
  Helius.pending_demo_ticks f = if Helius.demoActive f then 1%nat else 0%nat.

(** A method that leaves the connection, the timers and the sockets
    alone. *)
Definition quiet {A} (m : Helius.M A) : Prop :=
  forall f, control (snd (m f)) = control f.

(** The reconnect delay stays between its first value and its cap. *)
Definition feed_invariant (f : Helius.Feed) : Prop :=
  demo_invariant f /\
  (2000 <= Helius.reconnectDelay f /\ Helius.reconnectDelay f <= 30000)%Q.

(** A run of the event loop that ends with a live connection while the
    simulated loop is still scheduled: the first socket fails, the
    simulated loop starts, the socket closes, the reconnect timer fires
    and the second socket opens. *)
Definition live_script : list Helius.Action :=
  [Helius.CallConnect true; Helius.SocketError 0; Helius.SocketClose 0;
   Helius.TimerFires 1 true; Helius.SocketOpen 1].

Definition sample_key : option str := Some (lit "key-0001").

Definition sample_live_feed : Helius.Feed :=
  Eval vm_compute in
    match @Helius.run samplePlatform (Helius.constructor sample_key) live_script with
    | Some f => f
    | None => Helius.constructor sample_key
    end.

(** A particle system on a canvas of 800 by 600 for the scene of the
    default seed, and the effect of a mint event. *)
Definition sample_system : ParticleSystem.System :=
  snd (@ParticleSystem.constructor samplePlatform 800 600
         (@Generative.walletToParams samplePlatform Generative.default_seed)).

Definition sample_mint : ParticleSystem.Effect :=
  ParticleSystem.handleSolanaEvent
    {| Helius.type := Helius.MINT; Helius.magnitude := 0.5;
       Helius.sig := JStr (lit "demo"); Helius.timestamp := 0 |}.

(* ================================================================= *)
(** ** Notions used to state further properties *)

(** The distance the second loop of [walletToParams] computes from the
    node [ni] to the node [n]. *)
Definition node_distance {P : Platform} (ni n : Generative.Node) : Q :=
  Generative.distance ni n.

(** Seen from [ni], the node of index [j] comes before the node of
    index [k]: it is nearer, or as near and of smaller index. *)
Definition comes_before {P : Platform} (ns : list Generative.Node)
           (ni : Generative.Node) (j k : nat) : Prop :=
  exists nj nk,
    nth_error ns j = Some nj /\ nth_error ns k = Some nk /\
    ((node_distance ni nj < node_distance ni nk)%Q \/
     ((node_distance ni nj == node_distance ni nk)%Q /\ (j <= k)%nat)).

(** The order [sort] puts the candidates of a node in: by distance,
    and by index among the equally distant. *)
Definition cand_le (a b : Generative.Candidate) : Prop :=
  (Generative.dist a < Generative.dist b)%Q \/
  ((Generative.dist a == Generative.dist b)%Q /\
   (Generative.cj a <= Generative.cj b)%nat).

(** A notification of [logsSubscribe] as the transport delivers it, a
    transfer with the large-amount marker, and its [value]. *)
Definition sample_value : json :=
  JObj [(lit "signature",
         JStr (lit "5VERv8NMvzbJMEkV8xnrLkEaWRtSz9CosKDYjCJjBRnb"));
        (lit "err", JNull);
        (lit "logs",
         JArr [JStr (lit "Program log: Instruction: Transfer");
               JStr (lit "Program log: amount 1000000000")])].

Definition sample_message : json :=
  JObj [(lit "jsonrpc", JStr (lit "2.0"));
        (lit "method", JStr (lit "logsNotification"));
        (lit "params",
         JObj [(lit "result",
                JObj [(lit "context", JObj [(lit "slot", JNum 5208469)]);
                      (lit "value", sample_value)]);
               (lit "subscription", JNum 24040)])].


(** The bookkeeping of a feed: the event counter, the time of the last
    event, the events handed to the consumer and the number of readings
    of the clock. *)
Definition counters (f : Helius.Feed) :=
  (Helius.eventCount f, Helius.lastEventMs f, Helius.delivered f,
   Helius.clockCalls f).


(** [ws] is the socket created last. *)
Definition newest_socket (ss : list Helius.ReadyState) : option nat :=
  match ss with
  | [] => None
  | _ :: rest => Some (List.length rest)
  end.


(** Some socket is open or closing. *)
Definition has_live_socket (ss : list Helius.ReadyState) : bool :=
  existsb (fun s => match s with
                    | Helius.OPEN | Helius.CLOSING => true
                    | _ => false
                    end) ss.

(** A run in which the simulated loop and the live feed both hand an
    event to the consumer. *)
Definition busy_script : list Helius.Action :=
  [Helius.CallConnect true; Helius.SocketError 0; Helius.TimerFires 0 true;
   Helius.CallGetStats; Helius.SocketClose 0; Helius.TimerFires 1 true;
   Helius.SocketOpen 1; Helius.SocketMessage 1 (Some sample_message)].

Definition sample_busy_feed : Helius.Feed :=
  Eval vm_compute in
    match @Helius.run samplePlatform (Helius.constructor sample_key) busy_script with
    | Some f => f
    | None => Helius.constructor sample_key
    end.

(** A run of a feed without a key. *)
Definition demo_script : list Helius.Action :=
  [Helius.CallConnect true; Helius.TimerFires 0 true; Helius.CallGetStats;
   Helius.TimerFires 0 true; Helius.CallDisconnect].

Definition sample_demo_feed : Helius.Feed :=
  Eval vm_compute in
    match @Helius.run samplePlatform (Helius.constructor None) demo_script with
    | Some f => f
    | None => Helius.constructor None
    end.

(** What the sockets of a reachable feed satisfy: [ws] is the newest
    socket, and [connected] is set only while some socket is open or
    closing. *)
Definition sockets_ok (f : Helius.Feed) : Prop :=
  Helius.ws f = newest_socket (Helius.sockets f) /\
  (Helius.connected f = true -> has_live_socket (Helius.sockets f) = true).

(** A feed on which [connect] was called twice: two sockets, both
    still connecting. *)
Definition two_sockets_feed : Helius.Feed :=
  Eval vm_compute in
    match @Helius.run samplePlatform (Helius.constructor sample_key)
            [Helius.CallConnect true; Helius.CallConnect true] with
    | Some f => f
    | None => Helius.constructor sample_key
    end.

(** What a feed without a key keeps: it has no socket, it is never
    connected, it has sent nothing, and every event was made by the
    simulated loop and was both counted and handed to the consumer. *)
Definition simulated_only (key : option str) (f : Helius.Feed) : Prop :=
  Helius.apiKey f = key /\ Helius.sockets f = [] /\ Helius.ws f = None /\
  Helius.connected f = false /\ Helius.sent f = [] /\
  Forall (fun e => Helius.sig e = JStr (lit "demo")) (Helius.delivered f) /\
  Helius.eventCount f = Z.of_nat (List.length (Helius.delivered f)).

(** *** The particle system as it is driven

    What the page calls on a particle system: [update] on every frame,
    [handleLiveEvent] for every event of the feed, [resize] when the
    canvas changes.  A call that throws leaves the system as it was at
    the throw. *)
Inductive SimAction : Type :=
| Update
| LiveEvent (e : ParticleSystem.Effect)
| Resize.

Definition sim_step {P : Platform} (s : ParticleSystem.System) (a : SimAction)
  : Result unit * ParticleSystem.System :=
  match a with
  | Update => ParticleSystem.update s
  | LiveEvent e => ParticleSystem.handleLiveEvent e s
  | Resize => ParticleSystem.resize s
  end.

Definition sim_run {P : Platform} (s : ParticleSystem.System)
           (acts : list SimAction) : ParticleSystem.System :=
  fold_left (fun s a => snd (sim_step s a)) acts s.

(** An action that is not a mint. *)
Definition not_a_mint (a : SimAction) : Prop :=
  match a with
  | LiveEvent e => ParticleSystem.effect_type e <> Helius.MINT
  | _ => True
  end.

(** How [update] may change a particle: it keeps its home node and its
    [maxLife], and a trail of at most 18 positions stays one. *)
Definition evolves (p p' : ParticleSystem.Particle) : Prop :=
  ParticleSystem.homeNode p' = ParticleSystem.homeNode p /\
  ParticleSystem.maxLife p' = ParticleSystem.maxLife p /\
  ((List.length (ParticleSystem.trail p) <= 18)%nat ->
   (List.length (ParticleSystem.trail p') <= 18)%nat).

Definition trails_bounded (s : ParticleSystem.System) : Prop :=
  Forall (fun p => (List.length (ParticleSystem.trail p) <= 18)%nat)
         (ParticleSystem.particles s).

(** Every particle has a home node, and it is a node of the scene. *)
Definition homes_valid (s : ParticleSystem.System) : Prop :=
  Forall (fun p => exists h, ParticleSystem.homeNode p = Some h /\
                             (h < List.length (ParticleSystem.scaledNodes s))%nat)
         (ParticleSystem.particles s).

Definition healthy (s : ParticleSystem.System) : Prop :=
  homes_valid s /\
  List.length (ParticleSystem.scaledNodes s) =
  List.length (Generative.nodes (ParticleSystem.params s)) /\
  Generative.nodes (ParticleSystem.params s) <> [].

(** A particle as [_initParticles] makes it for index [i] when the
    scene has [len] nodes. *)
Definition fresh_for (len i : nat) (p : ParticleSystem.Particle) : Prop :=
  ParticleSystem.homeNode p = Some (i mod len)%nat /\
  ParticleSystem.trail p = [].


(** A scene without nodes that asks for five particles. *)
Definition empty_scene : Generative.SceneParams :=
  {| Generative.nodeCount := 0; Generative.palette := None;
     Generative.nodes := []; Generative.particleCount := 5;
     Generative.turbulence := 0.5; Generative.address := [];
     Generative.liveEnabled := false |}.

Definition sample_scene : Generative.SceneParams :=
  @Generative.walletToParams samplePlatform Generative.default_seed.

Definition sample_whale : ParticleSystem.Effect :=
  ParticleSystem.handleSolanaEvent
    {| Helius.type := Helius.WHALE; Helius.magnitude := 0.9;
       Helius.sig := JStr (lit "demo"); Helius.timestamp := 0 |}.

Definition sample_burn : ParticleSystem.Effect :=
  ParticleSystem.handleSolanaEvent
    {| Helius.type := Helius.BURN; Helius.magnitude := 0.5;
       Helius.sig := JStr (lit "demo"); Helius.timestamp := 0 |}.

(* ================================================================= *)
(** * Properties *)

(** ** Rounding to the nearest double *)

Section DoubleFacts.
Local Open Scope Q_scope.


Lemma pow2_pos (k : Z) : 0 < 2 ^ k.
Proof. apply Qpower_0_lt. reflexivity. Qed.

Lemma pow2_le (a b : Z) : (a <= b)%Z -> 2 ^ a <= 2 ^ b.
Proof. intro H. apply Qpower_le_compat_l; [exact H | discriminate]. Qed.

Lemma pow2_lt (a b : Z) : (a < b)%Z -> 2 ^ a < 2 ^ b.
Proof. intro H. apply Qpower_lt_compat_l; [exact H | reflexivity]. Qed.

Lemma pow2_plus (a b : Z) : 2 ^ (a + b) == 2 ^ a * 2 ^ b.
Proof. apply Qpower_plus. discriminate. Qed.

Lemma pow2_Z (k : Z) : (0 <= k)%Z -> inject_Z (2 ^ k) == 2 ^ k.
Proof. intro H. exact (Zpower_Qpower 2 k H). Qed.

Lemma ilog2_spec (q : Q) :
  0 < q -> 2 ^ ilog2 q <= q /\ q < 2 ^ (ilog2 q + 1).
Proof.
  intro Hq. destruct q as [n d].
  assert (Hn : (0 < n)%Z) by (unfold Qlt in Hq; cbn in Hq; lia).
  unfold ilog2. cbn [Qnum Qden].
  set (a := Z.log2 n). set (b := Z.log2 (Zpos d)).
  destruct (Z.log2_spec n Hn) as [La Ua]. fold a in La, Ua.
  destruct (Z.log2_spec (Zpos d) eq_refl) as [Lb Ub]. fold b in Lb, Ub.
  assert (A0 : (0 <= a)%Z) by apply Z.log2_nonneg.
  assert (B0 : (0 <= b)%Z) by apply Z.log2_nonneg.
  assert (E : n # d == inject_Z n / inject_Z (Zpos d)) by apply Qmake_Qdiv.
  set (N := inject_Z n) in *. set (D := inject_Z (Zpos d)) in *.
  assert (Dpos : 0 < D) by reflexivity.
  assert (QN : (n # d) * D == N).
  { rewrite E. field. intro H. rewrite H in Dpos. discriminate. }
  assert (NL : 2 ^ a <= N).
  { rewrite <- pow2_Z by exact A0. unfold N. rewrite <- Zle_Qle. exact La. }
  assert (NU : N < 2 ^ (a + 1)).
  { rewrite <- pow2_Z by lia. unfold N. rewrite <- Zlt_Qlt.
    replace (a + 1)%Z with (Z.succ a) by lia. exact Ua. }
  assert (DL : 2 ^ b <= D).
  { rewrite <- pow2_Z by exact B0. unfold D. rewrite <- Zle_Qle. exact Lb. }
  assert (DU : D < 2 ^ (b + 1)).
  { rewrite <- pow2_Z by lia. unfold D. rewrite <- Zlt_Qlt.
    replace (b + 1)%Z with (Z.succ b) by lia. exact Ub. }
  assert (Up : (n # d) < 2 ^ (a - b + 1)).
  { apply (Qmult_lt_r _ _ D Dpos). rewrite QN.
    apply (Qlt_le_trans _ _ _ NU).
    replace (a + 1)%Z with ((a - b + 1) + b)%Z by lia. rewrite pow2_plus.
    apply Qmult_le_l; [apply pow2_pos | exact DL]. }
  assert (Lo : 2 ^ (a - b - 1) < (n # d)).
  { apply (Qmult_lt_r _ _ D Dpos). rewrite QN.
    apply (Qlt_le_trans _ (2 ^ (a - b - 1) * 2 ^ (b + 1))).
    - apply Qmult_lt_l; [apply pow2_pos | exact DU].
    - rewrite <- pow2_plus. replace (a - b - 1 + (b + 1))%Z with a by lia.
      exact NL. }
  destruct (Qle_bool (2 ^ (a - b)) (n # d)) eqn:C.
  - apply Qle_bool_iff in C. split; [exact C | exact Up].
  - split; [apply Qlt_le_weak; exact Lo|].
    replace (a - b - 1 + 1)%Z with (a - b)%Z by lia.
    apply Qnot_le_lt. intro H. apply Qle_bool_iff in H. congruence.
Qed.

Lemma ilog2_mono (x y : Q) : 0 < x -> x <= y -> (ilog2 x <= ilog2 y)%Z.
Proof.
  intros Hx Hxy.
  destruct (ilog2_spec x Hx) as [Lx _].
  destruct (ilog2_spec y (Qlt_le_trans _ _ _ Hx Hxy)) as [_ Uy].
  destruct (Z_lt_le_dec (ilog2 y) (ilog2 x)) as [H|H]; [|exact H].
  exfalso.
  assert (P : 2 ^ (ilog2 y + 1) <= 2 ^ ilog2 x) by (apply pow2_le; lia).
  lra.
Qed.

Lemma rne_Z (n : Z) : rne (inject_Z n) = n.
Proof.
  unfold rne. rewrite Qfloor_Z.
  assert (E : inject_Z n - inject_Z n == 0) by ring.
  rewrite E. reflexivity.
Qed.

Lemma rne_bounds (x : Q) : (Qfloor x <= rne x <= Qfloor x + 1)%Z.
Proof.
  unfold rne. destruct (_ ?= _); [destruct (Z.even _)| |]; lia.
Qed.

Lemma rne_mono (x y : Q) : x <= y -> (rne x <= rne y)%Z.
Proof.
  intro H. pose proof (Qfloor_resp_le x y H) as F.
  destruct (Z.eq_dec (Qfloor x) (Qfloor y)) as [E|NE].
  - unfold rne. rewrite E.
    destruct (Qcompare_spec (x - inject_Z (Qfloor y)) (1 # 2)) as [C|C|C];
    destruct (Qcompare_spec (y - inject_Z (Qfloor y)) (1 # 2)) as [C'|C'|C'];
    try destruct (Z.even _); try lia; exfalso; lra.
  - pose proof (rne_bounds x). pose proof (rne_bounds y). lia.
Qed.

Lemma ulp_pos (a : Q) : 0 < ulp a.
Proof. apply pow2_pos. Qed.

Lemma round_pos_nonneg (a : Q) : 0 <= a -> 0 <= round_pos a.
Proof.
  intro H. unfold round_pos.
  apply Qmult_le_0_compat; [|apply Qlt_le_weak, ulp_pos].
  change 0 with (inject_Z 0). rewrite <- Zle_Qle.
  rewrite <- (rne_Z 0). apply rne_mono.
  apply Qle_shift_div_l; [apply ulp_pos|].
  change (inject_Z 0) with 0. lra.
Qed.

Lemma round_pos_mono (x y : Q) : 0 < x -> x <= y -> round_pos x <= round_pos y.
Proof.
  intros Hx Hxy.
  assert (Hy : 0 < y) by lra.
  pose proof (ilog2_mono x y Hx Hxy) as M.
  destruct (ilog2_spec x Hx) as [Lx Ux].
  destruct (ilog2_spec y Hy) as [Ly Uy].
  unfold round_pos, ulp.
  set (ex := Z.max (ilog2 x) (-1022)). set (ey := Z.max (ilog2 y) (-1022)).
  destruct (Z.eq_dec ex ey) as [E|NE].
  - rewrite E. apply Qmult_le_compat_r; [|apply Qlt_le_weak, pow2_pos].
    rewrite <- Zle_Qle. apply rne_mono.
    apply Qmult_le_compat_r; [exact Hxy|].
    apply Qlt_le_weak, Qinv_lt_0_compat, pow2_pos.
  - assert (L : (ex < ey)%Z) by lia.
    assert (Ey : ey = ilog2 y) by lia.
    apply (Qle_trans _ (2 ^ (ex + 1))); [|apply (Qle_trans _ (2 ^ ey))].
    + (* round_pos x <= 2^(ex+1) *)
      assert (U : x / 2 ^ (ex - 52) <= inject_Z (2 ^ 53)).
      { apply Qle_shift_div_r; [apply pow2_pos|].
        rewrite pow2_Z by lia. rewrite <- pow2_plus.
        replace (53 + (ex - 52))%Z with (ex + 1)%Z by lia.
        apply Qlt_le_weak, (Qlt_le_trans _ _ _ Ux). apply pow2_le. lia. }
      apply rne_mono in U. rewrite rne_Z in U.
      apply (Qle_trans _ (inject_Z (2 ^ 53) * 2 ^ (ex - 52))).
      * apply Qmult_le_compat_r; [|apply Qlt_le_weak, pow2_pos].
        rewrite <- Zle_Qle. exact U.
      * rewrite pow2_Z by lia. rewrite <- pow2_plus.
        replace (53 + (ex - 52))%Z with (ex + 1)%Z by lia. apply Qle_refl.
    + apply pow2_le. lia.
    + (* 2^ey <= round_pos y *)
      assert (U : inject_Z (2 ^ 52) <= y / 2 ^ (ey - 52)).
      { apply Qle_shift_div_l; [apply pow2_pos|].
        rewrite pow2_Z by lia. rewrite <- pow2_plus.
        replace (52 + (ey - 52))%Z with ey by lia. rewrite Ey. exact Ly. }
      apply rne_mono in U. rewrite rne_Z in U.
      apply (Qle_trans _ (inject_Z (2 ^ 52) * 2 ^ (ey - 52))).
      * rewrite pow2_Z by lia. rewrite <- pow2_plus.
        replace (52 + (ey - 52))%Z with ey by lia. apply Qle_refl.
      * apply Qmult_le_compat_r; [|apply Qlt_le_weak, pow2_pos].
        rewrite <- Zle_Qle. exact U.
Qed.

Lemma round_pos_0 (a : Q) : a == 0 -> round_pos a == 0.
Proof.
  intro H. unfold round_pos.
  pose proof (ulp_pos a) as U. set (u := ulp a) in *. clearbody u.
  assert (E : a / u == inject_Z 0).
  { rewrite H. change (inject_Z 0) with 0. field. lra. }
  unfold rne. rewrite (Qfloor_comp _ _ E), Qfloor_Z.
  assert (E2 : a / u - inject_Z 0 == 0) by (rewrite E; reflexivity).
  rewrite E2. cbn. ring.
Qed.

Lemma round_pos_mono' (x y : Q) : 0 <= x -> x <= y -> round_pos x <= round_pos y.
Proof.
  intros Hx Hxy. destruct (Qlt_le_dec 0 x) as [P|Z].
  - apply round_pos_mono; assumption.
  - rewrite (round_pos_0 x) by lra. apply round_pos_nonneg. lra.
Qed.

Theorem round64_monotone (x y : Q) : x <= y -> round64 x <= round64 y.
Proof.
  intro H. unfold round64.
  destruct (Qcompare_spec x 0) as [X|X|X];
  destruct (Qcompare_spec y 0) as [Y|Y|Y]; try (exfalso; lra);
    try (apply round_pos_mono'; lra).
  - assert (0 <= round_pos (- x)) by (apply round_pos_nonneg; lra).
    assert (0 <= round_pos y) by (apply round_pos_nonneg; lra). lra.
  - assert (round_pos (- y) <= round_pos (- x))
      by (apply round_pos_mono'; lra).
    lra.
  - assert (0 <= round_pos (- x)) by (apply round_pos_nonneg; lra).
    assert (0 <= round_pos y) by (apply round_pos_nonneg; lra). lra.
Qed.


Lemma ilog2_unique (q : Q) (k : Z) :
  2 ^ k <= q -> q < 2 ^ (k + 1) -> ilog2 q = k.
Proof.
  intros L U.
  assert (Hq : 0 < q) by (pose proof (pow2_pos k); lra).
  destruct (ilog2_spec q Hq) as [L' U'].
  destruct (Z_lt_le_dec (ilog2 q) k) as [H|H].
  - assert (2 ^ (ilog2 q + 1) <= 2 ^ k) by (apply pow2_le; lia). lra.
  - destruct (Z_lt_le_dec k (ilog2 q)) as [H'|H']; [|lia].
    assert (2 ^ (k + 1) <= 2 ^ ilog2 q) by (apply pow2_le; lia). lra.
Qed.

Lemma rne_comp (x y : Q) : x == y -> rne x = rne y.
Proof.
  intro E. unfold rne. rewrite (Qfloor_comp x y E).
  assert (E' : x - inject_Z (Qfloor y) == y - inject_Z (Qfloor y))
    by (rewrite E; reflexivity).
  rewrite (Qcompare_comp _ _ E' (1 # 2) (1 # 2) (Qeq_refl _)). reflexivity.
Qed.

Lemma round_pos_on_grid (a : Q) : 0 <= a -> on_grid (round_pos a).
Proof.
  intro Ha. unfold round_pos, ulp.
  set (E := Z.max (ilog2 a) (-1022)).
  exists (rne (a / 2 ^ (E - 52))), (E - 52)%Z.
  split; [|split; [lia | reflexivity]].
  split.
  - rewrite <- (rne_Z 0). apply rne_mono.
    apply Qle_shift_div_l; [apply pow2_pos|].
    change (inject_Z 0) with 0. lra.
  - rewrite <- (rne_Z (2 ^ 53)). apply rne_mono.
    apply Qle_shift_div_r; [apply pow2_pos|].
    rewrite pow2_Z by lia. rewrite <- pow2_plus.
    replace (53 + (E - 52))%Z with (E + 1)%Z by lia.
    destruct (Qlt_le_dec 0 a) as [P|Z].
    + destruct (ilog2_spec a P) as [_ U].
      apply Qlt_le_weak, (Qlt_le_trans _ _ _ U). apply pow2_le. lia.
    + pose proof (pow2_pos (E + 1)). lra.
Qed.

Lemma grid_fixed_aux (y : Q) (n c : Z) :
  (0 < n < 2 ^ 53)%Z -> (-1074 <= c)%Z -> y == inject_Z n * 2 ^ c ->
  round_pos y == y.
Proof.
  intros [N0 N1] C Ey.
  set (m := Z.log2 n).
  destruct (Z.log2_spec n N0) as [Lm Um]. fold m in Lm, Um.
  assert (M0 : (0 <= m)%Z) by apply Z.log2_nonneg.
  assert (M1 : (m <= 52)%Z).
  { destruct (Z_lt_le_dec 52 m) as [H|H]; [|exact H].
    assert (2 ^ 53 <= 2 ^ m)%Z by (apply Z.pow_le_mono_r; lia). lia. }
  assert (Pc := pow2_pos c).
  assert (Ly : 2 ^ (m + c) <= y).
  { rewrite Ey, pow2_plus. apply Qmult_le_compat_r; [|lra].
    rewrite <- pow2_Z by exact M0. rewrite <- Zle_Qle. exact Lm. }
  assert (Uy : y < 2 ^ (m + c + 1)).
  { rewrite Ey. replace (m + c + 1)%Z with ((m + 1) + c)%Z by lia.
    rewrite pow2_plus. apply Qmult_lt_r; [exact Pc|].
    rewrite <- pow2_Z by lia. rewrite <- Zlt_Qlt.
    replace (m + 1)%Z with (Z.succ m) by lia. exact Um. }
  unfold round_pos, ulp. rewrite (ilog2_unique y (m + c) Ly Uy).
  set (E := Z.max (m + c) (-1022)).
  set (d := (c - (E - 52))%Z).
  assert (D : (0 <= d)%Z) by (unfold d, E; lia).
  assert (Pc2 : 2 ^ c == 2 ^ d * 2 ^ (E - 52)).
  { rewrite <- pow2_plus. replace (d + (E - 52))%Z with c by (unfold d; lia).
    reflexivity. }
  assert (Q1 : y / 2 ^ (E - 52) == inject_Z (n * 2 ^ d)).
  { rewrite inject_Z_mult, pow2_Z by exact D. rewrite Ey, Pc2. field.
    pose proof (pow2_pos (E - 52)). lra. }
  rewrite (rne_comp _ _ Q1), rne_Z.
  rewrite inject_Z_mult, pow2_Z by exact D. rewrite Ey, Pc2. ring.
Qed.

Lemma grid_fixed (y : Q) : on_grid y -> round_pos y == y.
Proof.
  intros (n & c & [N0 N1] & C & Ey).
  destruct (Z.eq_dec n 0) as [->|NZ].
  - assert (Z : y == 0) by (rewrite Ey; change (inject_Z 0) with 0; ring).
    rewrite (round_pos_0 y Z), Z. reflexivity.
  - destruct (Z.eq_dec n (2 ^ 53)) as [->|NT].
    + apply (grid_fixed_aux y (2 ^ 52) (c + 1)); [lia | lia |].
      rewrite Ey, pow2_plus.
      change (inject_Z (2 ^ 53)) with (inject_Z (2 ^ 52) * 2).
      change (2 ^ 1) with 2. ring.
    + apply (grid_fixed_aux y n c); [lia | exact C | exact Ey].
Qed.

Lemma round_pos_idempotent (a : Q) :
  0 <= a -> round_pos (round_pos a) == round_pos a.
Proof. intro H. apply grid_fixed, round_pos_on_grid, H. Qed.

Lemma round64_opp_pos (x : Q) : x < 0 -> round64 x == - round_pos (- x).
Proof.
  intro H. unfold round64.
  destruct (Qcompare_spec x 0) as [X|X|X]; try (exfalso; lra). reflexivity.
Qed.

Lemma round64_nonneg (x : Q) : 0 <= x -> round64 x = round_pos x.
Proof.
  intro H. unfold round64.
  destruct (Qcompare_spec x 0) as [X|X|X]; try (exfalso; lra); reflexivity.
Qed.

(** Rounding a double gives it back. *)
Theorem round64_idempotent (x : Q) : is_double (round64 x).
Proof.
  unfold is_double.
  destruct (Qlt_le_dec x 0) as [N|NN].
  - assert (G := round_pos_on_grid (- x) ltac:(lra)).
    assert (P : 0 <= round_pos (- x)) by (apply round_pos_nonneg; lra).
    assert (E : round64 x == - round_pos (- x)) by (apply round64_opp_pos, N).
    destruct (Qlt_le_dec 0 (round_pos (- x))) as [S|S].
    + assert (F : round_pos (- round64 x) == round_pos (- x)).
      { transitivity (round_pos (round_pos (- x))); [|apply grid_fixed, G].
        apply Qle_antisym; apply round_pos_mono'; lra. }
      assert (K := round64_opp_pos (round64 x) ltac:(lra)). lra.
    + assert (Z : round64 x == 0) by lra.
      rewrite (round64_nonneg (round64 x)) by lra.
      rewrite (round_pos_0 _ Z), Z. reflexivity.
  - rewrite (round64_nonneg x NN).
    assert (P : 0 <= round_pos x) by (apply round_pos_nonneg, NN).
    rewrite (round64_nonneg _ P). apply round_pos_idempotent, NN.
Qed.

(** Every double is a multiple of [2 ^ -1074]. *)
Lemma double_on_lattice (a : Q) :
  is_double a -> exists n : Z, a == inject_Z n * 2 ^ (-1074).
Proof.
  unfold is_double. intro D.
  assert (G : forall b, 0 <= b -> exists n : Z,
                round_pos b == inject_Z n * 2 ^ (-1074)).
  { intros b Hb. destruct (round_pos_on_grid b Hb) as (n & c & _ & C & E).
    exists (n * 2 ^ (c + 1074))%Z.
    rewrite E, inject_Z_mult, pow2_Z by lia.
    replace c with ((c + 1074) + (-1074))%Z at 1 by lia.
    rewrite pow2_plus. ring. }
  destruct (Qlt_le_dec a 0) as [N|NN].
  - destruct (G (- a) ltac:(lra)) as (n & E).
    exists (- n)%Z. rewrite <- D, (round64_opp_pos a N), E, inject_Z_opp. ring.
  - destruct (G a NN) as (n & E). exists n.
    rewrite <- D at 1. rewrite (round64_nonneg a NN). exact E.
Qed.

(** The sign of the rounded difference of two doubles is the sign of
    their difference: it is what a comparator [a - b] hands to [sort]. *)
Theorem fsub_sign (a b : Q) :
  is_double a -> is_double b -> (fsub a b <= 0 <-> a <= b).
Proof.
  intros Da Db. unfold fsub. split.
  - intro H. destruct (Qlt_le_dec b a) as [L|L]; [exfalso | exact L].
    destruct (double_on_lattice a Da) as (n & En).
    destruct (double_on_lattice b Db) as (m & Em).
    assert (P := pow2_pos (-1074)).
    assert (NM : (m < n)%Z).
    { destruct (Z_lt_le_dec m n) as [K|K]; [exact K | exfalso].
      rewrite Zle_Qle in K.
      assert (inject_Z n * 2 ^ (-1074) <= inject_Z m * 2 ^ (-1074))
        by (apply Qmult_le_compat_r; lra).
      lra. }
    assert (S : 2 ^ (-1074) <= a - b).
    { assert (K : (1 <= n - m)%Z) by lia.
      rewrite Zle_Qle in K. unfold Z.sub in K. rewrite inject_Z_plus, inject_Z_opp in K.
      assert (inject_Z 1 * 2 ^ (-1074) <= (inject_Z n + - inject_Z m) * 2 ^ (-1074))
        by (apply Qmult_le_compat_r; lra).
      change (inject_Z 1) with 1 in *. lra. }
    apply round64_monotone in S.
    assert (T : round64 (2 ^ (-1074)) == 2 ^ (-1074)).
    { vm_compute. reflexivity. }
    lra.
  - intro H.
    assert (Z : round64 0 == 0) by (vm_compute; reflexivity).
    rewrite <- Z. apply round64_monotone. lra.
Qed.


Lemma round64_0 : round64 0 == 0.
Proof. vm_compute. reflexivity. Qed.

Lemma fadd_mono (a b c d : Q) : a <= c -> b <= d -> fadd a b <= fadd c d.
Proof. intros H1 H2. apply round64_monotone. lra. Qed.

(** A draw of [0, 1] scales a non-negative double down. *)
Lemma fmul_unit (r b : Q) :
  0 <= r -> r <= 1 -> 0 <= b -> 0 <= fmul r b /\ fmul r b <= round64 b.
Proof.
  intros R0 R1 B. unfold fmul. split.
  - rewrite <- round64_0. apply round64_monotone.
    apply Qmult_le_0_compat; assumption.
  - apply round64_monotone.
    rewrite <- (Qmult_1_l b) at 2. apply Qmult_le_compat_r; assumption.
Qed.

(** The value of [a + Math.random() * b] lies between [a] and the
    rounded sum of [a] and [b]. *)
Lemma scaled_draw (a b r : Q) :
  0 <= r -> r <= 1 -> 0 <= b ->
  round64 a <= fadd a (fmul r b) /\ fadd a (fmul r b) <= fadd a (round64 b).
Proof.
  intros R0 R1 B. destruct (fmul_unit r b R0 R1 B) as [L U].
  split; [apply round64_monotone; lra | apply fadd_mono; lra].
Qed.

(** Comparing a double with a literal that rounds upwards is comparing
    it with the number the literal is written for. *)
Lemma literal_threshold (r c : Q) :
  is_double r -> c <= num c -> (r < num c <-> r < c).
Proof.
  intros D C. unfold num in *. split; intro H; [|lra].
  destruct (Qlt_le_dec r c) as [L|L]; [exact L | exfalso].
  apply round64_monotone in L. unfold is_double in D. lra.
Qed.

End DoubleFacts.

(** From here on a rounding is computed, not unfolded. *)
Opaque round64.

(** ** Comparisons and the hash *)

Lemma Qltb_lt (a b : Q) : Qltb a b = true <-> (a < b)%Q.
Proof.
  unfold Qltb. rewrite negb_true_iff.
  split; intro H.
  - apply Qnot_le_lt. intro L. apply Qle_bool_iff in L. congruence.
  - destruct (Qle_bool b a) eqn:E; [|reflexivity].
    apply Qle_bool_iff in E. exfalso. apply (Qlt_not_le _ _ H E).
Qed.

Lemma Qltb_ge (a b : Q) : Qltb a b = false <-> (b <= a)%Q.
Proof.
  unfold Qltb. rewrite negb_false_iff. apply Qle_bool_iff.
Qed.

Lemma hashFloat_unit (s : str) (seed : Z) :
  (0 <= hashFloat s seed /\ hashFloat s seed <= 0.99999)%Q.
Proof.
  unfold hashFloat.
  pose proof (Z.mod_pos_bound (Z.abs (hashLoop s seed)) 100000 eq_refl) as B.
  unfold Qle; cbn [Qnum Qden]. lia.
Qed.

Lemma hashInt_range (s : str) (seed max : Z) :
  0 < max -> 0 <= hashInt s seed max < max.
Proof.
  intro Hmax. unfold hashInt.
  destruct (hashFloat_unit s seed) as [H0 H1].
  assert (Hm : (0 < inject_Z max)%Q) by (unfold Qlt; cbn; lia).
  split.
  - rewrite <- (Qfloor_Z 0). apply Qfloor_resp_le.
    apply Qmult_le_0_compat; [exact H0 | apply Qlt_le_weak, Hm].
  - rewrite Zlt_Qlt.
    apply Qle_lt_trans with (hashFloat s seed * inject_Z max)%Q.
    + apply Qfloor_le.
    + nra.
Qed.

(** [hashInt] is an integer division: the product it floors is a
    multiple of 1/100000. *)
Lemma hashInt_div (s : str) (seed max : Z) :
  hashInt s seed max = (Z.abs (hashLoop s seed) mod 100000 * max) / 100000.
Proof.
  unfold hashInt, hashFloat, Qfloor, Qmult, inject_Z. cbn [Qnum Qden].
  reflexivity.
Qed.

(** ** The scene generator *)

Section GeneratorFacts.
Import Generative.

Lemma mapi_length {A B} (f : nat -> A -> B) (l : list A) :
  List.length (mapi f l) = List.length l.
Proof.
  unfold mapi. rewrite length_map, length_combine, length_seq.
  apply Nat.min_id.
Qed.

Lemma mapi_nth_error {A B} (f : nat -> A -> B) (l : list A) (i : nat) (b : B) :
  nth_error (mapi f l) i = Some b ->
  exists a, nth_error l i = Some a /\ b = f i a.
Proof.
  unfold mapi. intro H.
  rewrite nth_error_map in H.
  destruct (nth_error (combine (seq 0 (List.length l)) l) i) as [[j a]|] eqn:E;
    [|discriminate].
  cbn in H. injection H as <-.
  assert (Hi : (i < List.length (combine (seq 0 (List.length l)) l))%nat)
    by (apply nth_error_Some; congruence).
  rewrite length_combine, length_seq, Nat.min_id in Hi.
  pose proof (combine_nth (seq 0 (List.length l)) l i 0%nat a
                (length_seq _ _)) as C.
  rewrite (nth_error_nth _ _ (0%nat, a) E) in C.
  rewrite seq_nth in C by exact Hi. cbn in C.
  injection C as -> Ha.
  exists a. split; [|reflexivity].
  rewrite Ha. apply nth_error_nth'. exact Hi.
Qed.

Lemma In_firstn {A} (x : A) (n : nat) (l : list A) :
  In x (firstn n l) -> In x l.
Proof.
  revert l. induction n as [|n IH]; intros [|a l]; cbn; try tauto.
  intros [->|H]; [now left | right; auto].
Qed.

Lemma insert_length (c : Candidate) (l : list Candidate) :
  List.length (insert c l) = S (List.length l).
Proof.
  induction l as [|d l IH]; cbn; [reflexivity|].
  destruct (Qle_bool (dist c) (dist d)); cbn; [reflexivity|].
  now rewrite IH.
Qed.

Lemma sort_length (l : list Candidate) :
  List.length (sort l) = List.length l.
Proof.
  induction l as [|c l IH]; cbn; [reflexivity|].
  fold (sort l). now rewrite insert_length, IH.
Qed.

Lemma insert_In (c x : Candidate) (l : list Candidate) :
  In x (insert c l) -> x = c \/ In x l.
Proof.
  induction l as [|d l IH]; cbn.
  - intros [->|[]]. now left.
  - destruct (Qle_bool (dist c) (dist d)); cbn.
    + intros [->|H]; [now left | now right].
    + intros [->|H]; [right; now left|].
      destruct (IH H) as [->|H']; [now left | right; now right].
Qed.

Lemma sort_In (x : Candidate) (l : list Candidate) :
  In x (sort l) -> In x l.
Proof.
  induction l as [|c l IH]; cbn; [tauto|].
  fold (sort l). intro H.
  destruct (insert_In _ _ _ H) as [->|H']; [now left | right; auto].
Qed.

Lemma filter_skip_length (i a n : nat) :
  List.length (filter (fun j => negb (Nat.eqb j i)) (seq a n)) =
  if ((a <=? i) && (i <? a + n))%nat then pred n else n.
Proof.
  revert a. induction n as [|n IH]; intro a; cbn [seq filter].
  - destruct ((a <=? i)%nat && (i <? a + 0)%nat); reflexivity.
  - destruct (Nat.eqb_spec a i) as [->|Hne]; cbn [negb].
    + rewrite IH.
      replace ((S i <=? i)%nat) with false by (symmetry; apply Nat.leb_gt; lia).
      replace ((i <=? i)%nat) with true by (symmetry; apply Nat.leb_le; lia).
      replace ((i <? i + S n)%nat) with true by (symmetry; apply Nat.ltb_lt; lia).
      reflexivity.
    + cbn [List.length]. rewrite IH.
      destruct (Nat.leb_spec (S a) i), (Nat.leb_spec a i),
        (Nat.ltb_spec i (S a + n)), (Nat.ltb_spec i (a + S n));
        cbn; lia.
Qed.

Lemma mapi_cj {A} (f : nat -> A -> Q) (l : list A) :
  map cj (mapi (fun j n => {| cj := j; dist := f j n |}) l) =
  seq 0 (List.length l).
Proof.
  unfold mapi. rewrite map_map. cbn [cj].
  change (fun x : nat * A => fst x) with (@fst nat A).
  generalize 0%nat. induction l as [|a l IH]; intro k; cbn; [reflexivity|].
  now rewrite IH.
Qed.

Lemma filter_map_length {A B} (g : A -> B) (p : B -> bool) (l : list A) :
  List.length (filter (fun a => p (g a)) l) = List.length (filter p (map g l)).
Proof.
  induction l as [|a l IH]; cbn; [reflexivity|].
  destruct (p (g a)); cbn; now rewrite IH.
Qed.

Context {P : Platform}.

Lemma candidates_length (ns : list Node) (i : nat) (ni : Node) :
  (i < List.length ns)%nat ->
  List.length (candidates ns i ni) = pred (List.length ns).
Proof.
  intro Hi. unfold candidates. rewrite sort_length.
  rewrite (filter_map_length cj (fun j => negb (Nat.eqb j i))).
  rewrite mapi_cj, filter_skip_length.
  replace ((0 <=? i)%nat) with true by (symmetry; apply Nat.leb_le; lia).
  replace ((i <? 0 + List.length ns)%nat) with true
    by (symmetry; apply Nat.ltb_lt; lia).
  reflexivity.
Qed.

Lemma candidates_not_self (ns : list Node) (i : nat) (ni : Node) (c : Candidate) :
  In c (candidates ns i ni) -> cj c <> i.
Proof.
  unfold candidates. intro H. apply sort_In in H.
  apply filter_In in H. destruct H as [_ H].
  apply negb_true_iff, Nat.eqb_neq in H. exact H.
Qed.

Lemma connCount_range (a : str) (i : nat) : 2 <= connCount a i <= 4.
Proof.
  unfold connCount.
  pose proof (hashInt_range ((a ++ lit "conn") ++ of_nat i) (Z.of_nat i) 3
                eq_refl).
  lia.
Qed.

End GeneratorFacts.

Section GeneratorTheorems.
Import Generative.

Lemma walletToParams_effective {P : Platform} (seed : str) :
  walletToParams seed = walletToParams (effective_seed seed).
Proof.
  assert (D : effective_seed default_seed = default_seed) by reflexivity.
  assert (E : effective_seed (effective_seed seed) = effective_seed seed).
  { unfold effective_seed at 2 3.
    destruct ((List.length seed =? 0)%nat || (List.length seed <? 8)%nat) eqn:E;
      [exact D|].
    unfold effective_seed. now rewrite E. }
  unfold walletToParams. now rewrite E.
Qed.

Lemma nodes_length {P : Platform} (seed : str) :
  List.length (nodes (walletToParams seed)) =
  Z.to_nat (nodeCount (walletToParams seed)).
Proof.
  unfold walletToParams. cbn [nodes nodeCount].
  now rewrite mapi_length, length_map, length_seq.
Qed.

Lemma nodeCount_range {P : Platform} (seed : str) :
  12 <= nodeCount (walletToParams seed) <= 47.
Proof.
  unfold walletToParams. cbn [nodeCount].
  match goal with
  | |- _ <= 12 + hashInt ?a 1 36 <= _ =>
      pose proof (hashInt_range a 1 36 eq_refl)
  end.
  lia.
Qed.

Lemma node_connections {P : Platform} (seed : str) (i : nat) (n : Node) :
  nth_error (nodes (walletToParams seed)) i = Some n ->
  (2 <= List.length (connections n) <= 4)%nat /\ ~ In i (connections n).
Proof.
  intro H.
  pose proof (nodes_length seed) as L.
  pose proof (nodeCount_range seed) as R.
  revert H L R. unfold walletToParams. cbn [nodes nodeCount].
  set (a := effective_seed seed).
  set (ns := map (makeNode a) (seq 0 (Z.to_nat (12 + hashInt a 1 36)))).
  intros H L R.
  rewrite mapi_length in L.
  apply mapi_nth_error in H. destruct H as (ni & Hni & ->).
  assert (Hi : (i < List.length ns)%nat)
    by (apply nth_error_Some; congruence).
  pose proof (connCount_range a i) as C.
  cbn [connect connections]. split.
  - rewrite length_map, length_firstn, (candidates_length ns i ni Hi). lia.
  - intro Hin. apply in_map_iff in Hin. destruct Hin as (c & Hc & Hin).
    apply In_firstn, candidates_not_self in Hin. congruence.
Qed.

(** C6. For every seed the generated parameters satisfy
    12 <= nodeCount <= 48 (with as many nodes as nodeCount says),
    40 <= particleCount <= 120, 0.3 <= turbulence <= 1.0, and the
    connections of every node are between 2 and 4 indices, none of
    them the index of the node itself. *)
Theorem walletToParams_ranges (P : Platform) (seed : str) :
  let p := walletToParams seed in
  12 <= nodeCount p <= 48 /\
  List.length (nodes p) = Z.to_nat (nodeCount p) /\
  40 <= particleCount p <= 120 /\
  (0.3 <= turbulence p /\ turbulence p <= 1.0)%Q /\
  forall i n, nth_error (nodes p) i = Some n ->
    (2 <= List.length (connections n) <= 4)%nat /\ ~ In i (connections n).
Proof.
  cbv zeta. repeat split.
  - apply nodeCount_range.
  - pose proof (nodeCount_range seed). lia.
  - apply nodes_length.
  - unfold walletToParams; cbn [particleCount].
    match goal with
    | |- _ <= 40 + hashInt ?a 3 80 =>
        pose proof (hashInt_range a 3 80 eq_refl)
    end. lia.
  - unfold walletToParams; cbn [particleCount].
    match goal with
    | |- 40 + hashInt ?a 3 80 <= _ =>
        pose proof (hashInt_range a 3 80 eq_refl)
    end. lia.
  - unfold walletToParams; cbn [turbulence].
    match goal with
    | |- (_ <= 0.3 + hashFloat ?a 4 * 0.7)%Q =>
        destruct (hashFloat_unit a 4)
    end. lra.
  - unfold walletToParams; cbn [turbulence].
    match goal with
    | |- (0.3 + hashFloat ?a 4 * 0.7 <= _)%Q =>
        destruct (hashFloat_unit a 4)
    end. lra.
  - apply (node_connections seed i n H).
  - apply (node_connections seed i n H).
  - apply (node_connections seed i n H).
Qed.

(** The third node of the scene of the default seed, an instance of
    the statement above. *)
Lemma walletToParams_ranges_witness :
  exists n,
    nth_error (nodes (@walletToParams samplePlatform (lit "kira"))) 2 = Some n /\
    (2 <= List.length (connections n) <= 4)%nat /\
    ~ In 2%nat (connections n).
Proof.
  eexists. split.
  - vm_compute. reflexivity.
  - apply (proj2 (proj2 (proj2 (proj2
             (walletToParams_ranges samplePlatform (lit "kira")))))).
    vm_compute. reflexivity.
Defined.

(** C8. A seed that is empty or shorter than 8 characters is replaced
    by the default seed literal before anything is hashed, so it yields
    the parameters of the default seed. *)
Theorem short_seed_is_default (P : Platform) (seed : str) :
  (List.length seed < 8)%nat ->
  walletToParams seed = walletToParams default_seed /\
  address (walletToParams seed) = default_seed.
Proof.
  intro H.
  assert (E : effective_seed seed = default_seed).
  { unfold effective_seed.
    replace ((List.length seed <? 8)%nat) with true
      by (symmetry; apply Nat.ltb_lt; exact H).
    now rewrite orb_true_r. }
  split.
  - rewrite (walletToParams_effective seed), E. reflexivity.
  - rewrite (walletToParams_effective seed), E. reflexivity.
Qed.

Lemma short_seed_is_default_witness :
  @walletToParams samplePlatform (lit "kira") =
  @walletToParams samplePlatform default_seed /\
  address (@walletToParams samplePlatform (lit "kira")) = default_seed.
Proof.
  apply (short_seed_is_default samplePlatform (lit "kira")).
  vm_compute. lia.
Defined.

(** C5. The parameters are a function of the seed alone: two
    invocations on the same seed, at any two points of the random
    stream and with any trigonometric functions, return equal
    parameters (nodes in the same order with the same attributes and
    connections, the same palette, particle count and turbulence),
    given only that [Math.hypot] and [Math.PI] are the same in both. *)
Theorem walletToParams_deterministic (P1 P2 : Platform) (seed : str) :
  (forall a b, @Math_hypot P1 a b = @Math_hypot P2 a b) ->
  @Math_PI P1 = @Math_PI P2 ->
  @walletToParams P1 seed = @walletToParams P2 seed.
Proof.
  intros Hh Hpi. unfold walletToParams.
  set (a := effective_seed seed).
  assert (Hn : forall i, @makeNode P1 a i = @makeNode P2 a i).
  { intro i. unfold makeNode. now rewrite Hpi. }
  rewrite (map_ext _ _ Hn).
  set (ns := map (@makeNode P2 a) _).
  assert (Hc : forall i ni, @connect P1 a ns i ni = @connect P2 a ns i ni).
  { intros i ni. unfold connect, candidates, mapi. do 5 f_equal.
    apply map_ext. intros [j n]. cbn [fst snd]. unfold distance.
    now rewrite Hh. }
  unfold mapi at 1 2.
  f_equal. apply map_ext. intros [i ni]. apply Hc.
Qed.

Lemma walletToParams_deterministic_witness :
  @walletToParams samplePlatform default_seed =
  @walletToParams laterPlatform default_seed.
Proof.
  apply walletToParams_deterministic.
  - intros a b. reflexivity.
  - reflexivity.
Defined.

End GeneratorTheorems.

(** ** The simulated feed: probability bands *)

Section DemoBands.
Import Helius Design.
Context {P : Platform}.

(** The four thresholds of the simulated loop are literals whose
    doubles lie above the numbers they are written for. *)
Lemma thresholds_round_up :
  (0.005 <= num 0.005 /\ 0.025 <= num 0.025 /\
   0.04 <= num 0.04 /\ 0.05 <= num 0.05)%Q.
Proof. repeat split; vm_compute; discriminate. Qed.

Lemma below_threshold (rand c : Q) :
  is_double rand -> (c <= num c)%Q ->
  if Qltb rand (num c) then (rand < c)%Q else (c <= rand)%Q.
Proof.
  intros D C. destruct (Qltb rand (num c)) eqn:E.
  - apply Qltb_lt in E. apply (literal_threshold rand c D C). exact E.
  - apply Qltb_ge in E. lra.
Qed.

Lemma demo_type_cases (rand : Q) (f : Feed) :
  is_double rand ->
  (rand < 0.005 /\ demo_type rand f = Some WHALE)%Q \/
  (0.005 <= rand /\ rand < 0.025 /\ demo_type rand f = Some MEV)%Q \/
  (0.025 <= rand /\ rand < 0.04 /\ demo_type rand f = Some MINT)%Q \/
  (0.04 <= rand /\ rand < 0.05 /\ demo_type rand f = Some BURN)%Q \/
  (0.05 <= rand /\ demo_type rand f = Some TRANSACTION)%Q.
Proof.
  intro D. destruct thresholds_round_up as (T1 & T2 & T3 & T4).
  pose proof (below_threshold rand 0.005 D T1) as E1.
  pose proof (below_threshold rand 0.025 D T2) as E2.
  pose proof (below_threshold rand 0.04 D T3) as E3.
  pose proof (below_threshold rand 0.05 D T4) as E4.
  unfold demo_type, demoPick.
  destruct (Qltb rand (num 0.005)); [left; split; [exact E1 | reflexivity]|].
  right.
  destruct (Qltb rand (num 0.025));
    [left; repeat split; try assumption; reflexivity|].
  right.
  destruct (Qltb rand (num 0.04));
    [left; repeat split; try assumption; reflexivity|].
  right.
  destruct (Qltb rand (num 0.05));
    [left; repeat split; try assumption; reflexivity|].
  right. split; [assumption | reflexivity].
Qed.

Lemma demo_bands :
  band WHALE 0 0.005 /\ band MEV 0.005 0.025 /\ band MINT 0.025 0.04 /\
  band BURN 0.04 0.05 /\ band TRANSACTION 0.05 1.
Proof.
  unfold band.
  repeat match goal with |- _ /\ _ => split end; try lra;
    intros rand f D [R0 R1];
    destruct (demo_type_cases rand f D)
      as [[A E]|[(A & B & E)|[(A & B & E)|[(A & B & E)|[A E]]]]];
    rewrite E; split; intro H; try discriminate H; try lra;
    try (split; lra); try reflexivity.
Qed.

End DemoBands.

Section DemoBandTheorems.
Import Helius Design.

(** C7, as the code has it. The simulated loop gives [tx] to the draws
    of [0.05, 1), a fraction of exactly 0.95 of the range; [whale] to
    the draws of [0, 0.005), exactly 0.005 of the range and the rarest
    band; and [mev], [mint] and [burn] to the draws of [0.005, 0.025),
    [0.025, 0.04) and [0.04, 0.05), that is to 0.02, 0.015 and 0.01 of
    the range, strictly decreasing in that order. *)
Theorem demo_band_fractions (P : Platform) :
  fraction TRANSACTION 0.05 1 0.95 /\
  fraction WHALE 0 0.005 0.005 /\
  fraction MEV 0.005 0.025 0.02 /\
  fraction MINT 0.025 0.04 0.015 /\
  fraction BURN 0.04 0.05 0.01 /\
  (0.005 < 0.01 /\ 0.01 < 0.015 /\ 0.015 < 0.02 /\ 0.02 < 0.95)%Q.
Proof.
  destruct demo_bands as (Bw & Bm & Bi & Bb & Bt).
  unfold fraction.
  repeat match goal with |- _ /\ _ => split end;
    try assumption; try reflexivity.
Qed.

(** C7 as written fails: [tx] does not take 0.995 of the range or
    more, whatever interval one gives it: the draw 1/32 is a mint. *)
Lemma tx_fraction_is_not_995 :
  ~ exists lo hi w,
      @fraction samplePlatform TRANSACTION lo hi w /\ (0.995 <= w)%Q.
Proof.
  intros (lo & hi & w & ([B K] & E) & H).
  assert (D : is_double (1 # 32)) by (vm_compute; reflexivity).
  assert (T : @demo_type samplePlatform (1 # 32) (constructor None)
              = Some TRANSACTION).
  { apply K; [exact D | lra | lra]. }
  vm_compute in T. discriminate T.
Qed.

End DemoBandTheorems.

(** ** The magnitudes and the delay of the feed *)

Section MagnitudeFacts.
Local Open Scope Q_scope.

Ltac draw_bounds :=
  match goal with
  | R0 : 0 <= ?r, R1 : ?r < 1 |- _ /\ fadd ?a (fmul ?r ?b) <= _ =>
      let L := fresh "L" in
      let U := fresh "U" in
      let A := fresh "A" in
      let B := fresh "B" in
      destruct (scaled_draw a b r) as [L U];
      [exact R0 | apply Qlt_le_weak; exact R1 | vm_compute; discriminate |];
      assert (A : round64 a == a) by (vm_compute; reflexivity);
      split; [lra|]
  end.

(** [0.3 + Math.random() * 0.4] *)
Lemma live_tx_magnitude (r : Q) :
  0 <= r -> r < 1 ->
  num 0.3 <= fadd (num 0.3) (fmul r (num 0.4)) /\
  fadd (num 0.3) (fmul r (num 0.4)) <= num 0.7.
Proof.
  intros R0 R1. draw_bounds.
  assert (fadd (num 0.3) (round64 (num 0.4)) == num 0.7)
    by (vm_compute; reflexivity).
  lra.
Qed.

(** [0.8 + Math.random() * 0.2] *)
Lemma live_whale_magnitude (r : Q) :
  0 <= r -> r < 1 ->
  num 0.8 <= fadd (num 0.8) (fmul r (num 0.2)) /\
  fadd (num 0.8) (fmul r (num 0.2)) <= 1.
Proof.
  intros R0 R1. draw_bounds.
  assert (fadd (num 0.8) (round64 (num 0.2)) == 1)
    by (vm_compute; reflexivity).
  lra.
Qed.

(** [0.6 + Math.random() * 0.4] *)
Lemma live_mev_magnitude (r : Q) :
  0 <= r -> r < 1 ->
  num 0.6 <= fadd (num 0.6) (fmul r (num 0.4)) /\
  fadd (num 0.6) (fmul r (num 0.4)) <= 1.
Proof.
  intros R0 R1. draw_bounds.
  assert (fadd (num 0.6) (round64 (num 0.4)) == 1)
    by (vm_compute; reflexivity).
  lra.
Qed.

(** [0.85 + Math.random() * 0.15] *)
Lemma demo_whale_magnitude (r : Q) :
  0 <= r -> r < 1 ->
  num 0.85 <= fadd (num 0.85) (fmul r (num 0.15)) /\
  fadd (num 0.85) (fmul r (num 0.15)) <= 1.
Proof.
  intros R0 R1. draw_bounds.
  assert (fadd (num 0.85) (round64 (num 0.15)) == 1)
    by (vm_compute; reflexivity).
  lra.
Qed.

(** [0.6 + Math.random() * 0.3]: the largest sum is the double below
    the one written 0.9. *)
Lemma demo_mev_magnitude (r : Q) :
  0 <= r -> r < 1 ->
  num 0.6 <= fadd (num 0.6) (fmul r (num 0.3)) /\
  fadd (num 0.6) (fmul r (num 0.3)) < num 0.9.
Proof.
  intros R0 R1.
  destruct (scaled_draw (num 0.6) (num 0.3) r) as [L U];
    [exact R0 | apply Qlt_le_weak; exact R1 | vm_compute; discriminate |].
  assert (round64 (num 0.6) == num 0.6) by (vm_compute; reflexivity).
  assert (fadd (num 0.6) (round64 (num 0.3)) < num 0.9)
    by (vm_compute; reflexivity).
  split; lra.
Qed.

(** [0.2 + Math.random() * 0.5] *)
Lemma demo_tx_magnitude (r : Q) :
  0 <= r -> r < 1 ->
  num 0.2 <= fadd (num 0.2) (fmul r (num 0.5)) /\
  fadd (num 0.2) (fmul r (num 0.5)) <= num 0.7.
Proof.
  intros R0 R1. draw_bounds.
  assert (fadd (num 0.2) (round64 (num 0.5)) == num 0.7)
    by (vm_compute; reflexivity).
  lra.
Qed.


(** The literals of the magnitudes, in their order. *)
Lemma literal_values :
  num 0.5 == 0.5 /\ 0 <= num 0.2 /\ num 0.2 <= num 0.3 /\
  num 0.3 <= num 0.45 /\ num 0.45 <= num 0.5 /\ num 0.5 <= num 0.6 /\
  num 0.6 <= num 0.7 /\ num 0.7 <= num 0.8 /\ num 0.8 <= num 0.85 /\
  num 0.85 <= num 0.9 /\ num 0.9 <= 1.
Proof.
  repeat split; vm_compute; first [reflexivity | discriminate].
Qed.

(** The delays of the backoff are doubles, and multiplying them by 1.5
    is exact. *)
Lemma backoff_is_exact :
  Forall (fun d => is_double d /\ fmul d (num 1.5) == d * 1.5)
         [2000; 3000; 4500; 6750; 10125; 15187.5; 22781.25; 30000].
Proof.
  repeat constructor; vm_compute; reflexivity.
Qed.

End MagnitudeFacts.

(** The magnitude of a live message, by the form of the goal. *)
Ltac live_magnitude :=
  lazymatch goal with
  | |- (num 0.3 <= _ /\ _)%Q => apply live_tx_magnitude; assumption
  | |- (num 0.8 <= _ /\ _)%Q => apply live_whale_magnitude; assumption
  | |- (num 0.6 <= _ /\ _)%Q => apply live_mev_magnitude; assumption
  | |- (num 0.5 == 0.5)%Q => exact (proj1 literal_values)
  end.

(** ** The classifier of live messages *)

Section Classifier.
Import Helius Design.

Lemma some_strings (cb : json -> Result bool) (g : str -> bool)
      (lines : list str) :
  (forall s, cb (JStr s) = Ok (g s)) ->
  some_of (lines_json lines) cb = Ok (existsb g lines).
Proof.
  intro H. unfold lines_json, some_of.
  induction lines as [|l lines IH]; cbn; [reflexivity|].
  rewrite H. destruct (g l); cbn; [reflexivity | exact IH].
Qed.

Lemma some_isTransfer lines :
  some_of (lines_json lines) isTransfer = Ok (transfer_line lines).
Proof.
  apply some_strings. intro s. unfold isTransfer; cbn.
  now rewrite orb_false_r.
Qed.

Lemma some_isLarge lines :
  some_of (lines_json lines) isLarge = Ok (large_amount_line lines).
Proof.
  apply some_strings. intro s. unfold isLarge; cbn.
  now rewrite orb_false_r.
Qed.

Lemma some_isSwap lines :
  some_of (lines_json lines) isSwap = Ok (swap_line lines).
Proof.
  apply some_strings. intro s. unfold isSwap, either; cbn.
  rewrite orb_false_r.
  destruct (includes s (lit "Program log: Instruction: Swap")); reflexivity.
Qed.

Lemma some_isMint lines :
  some_of (lines_json lines) isMint = Ok (mint_line lines).
Proof.
  apply some_strings. intro s. unfold isMint, either; cbn.
  rewrite orb_false_r.
  destruct (includes s (lit "Instruction: MintTo")); reflexivity.
Qed.

Lemma some_isBurn lines :
  some_of (lines_json lines) isBurn = Ok (burn_line lines).
Proof.
  apply some_strings. intro s. unfold isBurn; cbn.
  now rewrite orb_false_r.
Qed.


End Classifier.

Section ClassifierWitness.
Import Helius Design.

Lemma sample_random_in_unit : random_in_unit samplePlatform.
Proof.
  intro k. change (@Math_random samplePlatform k) with (sample_random k).
  unfold sample_random, Qle, Qlt. cbn [Qnum Qden].
  pose proof (Nat.mod_upper_bound (k * 37) 100 ltac:(discriminate)). lia.
Qed.


End ClassifierWitness.

(** ** Malformed messages *)

Section Malformed.
Import Helius Design.

(** C9. A transport message whose payload does not parse, or whose
    parsed value has no [params.result.value], leaves the feed as it
    was: nothing is handed to the consumer, the event counter and the
    time of the last event keep their values, and the handler returns
    normally. *)
Theorem malformed_message_is_skipped (P : Platform) (f : Feed)
        (payload : option json) :
  malformed payload ->
  onmessage payload f = (Ok tt, f) /\
  delivered (exec (onmessage payload) f) = delivered f /\
  eventCount (exec (onmessage payload) f) = eventCount f /\
  lastEventMs (exec (onmessage payload) f) = lastEventMs f.
Proof.
  intro H.
  assert (E : onmessage payload f = (Ok tt, f)).
  { unfold onmessage, try_catch. destruct payload as [data|]; cbn.
    - unfold _handleMessage. cbn in H. unfold message_value in H.
      destruct (oprop _ (lit "value")) as [j|]; [|reflexivity].
      rewrite H. reflexivity.
    - reflexivity. }
  unfold exec. rewrite E. repeat split.
Qed.

Lemma malformed_message_is_skipped_witness :
  let f := constructor (Some (lit "key-0001")) in
  let payload := Some (JObj [(lit "params", JObj [(lit "result", JNull)])]) in
  @onmessage samplePlatform payload f = (Ok tt, f) /\
  delivered (exec (@onmessage samplePlatform payload) f) = delivered f /\
  eventCount (exec (@onmessage samplePlatform payload) f) = eventCount f /\
  lastEventMs (exec (@onmessage samplePlatform payload) f) = lastEventMs f.
Proof.
  apply (malformed_message_is_skipped samplePlatform).
  vm_compute. reflexivity.
Defined.

End Malformed.

(** ** The connection state machine *)

Section FeedFrames.
Import Helius Design.
Context {P : Platform}.

Lemma quiet_ret {A} (a : A) : quiet (Effects.ret a).
Proof. intro f. reflexivity. Qed.

Lemma quiet_throw {A} (e : Error) : quiet (@Effects.throw Feed A e).
Proof. intro f. reflexivity. Qed.

Lemma quiet_lift {A} (r : Result A) : quiet (Effects.lift r).
Proof. intro f. reflexivity. Qed.

Lemma quiet_get {A} (field : Feed -> A) : quiet (Effects.get field).
Proof. intro f. reflexivity. Qed.

Lemma quiet_bind {A B} (m : M A) (k : A -> M B) :
  quiet m -> (forall a, quiet (k a)) -> quiet (Effects.bind m k).
Proof.
  intros Hm Hk f. unfold Effects.bind.
  specialize (Hm f). destruct (m f) as [[a|e] f']; cbn in *.
  - now rewrite Hk.
  - exact Hm.
Qed.

Lemma quiet_random : quiet random.
Proof. intro f. reflexivity. Qed.

Lemma quiet_dateNow : quiet dateNow.
Proof. intro f. reflexivity. Qed.

Lemma quiet_onEvent (e : Event) : quiet (onEvent e).
Proof. intro f. reflexivity. Qed.

Lemma quiet_count :
  quiet (Effects.modify (fun f => set_eventCount (eventCount f + 1) f)).
Proof. intro f. reflexivity. Qed.

Lemma quiet_last (t : Z) : quiet (Effects.modify (set_lastEventMs t)).
Proof. intro f. reflexivity. Qed.

Lemma quiet_try (m : M unit) : quiet m -> quiet (Effects.try_catch m).
Proof. intros H f. exact (H f). Qed.

Ltac quiet_step :=
  first
    [ apply quiet_ret | apply quiet_throw | apply quiet_lift
    | apply quiet_get | apply quiet_random | apply quiet_dateNow
    | apply quiet_onEvent | apply quiet_count | apply quiet_last
    | apply quiet_bind; [|intro]
    | match goal with
      | |- quiet (if ?b then _ else _) => destruct b
      | |- quiet (match ?o with Some _ => _ | None => _ end) => destruct o
      end ].

Lemma quiet_classify (logs : json) : quiet (classify logs).
Proof. unfold classify. repeat quiet_step. Qed.

Lemma quiet_handleMessage (data : json) : quiet (_handleMessage data).
Proof.
  unfold _handleMessage.
  destruct (oprop _ (lit "value")) as [j|]; [|apply quiet_ret].
  destruct (negb (truthy (Some j))); [apply quiet_ret|].
  apply quiet_bind; [apply quiet_classify|intro].
  repeat quiet_step.
Qed.

Lemma onmessage_control (payload : option json) (f : Feed) :
  control (exec (onmessage payload) f) = control f.
Proof.
  unfold exec, onmessage. apply quiet_try.
  destruct payload; [apply quiet_handleMessage | apply quiet_throw].
Qed.

End FeedFrames.

Section FeedInvariants.
Import Helius Design.
Context {P : Platform}.

Ltac eff :=
  unfold exec, run_task, onopen, onclose, onerror, disconnect, connect,
    demoTick, _startDemoMode, scheduleNext, ws_send, ws_close, demoPick,
    setTimeout, onEvent, dateNow, random,
    Effects.bind, Effects.ret, Effects.get, Effects.modify, Effects.lift,
    Effects.throw in *.

Lemma filter_remove_nth {A} (p : A -> bool) (n : nat) (l : list A) (t : A) :
  nth_error l n = Some t ->
  List.length (filter p l) =
  ((if p t then 1 else 0) + List.length (filter p (remove_nth n l)))%nat.
Proof.
  revert n. induction l as [|a l IH]; intros [|n] H; cbn in *;
    try discriminate.
  - injection H as ->. destruct (p t); reflexivity.
  - destruct (p a); cbn; rewrite (IH n H); destruct (p t); cbn; lia.
Qed.

Lemma pending_after_push (t : Timer) (ts : list Timer) :
  List.length (filter is_demo_tick (ts ++ [t])) =
  (List.length (filter is_demo_tick ts) + if is_demo_tick t then 1 else 0)%nat.
Proof.
  rewrite filter_app, length_app. cbn. destruct (is_demo_tick t); reflexivity.
Qed.

Lemma demo_invariant_connect (ok : bool) (f : Feed) :
  demo_invariant f -> demo_invariant (exec (connect ok) f).
Proof.
  unfold demo_invariant, pending_demo_ticks. intro I. eff.
  destruct (no_key (apiKey f)), ok, (demoActive f) eqn:D; cbn;
    rewrite ?D, ?pending_after_push; cbn; rewrite ?I; reflexivity.
Qed.

Lemma demo_invariant_disconnect (f : Feed) :
  demo_invariant f -> demo_invariant (exec disconnect f).
Proof.
  unfold demo_invariant, pending_demo_ticks. intro I. eff.
  destruct (ws f) as [id|]; cbn; [|exact I].
  destruct (nth_error (sockets f) id) as [[]|]; cbn; exact I.
Qed.

Lemma demo_invariant_onopen (ss : list ReadyState) (f : Feed) :
  demo_invariant f -> demo_invariant (exec onopen (set_sockets ss f)).
Proof.
  unfold demo_invariant, pending_demo_ticks. intro I. eff. cbn.
  destruct (ws f) as [id|]; cbn; [|exact I].
  destruct (nth_error ss id) as [[]|]; cbn; exact I.
Qed.

Lemma demo_invariant_onmessage (payload : option json) (f : Feed) :
  demo_invariant f -> demo_invariant (exec (onmessage payload) f).
Proof.
  unfold demo_invariant, pending_demo_ticks. intro I.
  pose proof (onmessage_control payload f) as C. unfold control in C.
  injection C as _ _ _ D _ _ T _. now rewrite D, T.
Qed.

Lemma demo_invariant_onerror (f : Feed) :
  demo_invariant f -> demo_invariant (exec onerror f).
Proof.
  unfold demo_invariant, pending_demo_ticks. intro I. eff.
  destruct (ws f) as [id|]; cbn; [|exact I].
  destruct (nth_error (sockets f) id) as [[]|]; cbn;
    destruct (demoActive f) eqn:D; cbn; rewrite ?D; cbn;
    rewrite ?pending_after_push; cbn; rewrite ?I; reflexivity.
Qed.

Lemma demo_invariant_onclose (ss : list ReadyState) (f : Feed) :
  demo_invariant f -> demo_invariant (exec onclose (set_sockets ss f)).
Proof.
  unfold demo_invariant, pending_demo_ticks. intro I. eff. cbn.
  rewrite pending_after_push. cbn. rewrite I. apply Nat.add_0_r.
Qed.

Lemma demoPick_randomCalls_only (rand : Q) (f : Feed) :
  control (snd (demoPick rand f)) = control f /\
  eventCount (snd (demoPick rand f)) = eventCount f /\
  lastEventMs (snd (demoPick rand f)) = lastEventMs f /\
  delivered (snd (demoPick rand f)) = delivered f /\
  clockCalls (snd (demoPick rand f)) = clockCalls f /\
  exists tm, fst (demoPick rand f) = Ok tm.
Proof.
  unfold demoPick.
  destruct (Qltb rand (num 0.005)); [cbn; eauto 10|].
  destruct (Qltb rand (num 0.025)); [cbn; eauto 10|].
  destruct (Qltb rand (num 0.04)); [cbn; eauto 10|].
  destruct (Qltb rand (num 0.05)); cbn; eauto 10.
Qed.

Lemma demo_invariant_fire (n : nat) (ok : bool) (t : Timer) (f : Feed) :
  nth_error (timers f) n = Some t ->
  demo_invariant f ->
  demo_invariant
    (exec (run_task (task t) ok) (set_timers (remove_nth n (timers f)) f)).
Proof.
  intros Hn I.
  pose proof (filter_remove_nth is_demo_tick n (timers f) t Hn) as C.
  unfold demo_invariant, pending_demo_ticks in I. rewrite C in I.
  unfold is_demo_tick at 1 in I.
  destruct (task t); cbn [run_task].
  - apply demo_invariant_connect.
    unfold demo_invariant, pending_demo_ticks. cbn. exact I.
  - destruct (demoActive f) eqn:D; [|discriminate I].
    unfold demo_invariant, pending_demo_ticks.
    unfold exec, demoTick, Effects.bind, Effects.get. cbn. rewrite D.
    destruct (connected f) eqn:Cn; cbn.
    + lia.
    + pose proof (demoPick_randomCalls_only (Math_random (randomCalls f))
                    (set_randomCalls (S (randomCalls f))
                       (set_timers (remove_nth n (timers f)) f))) as R.
      destruct R as (R & _ & _ & _ & _ & tm & Ht).
      unfold Effects.bind, random. cbn.
      destruct (demoPick _ _) as [r f1]. cbn in *. subst r.
      injection R as _ _ _ Rd _ _ Rt _.
      eff. cbn. rewrite Rt, Rd, pending_after_push. cbn. rewrite D. lia.
Qed.

Lemma delay_bounds_onclose (d : Q) :
  (2000 <= d /\ d <= 30000 ->
   2000 <= Qmin (d * 1.5) 30000 /\ Qmin (d * 1.5) 30000 <= 30000)%Q.
Proof.
  intros [L U]. split.
  - apply Q.min_glb; lra.
  - apply Q.le_min_r.
Qed.

(** What every reachable feed satisfies. *)
Lemma step_invariant (f f' : Feed) (a : Action) :
  step f a = Some f' ->
  feed_invariant f -> feed_invariant f'.
Proof.
  intros S [I [L U]]. unfold step in S.
  destruct a as [ok| |id|id payload|id|id|n ok|].
  - injection S as <-. split; [now apply demo_invariant_connect|].
    eff. destruct (no_key (apiKey f)), ok, (demoActive f); cbn; auto.
  - injection S as <-. split; [now apply demo_invariant_disconnect|].
    eff. destruct (ws f) as [i|]; cbn; auto.
    destruct (nth_error (sockets f) i) as [[]|]; cbn; auto.
  - destruct (nth_error (sockets f) id) as [[]|]; try discriminate.
    injection S as <-. split; [now apply demo_invariant_onopen|].
    eff. cbn. destruct (ws f) as [i|]; cbn; auto.
    destruct (nth_error _ i) as [[]|]; cbn; auto.
  - destruct (nth_error (sockets f) id) as [[]|]; try discriminate.
    injection S as <-. split; [now apply demo_invariant_onmessage|].
    pose proof (onmessage_control payload f) as C. unfold control in C.
    injection C as _ _ _ _ D _ _ _. rewrite D. auto.
  - destruct (nth_error (sockets f) id) as [[]|]; try discriminate;
      injection S as <-; (split; [now apply demo_invariant_onerror|]);
      eff;
      (destruct (ws f) as [i|];
       [destruct (nth_error (sockets f) i) as [[]|]|]); cbn;
      destruct (demoActive f) eqn:D; cbn; rewrite ?D; cbn; auto.
  - destruct (nth_error (sockets f) id) as [[]|]; try discriminate;
      injection S as <-; (split; [now apply demo_invariant_onclose|]);
      eff; cbn; apply delay_bounds_onclose; auto.
  - destruct (nth_error (timers f) n) as [t|] eqn:Hn; [|discriminate].
    injection S as <-. split; [now apply demo_invariant_fire|].
    destruct (task t); cbn [run_task].
    + eff. cbn.
      destruct (no_key (apiKey f)), ok, (demoActive f) eqn:D; cbn;
        rewrite ?D; cbn; auto.
    + unfold exec, demoTick, Effects.bind, Effects.get. cbn.
      destruct (negb (connected f) && demoActive f).
      * pose proof (demoPick_randomCalls_only (Math_random (randomCalls f))
                      (set_randomCalls (S (randomCalls f))
                         (set_timers (remove_nth n (timers f)) f))) as R.
        destruct R as (R & _ & _ & _ & _ & tm & Ht).
        unfold Effects.bind, random. cbn.
        destruct (demoPick _ _) as [r f1]. cbn in *. subst r.
        injection R as _ _ _ _ Rd _ _ _.
        eff. cbn. rewrite Rd. auto.
      * destruct (connected f); cbn; auto.
  - injection S as <-.
    split; [exact I | cbn; auto].
Qed.

Lemma reachable_invariant (key : option str) (f : Feed) :
  reachable key f -> feed_invariant f.
Proof.
  induction 1 as [|f a f' _ IH S].
  - split; [reflexivity | cbn; lra].
  - exact (step_invariant f f' a S IH).
Qed.

Lemma run_reachable (key : option str) (acts : list Action) (f f' : Feed) :
  reachable key f -> run f acts = Some f' -> reachable key f'.
Proof.
  revert f. induction acts as [|a acts IH]; intros f R H; cbn in H.
  - now injection H as <-.
  - destruct (step f a) as [f1|] eqn:S; [|discriminate].
    exact (IH f1 (reach_step key f a f1 R S) H).
Qed.

(** What one turn of the event loop does to the reconnect delay. *)
Lemma step_delay (f f' : Feed) (a : Action) :
  step f a = Some f' ->
  match a with
  | SocketClose _ =>
      reconnectDelay f' = Qmin (reconnectDelay f * 1.5) 30000 /\
      timers f' =
        timers f ++ [{| task := RunConnect; delay := reconnectDelay f |}] /\
      connected f' = false
  | _ => reconnectDelay f' = reconnectDelay f
  end.
Proof.
  intro S. unfold step in S.
  destruct a as [ok| |id|id payload|id|id|n ok|].
  - injection S as <-.
    eff. destruct (no_key (apiKey f)), ok, (demoActive f); reflexivity.
  - injection S as <-.
    eff. destruct (ws f) as [i|]; cbn; auto.
    destruct (nth_error (sockets f) i) as [[]|]; reflexivity.
  - destruct (nth_error (sockets f) id) as [[]|]; try discriminate.
    injection S as <-.
    eff. cbn. destruct (ws f) as [i|]; cbn; auto.
    destruct (nth_error _ i) as [[]|]; reflexivity.
  - destruct (nth_error (sockets f) id) as [[]|]; try discriminate.
    injection S as <-.
    pose proof (onmessage_control payload f) as C. unfold control in C.
    now injection C as _ _ _ _ D _ _ _.
  - destruct (nth_error (sockets f) id) as [[]|]; try discriminate;
      injection S as <-;
      eff;
      (destruct (ws f) as [i|];
       [destruct (nth_error (sockets f) i) as [[]|]|]); cbn;
      destruct (demoActive f) eqn:D; cbn; rewrite ?D; reflexivity.
  - destruct (nth_error (sockets f) id) as [[]|]; try discriminate;
      injection S as <-; eff; cbn; auto.
  - destruct (nth_error (timers f) n) as [t|] eqn:Hn; [|discriminate].
    injection S as <-.
    destruct (task t); cbn [run_task].
    + eff. cbn.
      destruct (no_key (apiKey f)), ok, (demoActive f) eqn:D; cbn;
        rewrite ?D; reflexivity.
    + unfold exec, demoTick, Effects.bind, Effects.get. cbn.
      destruct (negb (connected f) && demoActive f).
      * pose proof (demoPick_randomCalls_only (Math_random (randomCalls f))
                      (set_randomCalls (S (randomCalls f))
                         (set_timers (remove_nth n (timers f)) f))) as R.
        destruct R as (R & _ & _ & _ & _ & tm & Ht).
        unfold Effects.bind, random. cbn.
        destruct (demoPick _ _) as [r f1]. cbn in *. subst r.
        injection R as _ _ _ _ Rd _ _ _.
        eff. cbn. exact Rd.
      * destruct (connected f); reflexivity.
  - now injection S as <-.
Qed.

End FeedInvariants.

Section FeedTheorems.
Import Helius Design.

(** C3, as the code has it. The reconnect delay of a new feed is
    2000 ms. Every close of a socket clears the connected flag,
    schedules [connect] after the current delay and then multiplies the
    delay by 1.5, capped at 30000 ms. Nothing else changes the delay:
    in particular a socket that opens does not reset it. The delay
    stays between 2000 and 30000. *)
Theorem reconnect_delay_backoff (P : Platform) (key : option str)
        (f f' : Feed) (a : Action) :
  reachable key f -> step f a = Some f' ->
  reconnectDelay (constructor key) = 2000%Q /\
  (2000 <= reconnectDelay f' /\ reconnectDelay f' <= 30000)%Q /\
  match a with
  | SocketClose _ =>
      reconnectDelay f' = Qmin (reconnectDelay f * 1.5) 30000 /\
      timers f' =
        timers f ++ [{| task := RunConnect; delay := reconnectDelay f |}] /\
      connected f' = false
  | _ => reconnectDelay f' = reconnectDelay f
  end.
Proof.
  intros R S. split; [reflexivity|]. split.
  - apply (reachable_invariant key f'). exact (reach_step key f a f' R S).
  - exact (step_delay f f' a S).
Qed.

Lemma sample_live_feed_reachable :
  @reachable samplePlatform sample_key sample_live_feed.
Proof.
  apply (run_reachable sample_key live_script (constructor sample_key)).
  - apply reach_new.
  - vm_compute. reflexivity.
Qed.

Lemma reconnect_delay_backoff_witness :
  exists f',
    @step samplePlatform sample_live_feed (SocketClose 1) = Some f' /\
    (2000 <= reconnectDelay f' /\ reconnectDelay f' <= 30000)%Q /\
    reconnectDelay f' = Qmin (reconnectDelay sample_live_feed * 1.5) 30000 /\
    timers f' =
      timers sample_live_feed ++
      [{| task := RunConnect; delay := reconnectDelay sample_live_feed |}] /\
    connected f' = false.
Proof.
  eexists. split; [vm_compute; reflexivity|].
  apply (reconnect_delay_backoff samplePlatform sample_key sample_live_feed
           _ (SocketClose 1) sample_live_feed_reachable).
  vm_compute. reflexivity.
Defined.

(** C3 as written fails: a socket that opens after a failure leaves
    the delay at 3000 ms, it is not reset to 2000 ms. *)
Lemma delay_is_not_reset_on_open :
  exists f f',
    @reachable samplePlatform sample_key f /\
    @step samplePlatform f (SocketOpen 1) = Some f' /\
    connected f' = true /\
    (reconnectDelay f' == 3000)%Q /\
    ~ (reconnectDelay f' == 2000)%Q.
Proof.
  exists (match @run samplePlatform (constructor sample_key)
                  [CallConnect true; SocketClose 0; TimerFires 0 true] with
          | Some f => f
          | None => constructor sample_key
          end).
  eexists. split; [|split; [vm_compute; reflexivity|]].
  - apply (run_reachable sample_key
             [CallConnect true; SocketClose 0; TimerFires 0 true]
             (constructor sample_key)).
    + apply reach_new.
    + vm_compute. reflexivity.
  - split; [reflexivity|]. split; [reflexivity|]. discriminate.
Qed.

End FeedTheorems.

Section LoopTheorems.
Import Helius Design.



(** The other branch of the callback: while the feed is not connected
    the loop goes on, it hands one event to the consumer and schedules
    itself again.  This is also what happens when a socket opens and
    closes again before the pending callback fires. *)
Lemma demo_tick_while_disconnected (P : Platform) (f : Feed) :
  connected f = false -> demoActive f = true ->
  List.length (delivered (exec demoTick f)) = S (List.length (delivered f)) /\
  eventCount (exec demoTick f) = eventCount f + 1 /\
  pending_demo_ticks (exec demoTick f) = S (pending_demo_ticks f) /\
  demoActive (exec demoTick f) = true.
Proof.
  intros C D.
  unfold exec, demoTick, Effects.bind, Effects.get. cbn. rewrite C, D. cbn.
  pose proof (demoPick_randomCalls_only (Math_random (randomCalls f))
                (set_randomCalls (S (randomCalls f)) f)) as R.
  destruct R as (Rc & Re & _ & Rd & _ & tm & Ht).
  unfold random, Effects.bind. cbn.
  destruct (demoPick _ _) as [r f1]. cbn in *. subst r.
  injection Rc as _ _ _ Ra _ _ Rt _.
  unfold pending_demo_ticks, scheduleNext, setTimeout, onEvent, dateNow, random,
    Effects.bind, Effects.get, Effects.modify. cbn.
  rewrite Rd, Re, Ra, Rt, pending_after_push. cbn.
  repeat split; try reflexivity; try lia. exact D.
Qed.

Lemma nth_error_update_nth {A} (n : nat) (v a : A) (l : list A) :
  nth_error l n = Some a -> nth_error (update_nth n v l) n = Some v.
Proof.
  revert n. induction l as [|b l IH]; intros [|n] H; cbn in *;
    try discriminate; auto.
Qed.

Lemma update_nth_length {A} (n : nat) (v : A) (l : list A) :
  List.length (update_nth n v l) = List.length l.
Proof.
  revert n. induction l as [|b l IH]; intros [|n]; cbn; auto.
Qed.

Lemma nth_error_last {A} (l : list A) (t : A) :
  nth_error (l ++ [t]) (List.length l) = Some t.
Proof. induction l; cbn; auto. Qed.

Lemma remove_nth_last {A} (l : list A) (t : A) :
  remove_nth (List.length l) (l ++ [t]) = l.
Proof. induction l; cbn; congruence. Qed.

(** C10. On a feed whose current socket is open, [disconnect] clears
    [connected] and puts the socket in the closing state without
    removing its handlers; so the close event of that socket runs
    [onclose], which schedules [connect] after the current reconnect
    delay; and when that timer fires, [connect] creates a new socket
    or, when it cannot, starts the simulated loop: event production
    does not stop. *)
Theorem disconnect_is_followed_by_connect (P : Platform) (f : Feed) (id : nat) :
  ws f = Some id -> nth_error (sockets f) id = Some OPEN ->
  connected f = true ->
  let f1 := exec disconnect f in
  connected f1 = false /\
  nth_error (sockets f1) id = Some CLOSING /\
  exists f2,
    step f1 (SocketClose id) = Some f2 /\
    timers f2 =
      timers f ++ [{| task := RunConnect; delay := reconnectDelay f |}] /\
    forall ok, exists f3,
      step f2 (TimerFires (List.length (timers f)) ok) = Some f3 /\
      ((ws f3 = Some (List.length (sockets f)) /\
        nth_error (sockets f3) (List.length (sockets f)) = Some CONNECTING)
       \/ demoActive f3 = true).
Proof.
  intros W O C. cbv zeta.
  assert (E1 : exec disconnect f =
               set_connected false
                 (set_sockets (update_nth id CLOSING (sockets f)) f)).
  { unfold exec, disconnect, ws_close, Effects.bind, Effects.get,
      Effects.modify. cbn. rewrite W. cbn. rewrite O. reflexivity. }
  rewrite E1. cbn [connected sockets set_connected set_sockets].
  split; [reflexivity|].
  split; [exact (nth_error_update_nth id CLOSING OPEN _ O)|].
  unfold step at 1. cbn [sockets set_connected set_sockets].
  rewrite (nth_error_update_nth id CLOSING OPEN _ O).
  eexists. split; [reflexivity|].
  split; [reflexivity|].
  intro ok. unfold step.
  unfold exec at 2, onclose, setTimeout, Effects.bind, Effects.get,
    Effects.modify. cbn.
  eexists.
  rewrite (nth_error_last (timers f)), (remove_nth_last (timers f)).
  cbn [task run_task].
  split; [reflexivity|].
  unfold exec, connect, _startDemoMode, scheduleNext, setTimeout, random,
    Effects.bind, Effects.get, Effects.modify, Effects.ret. cbn.
  destruct (no_key (apiKey f)); cbn.
  - right. destruct (demoActive f) eqn:D; cbn; rewrite ?D; reflexivity.
  - destruct ok; cbn.
    + assert (L : List.length
                    (update_nth id CLOSED (update_nth id CLOSING (sockets f)))
                  = List.length (sockets f))
        by now rewrite !update_nth_length.
      left. split; [now rewrite L|].
      rewrite <- L. apply nth_error_last.
    + right. destruct (demoActive f) eqn:D; cbn; rewrite ?D; reflexivity.
Qed.

End LoopTheorems.

Section LoopWitnesses.
Import Helius Design.

Lemma disconnect_is_followed_by_connect_witness :
  let f1 := exec disconnect sample_live_feed in
  connected f1 = false /\
  nth_error (sockets f1) 1 = Some CLOSING /\
  exists f2,
    @step samplePlatform f1 (SocketClose 1) = Some f2 /\
    timers f2 =
      timers sample_live_feed ++
      [{| task := RunConnect; delay := reconnectDelay sample_live_feed |}] /\
    forall ok, exists f3,
      @step samplePlatform f2
        (TimerFires (List.length (timers sample_live_feed)) ok) = Some f3 /\
      ((ws f3 = Some (List.length (sockets sample_live_feed)) /\
        nth_error (sockets f3) (List.length (sockets sample_live_feed))
        = Some CONNECTING)
       \/ demoActive f3 = true).
Proof.
  apply (disconnect_is_followed_by_connect samplePlatform sample_live_feed 1);
    vm_compute; reflexivity.
Defined.

End LoopWitnesses.

(** ** The particle system *)

Section ParticleFacts.
Import Generative Helius ParticleSystem.
Context {P : Platform}.

Lemma floor_scale_range (r : Q) (n : Z) :
  (0 <= r /\ r < 1)%Q -> 0 < n -> 0 <= Qfloor (r * inject_Z n) < n.
Proof.
  intros [R0 R1] Hn.
  assert (Hq : (0 < inject_Z n)%Q) by (unfold Qlt; cbn; lia).
  split.
  - rewrite <- (Qfloor_Z 0). apply Qfloor_resp_le.
    apply Qmult_le_0_compat; [exact R0 | apply Qlt_le_weak, Hq].
  - rewrite Zlt_Qlt.
    apply Qle_lt_trans with (r * inject_Z n)%Q; [apply Qfloor_le | nra].
Qed.

Lemma nth_error_update_other {A} (i j : nat) (v : A) (l : list A) :
  i <> j -> nth_error (update_nth i v l) j = nth_error l j.
Proof.
  revert i j. induction l as [|a l IH]; intros [|i] [|j] H; cbn; auto;
    congruence.
Qed.

(** A step of the first loop of [update] returns, leaving the other
    particles as they were, or throws a TypeError. *)
Lemma stepParticle_result (W H t : Q) (i : nat) (s : System) :
  (exists s', stepParticle W H t i s = (Throw TypeError, s')) \/
  (exists s', stepParticle W H t i s = (Ok tt, s') /\
              forall j, j <> i ->
                nth_error (particles s') j = nth_error (particles s) j).
Proof.
  unfold stepParticle, defined, Effects.bind, Effects.get. cbn.
  destruct (nth_error (particles s) i) as [p|]; cbn; [|left; eauto].
  destruct (lookup_home (scaledNodes s) (homeNode p)) as [home|]; cbn;
    [|left; eauto].
  right.
  match goal with
  | |- context [if ?c then _ else _] => destruct c
  end; cbn; eexists; (split; [reflexivity|]);
    intros j Hj; cbn; apply nth_error_update_other; congruence.
Qed.

Lemma stepParticle_orphan (W H t : Q) (i : nat) (s : System) (p : Particle) :
  nth_error (particles s) i = Some p -> homeNode p = None ->
  exists s', stepParticle W H t i s = (Throw TypeError, s').
Proof.
  intros Hp Hh.
  unfold stepParticle, defined, Effects.bind, Effects.get. cbn.
  rewrite Hp. cbn. rewrite Hh. cbn. eauto.
Qed.

(** The loop throws when it meets a particle without a home node. *)
Lemma loop_orphan (W H t : Q) (n a k : nat) (s : System) (p : Particle) :
  (a <= k < a + n)%nat ->
  nth_error (particles s) k = Some p -> homeNode p = None ->
  exists s', for_each (seq a n) (stepParticle W H t) s = (Throw TypeError, s').
Proof.
  revert a s. induction n as [|n IH]; intros a s Hk Hp Hh; [lia|].
  cbn [seq for_each]. unfold Effects.bind.
  destruct (Nat.eq_dec a k) as [->|Hne].
  - destruct (stepParticle_orphan W H t k s p Hp Hh) as [s' E].
    rewrite E. eauto.
  - destruct (stepParticle_result W H t a s) as [[s' E]|[s' [E K]]];
      rewrite E; [eauto|].
    apply (IH (S a) s'); [lia| |exact Hh].
    rewrite K; [exact Hp | congruence].
Qed.

Lemma update_orphan (s : System) (k : nat) (p : Particle) :
  nth_error (particles s) k = Some p -> homeNode p = None ->
  fst (update s) = Throw TypeError.
Proof.
  intros Hp Hh.
  unfold update, Effects.bind, Effects.get, Effects.modify. cbn.
  assert (Hk : (0 <= k < 0 + List.length (particles s))%nat).
  { split; [lia|]. cbn. apply nth_error_Some. congruence. }
  destruct (loop_orphan (width s) (height s) (turbulence (params s))
              (List.length (particles s)) 0 k
              (set_time (time s + 0.008) s) p Hk Hp Hh) as [s' E].
  rewrite E. reflexivity.
Qed.

End ParticleFacts.

Section ParticleTheorems.
Import Generative Helius ParticleSystem.

(** C1, where the code departs from it. On a system with at least
    one node [handleLiveEvent] returns for every effect; but after a
    mint, which appends a particle without a [homeNode], the next
    [update] throws a TypeError when it reads the home node of that
    particle. *)
Theorem update_after_mint_throws (P : Platform) (s : System) (e : Effect) :
  random_in_unit P -> nodes (params s) <> [] ->
  (exists s1, handleLiveEvent e s = (Ok tt, s1)) /\
  (effect_type e = MINT ->
   exists s1,
     handleLiveEvent e s = (Ok tt, s1) /\
     List.length (particles s1) = S (List.length (particles s)) /\
     fst (update s1) = Throw TypeError).
Proof.
  intros R Hn.
  pose proof (R (randomCalls s)) as R0.
  assert (Hlen : 0 < Z.of_nat (List.length (nodes (params s)))).
  { destruct (nodes (params s)); [congruence | cbn; lia]. }
  unfold handleLiveEvent, random, defined, Effects.bind, Effects.get,
    Effects.modify, Effects.ret. cbn.
  match goal with
  | |- context [Z.ltb ?i 0] =>
      assert (F : 0 <= i < Z.of_nat (List.length (nodes (params s))))
        by exact (floor_scale_range _ _ R0 Hlen);
      destruct (Z.ltb_spec i 0) as [C|_]; [lia|];
      destruct (nth_error (nodes (params s)) (Z.to_nat i)) as [node|] eqn:En;
      [|apply nth_error_None in En; lia]
  end.
  cbn. split.
  - destruct (effect_type e); cbn; eauto.
  - intros ->. cbn. eexists. split; [reflexivity|]. split.
    + cbn. rewrite length_app. cbn. lia.
    + eapply update_orphan with (k := List.length (particles s)).
      * cbn. apply nth_error_last.
      * reflexivity.
Qed.

Lemma update_after_mint_throws_witness :
  exists s1,
    @handleLiveEvent samplePlatform sample_mint sample_system = (Ok tt, s1) /\
    List.length (particles s1) = S (List.length (particles sample_system)) /\
    fst (@update samplePlatform s1) = Throw TypeError.
Proof.
  apply (update_after_mint_throws samplePlatform sample_system sample_mint).
  - exact sample_random_in_unit.
  - vm_compute. discriminate.
  - reflexivity.
Defined.

End ParticleTheorems.

(* ================================================================= *)
(** * Further properties of the code *)

(** ** Strings and the hash *)

Section StringFacts.

Lemma starts_with_prefix (pat s : str) :
  starts_with pat s = true <-> exists post, s = pat ++ post.
Proof.
  revert s. induction pat as [|p pat IH]; intro s; cbn.
  - split; [intros _; now exists s | reflexivity].
  - destruct s as [|c s].
    + split; [discriminate | intros [post H]; discriminate].
    + rewrite andb_true_iff, Z.eqb_eq, IH. split.
      * intros [-> [post ->]]. now exists post.
      * intros [post H]. injection H as -> ->. split; [reflexivity|].
        now exists post.
Qed.

(** [s.includes(pat)] holds exactly when [pat] occurs in [s] as a
    block of consecutive code units. *)
Theorem includes_substring (s pat : str) :
  includes s pat = true <-> exists pre post, s = pre ++ pat ++ post.
Proof.
  induction s as [|c s IH]; cbn [includes].
  - rewrite orb_false_r, starts_with_prefix. split.
    + intros [post H]. now exists [], post.
    + intros (pre & post & H). destruct pre as [|a pre]; [|discriminate].
      now exists post.
  - rewrite orb_true_iff, starts_with_prefix, IH. split.
    + intros [[post H]|(pre & post & H)].
      * now exists [], post.
      * exists (c :: pre), post. cbn. now rewrite H.
    + intros (pre & post & H). destruct pre as [|a pre].
      * left. now exists post.
      * right. injection H as _ H. now exists pre, post.
Qed.

(** The comparison of two strings, as [===] and the lookup of a key
    use it, decides equality. *)
Theorem string_eqb_eq (s t : str) : JsString.eqb s t = true <-> s = t.
Proof.
  unfold JsString.eqb. rewrite andb_true_iff, Nat.eqb_eq, starts_with_prefix.
  split.
  - intros [L [post ->]]. rewrite length_app in L.
    destruct post; [now rewrite app_nil_r | cbn in L; lia].
  - intros ->. split; [reflexivity | exists []; now rewrite app_nil_r].
Qed.

(** [hashFloat] returns a multiple of 1/100000 in [0, 1): it never
    returns 1, whatever the string and the salt. *)
Theorem hashFloat_below_one (s : str) (seed : Z) :
  exists k, 0 <= k <= 99999 /\ hashFloat s seed = k # 100000 /\
            (0 <= hashFloat s seed /\ hashFloat s seed < 1)%Q.
Proof.
  exists (Z.abs (hashLoop s seed) mod 100000).
  pose proof (Z.mod_pos_bound (Z.abs (hashLoop s seed)) 100000 eq_refl) as B.
  split; [lia|]. split; [reflexivity|].
  unfold hashFloat, Qle, Qlt; cbn [Qnum Qden]. lia.
Qed.

(** For a positive [max], [hashInt] returns an integer of [0, max). *)
Theorem hashInt_below_max (s : str) (seed max : Z) :
  0 < max -> 0 <= hashInt s seed max < max.
Proof. exact (hashInt_range s seed max). Qed.

Lemma hashInt_below_max_witness :
  0 <= hashInt (lit "default_kira_seed") 1 36 < 36.
Proof. apply hashInt_below_max. lia. Defined.

(** With [max] zero or negative [hashInt] does not stay in a range of
    indices: it returns 0 or a negative number. *)
Theorem hashInt_nonpositive_max (s : str) (seed max : Z) :
  max <= 0 -> max <= hashInt s seed max <= 0.
Proof.
  intro H. rewrite hashInt_div.
  pose proof (Z.mod_pos_bound (Z.abs (hashLoop s seed)) 100000 eq_refl) as B.
  set (k := Z.abs (hashLoop s seed) mod 100000) in *.
  split.
  - apply Z.div_le_lower_bound; nia.
  - apply Z.div_le_upper_bound; nia.
Qed.

Lemma hashInt_nonpositive_max_witness :
  -3 <= hashInt (lit "default_kira_seed") 1 (-3) <= 0.
Proof. apply hashInt_nonpositive_max. lia. Defined.

End StringFacts.

(** ** The scene generator: nodes and connections *)

Section NodeFacts.
Import Generative.
Context {P : Platform}.

Lemma nth_error_mapi {A B} (f : nat -> A -> B) (l : list A) (j : nat) :
  nth_error (mapi f l) j = option_map (f j) (nth_error l j).
Proof.
  destruct (nth_error (mapi f l) j) as [b|] eqn:E.
  - destruct (mapi_nth_error f l j b E) as (a & Ha & ->). now rewrite Ha.
  - apply nth_error_None in E. rewrite mapi_length in E.
    apply nth_error_None in E. now rewrite E.
Qed.

Lemma In_mapi {A B} (f : nat -> A -> B) (l : list A) (b : B) :
  In b (mapi f l) <-> exists j a, nth_error l j = Some a /\ b = f j a.
Proof.
  split.
  - intro H. apply In_nth_error in H. destruct H as [j H].
    destruct (mapi_nth_error f l j b H) as (a & Ha & ->). eauto.
  - intros (j & a & Ha & ->). apply (nth_error_In _ j).
    now rewrite nth_error_mapi, Ha.
Qed.

Lemma insert_perm (c : Candidate) (l : list Candidate) :
  Permutation (insert c l) (c :: l).
Proof.
  induction l as [|d l IH]; cbn; [reflexivity|].
  destruct (Qle_bool (dist c) (dist d)); [reflexivity|].
  rewrite IH. apply perm_swap.
Qed.

Lemma sort_perm (l : list Candidate) : Permutation (sort l) l.
Proof.
  induction l as [|c l IH]; cbn; [reflexivity|].
  fold (sort l). rewrite insert_perm. now constructor.
Qed.

Lemma cand_le_trans (a b c : Candidate) :
  cand_le a b -> cand_le b c -> cand_le a c.
Proof.
  unfold cand_le. intros [H|[H H']] [K|[K K']].
  - left. lra.
  - left. lra.
  - left. lra.
  - right. split; [lra | lia].
Qed.

Lemma insert_sorted (c : Candidate) (l : list Candidate) :
  StronglySorted cand_le l ->
  Forall (fun d => (cj c < cj d)%nat) l ->
  StronglySorted cand_le (insert c l).
Proof.
  induction l as [|d l IH]; intros S F; cbn.
  - constructor; constructor.
  - inversion S as [|? ? S' Fd]; subst. inversion F as [|? ? Hcd F']; subst.
    destruct (Qle_bool (dist c) (dist d)) eqn:E.
    + apply Qle_bool_iff in E.
      assert (Hd : cand_le c d).
      { unfold cand_le. destruct (Qlt_le_dec (dist c) (dist d)) as [L|L];
          [now left | right; split; [lra | lia]]. }
      constructor; [exact S|]. constructor; [exact Hd|].
      eapply Forall_impl; [|exact Fd]. intros x Hx.
      exact (cand_le_trans c d x Hd Hx).
    + assert (L : (dist d < dist c)%Q).
      { apply Qnot_le_lt. intro L. apply Qle_bool_iff in L. congruence. }
      constructor; [exact (IH S' F')|].
      apply Forall_forall. intros x Hx.
      apply (Permutation_in _ (insert_perm c l)) in Hx.
      destruct Hx as [<-|Hx]; [now left|].
      rewrite Forall_forall in Fd. exact (Fd x Hx).
Qed.

Lemma sort_sorted (l : list Candidate) :
  StronglySorted lt (map cj l) -> StronglySorted cand_le (sort l).
Proof.
  induction l as [|c l IH]; cbn; intro S; [constructor|].
  fold (sort l). inversion S as [|? ? S' F]; subst.
  apply insert_sorted; [exact (IH S')|].
  apply Forall_forall. intros d Hd.
  apply (Permutation_in _ (sort_perm l)) in Hd.
  rewrite Forall_forall in F. apply F. now apply in_map.
Qed.

Lemma seq_sorted (a n : nat) : StronglySorted lt (seq a n).
Proof.
  revert a. induction n as [|n IH]; intro a; cbn; constructor; [apply IH|].
  apply Forall_forall. intros x Hx. apply in_seq in Hx. lia.
Qed.

Lemma filter_sorted {A} (R : A -> A -> Prop) (p : A -> bool) (l : list A) :
  StronglySorted R l -> StronglySorted R (filter p l).
Proof.
  induction 1 as [|a l S IH F]; cbn; [constructor|].
  destruct (p a); [|exact IH].
  constructor; [exact IH|].
  apply Forall_forall. intros x Hx. apply filter_In in Hx.
  rewrite Forall_forall in F. now apply F.
Qed.

Lemma map_filter_comm {A B} (g : A -> B) (p : B -> bool) (l : list A) :
  map g (filter (fun a => p (g a)) l) = filter p (map g l).
Proof.
  induction l as [|a l IH]; cbn; [reflexivity|].
  destruct (p (g a)); cbn; now rewrite IH.
Qed.

Lemma sorted_app_cross {A} (R : A -> A -> Prop) (l1 l2 : list A) :
  StronglySorted R (l1 ++ l2) ->
  forall a b, In a l1 -> In b l2 -> R a b.
Proof.
  induction l1 as [|x l1 IH]; cbn; intros S a b Ha Hb; [contradiction|].
  inversion S as [|? ? S' F]; subst.
  destruct Ha as [<-|Ha].
  - rewrite Forall_forall in F. apply F, in_or_app. now right.
  - exact (IH S' a b Ha Hb).
Qed.

Lemma sorted_app_left {A} (R : A -> A -> Prop) (l1 l2 : list A) :
  StronglySorted R (l1 ++ l2) -> StronglySorted R l1.
Proof.
  induction l1 as [|x l1 IH]; cbn; intro S; [constructor|].
  inversion S as [|? ? S' F]; subst. constructor; [exact (IH S')|].
  apply Forall_forall. intros y Hy. rewrite Forall_forall in F.
  apply F, in_or_app. now left.
Qed.

Lemma sorted_map {A B} (R : A -> A -> Prop) (R' : B -> B -> Prop)
      (g : A -> B) (l : list A) :
  (forall a b, In a l -> In b l -> R a b -> R' (g a) (g b)) ->
  StronglySorted R l -> StronglySorted R' (map g l).
Proof.
  intros H S. induction S as [|a l S IH F]; cbn; [constructor|].
  constructor.
  - apply IH. intros x y Hx Hy. apply H; now right.
  - apply Forall_forall. intros y Hy. apply in_map_iff in Hy.
    destruct Hy as (x & <- & Hx). rewrite Forall_forall in F.
    apply H; [now left | now right | now apply F].
Qed.

(** The candidates of node [i]: one for every other node, with its
    distance. *)
Lemma In_candidates (ns : list Node) (i : nat) (ni : Node) (c : Candidate) :
  In c (candidates ns i ni) <->
  exists n, nth_error ns (cj c) = Some n /\ cj c <> i /\
            dist c = node_distance ni n.
Proof.
  unfold candidates. split.
  - intro H. apply (Permutation_in _ (sort_perm _)) in H.
    apply filter_In in H. destruct H as [H Hne].
    apply In_mapi in H. destruct H as (j & n & Hn & ->). cbn in *.
    apply negb_true_iff, Nat.eqb_neq in Hne. eauto.
  - intros (n & Hn & Hne & Hd).
    apply (Permutation_in _ (Permutation_sym (sort_perm _))).
    apply filter_In. split.
    + apply In_mapi. exists (cj c), n. split; [exact Hn|].
      destruct c as [j d]. cbn in *. now rewrite Hd.
    + now apply negb_true_iff, Nat.eqb_neq.
Qed.

Lemma candidates_cj_sorted_input (ns : list Node) (i : nat) (ni : Node) :
  StronglySorted cand_le (candidates ns i ni) /\
  NoDup (map cj (candidates ns i ni)).
Proof.
  unfold candidates.
  set (l := filter _ _).
  assert (S : StronglySorted lt (map cj l)).
  { unfold l. rewrite (map_filter_comm cj (fun j => negb (Nat.eqb j i))).
    apply filter_sorted. rewrite mapi_cj. apply seq_sorted. }
  split; [exact (sort_sorted l S)|].
  apply (Permutation_NoDup (Permutation_map cj (Permutation_sym (sort_perm l)))).
  clear -S. induction S as [|a l' S IH F]; constructor; [|exact IH].
  intro H. rewrite Forall_forall in F. specialize (F a H). lia.
Qed.

End NodeFacts.

Section NodeTheorems.
Import Generative.

(** Every node of a generated scene has its position in [0, 1) on both
    axes, a mass in [0.3, 1) and a speed in [0.0002, 0.001); and its
    phase is the [2 * Math.PI] multiple of a number of [0, 1). *)
Theorem node_attribute_ranges (P : Platform) (seed : str) (i : nat) (n : Node) :
  nth_error (nodes (walletToParams seed)) i = Some n ->
  (0 <= node_x n /\ node_x n < 1)%Q /\
  (0 <= node_y n /\ node_y n < 1)%Q /\
  (0.3 <= mass n /\ mass n < 1)%Q /\
  (0.0002 <= speed n /\ speed n < 0.001)%Q /\
  exists t, (0 <= t /\ t < 1)%Q /\ phase n = (t * Math_PI * 2)%Q.
Proof.
  unfold walletToParams. cbn [nodes]. intro H.
  apply mapi_nth_error in H. destruct H as (ni & Hni & ->).
  cbn [connect node_x node_y mass speed phase].
  rewrite nth_error_map in Hni.
  destruct (nth_error (seq 0 _) i) as [k|]; [|discriminate].
  cbn in Hni. injection Hni as <-.
  unfold makeNode. cbn [node_x node_y mass speed phase].
  set (ai := effective_seed seed ++ of_nat k).
  destruct (hashFloat_unit ai (10 + Z.of_nat k)).
  destruct (hashFloat_unit ai (20 + Z.of_nat k)).
  destruct (hashFloat_unit ai (30 + Z.of_nat k)).
  destruct (hashFloat_unit ai (40 + Z.of_nat k)).
  destruct (hashFloat_unit ai (50 + Z.of_nat k)).
  repeat split; try lra.
  exists (hashFloat ai (50 + Z.of_nat k)). repeat split; lra.
Qed.

Lemma node_attribute_ranges_witness :
  exists n,
    nth_error (nodes (@walletToParams samplePlatform default_seed)) 0 = Some n /\
    (0 <= node_x n /\ node_x n < 1)%Q /\
    (0 <= node_y n /\ node_y n < 1)%Q /\
    (0.3 <= mass n /\ mass n < 1)%Q /\
    (0.0002 <= speed n /\ speed n < 0.001)%Q /\
    exists t, (0 <= t /\ t < 1)%Q /\
              phase n = (t * @Math_PI samplePlatform * 2)%Q.
Proof.
  eexists. split.
  - vm_compute. reflexivity.
  - apply (node_attribute_ranges samplePlatform default_seed 0%nat).
    vm_compute. reflexivity.
Defined.

(** The palette of a generated scene is never undefined: it is one of
    the four palettes of the table, the one [paletteIdx] selects. *)
Theorem palette_is_defined (P : Platform) (seed : str) :
  exists pal,
    palette (walletToParams seed) = Some pal /\ In pal palettes /\
    0 <= paletteIdx (effective_seed seed) < 4.
Proof.
  unfold walletToParams. cbn [palette].
  pose proof (hashInt_range (effective_seed seed) 2 4 eq_refl) as R.
  fold (paletteIdx (effective_seed seed)) in R.
  destruct (nth_error palettes (Z.to_nat (paletteIdx (effective_seed seed))))
    as [pal|] eqn:E.
  - exists pal. split; [reflexivity|]. split; [|exact R].
    exact (nth_error_In _ _ E).
  - apply nth_error_None in E.
    change (List.length palettes) with 4%nat in E. lia.
Qed.

(** The connections of a node are indices of other nodes of the scene,
    without repetition, listed from the nearest on, the nearer of two
    equally distant nodes being the one of smaller index; and no node
    left out comes before one that was taken. *)
Theorem connections_are_the_nearest (P : Platform) (seed : str) (i : nat) (n : Node) :
  let ns := nodes (walletToParams seed) in
  nth_error ns i = Some n ->
  Forall (fun j => (j < List.length ns)%nat /\ j <> i) (connections n) /\
  NoDup (connections n) /\
  StronglySorted (comes_before ns n) (connections n) /\
  forall j k, In j (connections n) -> (k < List.length ns)%nat -> k <> i ->
              ~ In k (connections n) -> comes_before ns n j k.
Proof.
  cbv zeta. unfold walletToParams. cbn [nodes].
  set (a := effective_seed seed).
  set (ns := map (makeNode a) (seq 0 (Z.to_nat (12 + hashInt a 1 36)))).
  intro H. apply mapi_nth_error in H. destruct H as (ni & Hni & ->).
  cbn [connect connections].
  (* the nodes of the result have the positions the first loop gave them *)
  assert (Hpos : forall j nj, nth_error ns j = Some nj ->
            exists nj', nth_error (mapi (connect a ns) ns) j = Some nj' /\
                        node_distance (connect a ns i ni) nj' =
                        node_distance ni nj).
  { intros j nj Hj. exists (connect a ns j nj).
    split; [now rewrite nth_error_mapi, Hj | reflexivity]. }
  assert (Hcb : forall c d,
            In c (candidates ns i ni) -> In d (candidates ns i ni) ->
            cand_le c d ->
            comes_before (mapi (connect a ns) ns) (connect a ns i ni)
                         (cj c) (cj d)).
  { intros c d Hc Hd L.
    apply In_candidates in Hc. destruct Hc as (nc & Hnc & _ & Dc).
    apply In_candidates in Hd. destruct Hd as (nd & Hnd & _ & Dd).
    destruct (Hpos _ _ Hnc) as (nc' & Hc' & Ec).
    destruct (Hpos _ _ Hnd) as (nd' & Hd' & Ed).
    exists nc', nd'. split; [exact Hc'|]. split; [exact Hd'|].
    rewrite Ec, Ed, <- Dc, <- Dd. exact L. }
  destruct (candidates_cj_sorted_input ns i ni) as [S ND].
  set (cs := candidates ns i ni) in *.
  set (m := Z.to_nat (connCount a i)).
  rewrite <- (firstn_skipn m cs) in S, ND.
  rewrite map_app in ND.
  split; [|split; [|split]].
  - apply Forall_forall. intros j Hj. apply in_map_iff in Hj.
    destruct Hj as (c & <- & Hc). apply In_firstn in Hc.
    apply In_candidates in Hc. destruct Hc as (nc & Hnc & Hne & _).
    split; [|exact Hne]. rewrite mapi_length.
    apply nth_error_Some. congruence.
  - exact (NoDup_app_remove_r _ _ ND).
  - apply sorted_app_left in S.
    apply (sorted_map cand_le _ cj (firstn m cs)); [|exact S].
    intros c d Hc Hd. apply Hcb; now apply In_firstn in Hc, Hd.
  - intros j k Hj Hk Hne Hnot. rewrite mapi_length in Hk.
    apply in_map_iff in Hj. destruct Hj as (c & <- & Hc).
    destruct (nth_error ns k) as [nk|] eqn:Enk;
      [|apply nth_error_None in Enk; lia].
    set (d := {| cj := k; dist := node_distance ni nk |}).
    assert (Hd : In d cs).
    { apply In_candidates. exists nk. cbn. auto. }
    rewrite <- (firstn_skipn m cs) in Hd. apply in_app_or in Hd.
    destruct Hd as [Hd|Hd].
    + exfalso. apply Hnot. apply in_map_iff. now exists d.
    + change k with (cj d). apply Hcb.
      * now apply In_firstn in Hc.
      * rewrite <- (firstn_skipn m cs). apply in_or_app. now right.
      * exact (sorted_app_cross cand_le _ _ S c d Hc Hd).
Qed.

Lemma connections_are_the_nearest_witness :
  exists n,
    let ns := nodes (@walletToParams samplePlatform default_seed) in
    nth_error ns 1 = Some n /\
    Forall (fun j => (j < List.length ns)%nat /\ j <> 1%nat) (connections n) /\
    NoDup (connections n) /\
    StronglySorted (@comes_before samplePlatform ns n) (connections n) /\
    forall j k, In j (connections n) -> (k < List.length ns)%nat -> k <> 1%nat ->
                ~ In k (connections n) -> @comes_before samplePlatform ns n j k.
Proof.
  eexists. cbv zeta. split.
  - vm_compute. reflexivity.
  - apply (connections_are_the_nearest samplePlatform default_seed 1%nat).
    vm_compute. reflexivity.
Defined.

End NodeTheorems.

(** ** Messages of the live feed *)

Section MessageFacts.
Import Helius Design.
Context {P : Platform}.

Lemma bind_run {S A B} (m : Eff S A) (k : A -> Eff S B) (s s' : S)
      (r : Result A) :
  m s = (r, s') ->
  Effects.bind m k s =
  match r with Ok a => k a s' | Throw e => (Throw e, s') end.
Proof. intro E. unfold Effects.bind. rewrite E. now destruct r. Qed.

(** The classifier touches nothing but the count of random draws. *)
Lemma classify_draws_only (logs : json) (f : Feed) :
  exists k, (randomCalls f < k)%nat /\
            snd (classify logs f) = set_randomCalls k f.
Proof.
  unfold classify, random, Effects.bind, Effects.lift, Effects.ret. cbn.
  destruct (some_of logs isTransfer) as [[|]|]; cbn;
    [destruct (some_of logs isLarge) as [[|]|]; cbn| |];
    try (eexists; split; [|reflexivity]; lia);
    (destruct (some_of logs isSwap) as [[|]|]; cbn;
     try (eexists; split; [|reflexivity]; lia));
    (destruct (some_of logs isMint) as [[|]|]; cbn;
     try (eexists; split; [|reflexivity]; lia));
    (destruct (some_of logs isBurn) as [[|]|]; cbn;
     try (eexists; split; [|reflexivity]; cbn; lia)).
Qed.


Lemma classify_on_lines (lines : list str) (f : Feed) :
  random_in_unit P ->
  exists m f',
    classify (lines_json lines) f = (Ok (classify_by_priority lines, m), f') /\
    magnitude_band (classify_by_priority lines) m.
Proof.
  intro R.
  unfold classify, classify_by_priority.
  rewrite some_isTransfer, some_isLarge, some_isSwap, some_isMint,
    some_isBurn.
  destruct (R (randomCalls f)) as [R0 R0'].
  destruct (R (S (randomCalls f))) as [R1 R1'].
  destruct (R (S (S (randomCalls f)))) as [R2 R2'].
  destruct (transfer_line lines), (large_amount_line lines),
    (swap_line lines), (mint_line lines), (burn_line lines);
    cbn; eexists; eexists; (split; [reflexivity|]);
    live_magnitude.
Qed.


End MessageFacts.

Section MessageTheorems.
Import Helius Design.



(** A message whose [params.result.value] carries log lines that are
    strings and a signature that is a string is counted and handed to
    the consumer once: the event has the type of the last matching rule,
    a magnitude in the band of that type and the first 8 code units of
    the signature; the time of the last event is the next reading of
    the clock and the timestamp of the event the reading after it.
    Missing logs count as no lines and a missing signature as the empty
    string. *)
Theorem well_formed_message_is_delivered (P : Platform) (data v : json)
        (lines : list str) (sg : str) (f : Feed) :
  random_in_unit P ->
  message_value data = Some v -> truthy (Some v) = true ->
  or_else (prop v (lit "logs")) (JArr []) = lines_json lines ->
  or_else (prop v (lit "signature")) (JStr []) = JStr sg ->
  let f' := exec (onmessage (Some data)) f in
  exists m,
    delivered f' =
      {| type := classify_by_priority lines; magnitude := m;
         sig := JStr (firstn 8 sg);
         timestamp := Date_now (S (clockCalls f)) |} :: delivered f /\
    magnitude_band (classify_by_priority lines) m /\
    eventCount f' = eventCount f + 1 /\
    lastEventMs f' = Date_now (clockCalls f).
Proof.
  intros R Hv Ht Hl Hs. cbv zeta.
  unfold exec, onmessage, Effects.try_catch. cbn [snd].
  unfold _handleMessage. fold (message_value data). rewrite Hv, Ht, Hl, Hs.
  cbn [negb].
  destruct (classify_on_lines lines f R) as (m & f1 & E & B).
  destruct (classify_draws_only (lines_json lines) f) as (k & _ & Hk).
  rewrite E in Hk. cbn in Hk. subst f1.
  rewrite (bind_run _ _ _ _ _ E).
  exists m. cbn. auto.
Qed.

Lemma well_formed_message_is_delivered_witness :
  let f := sample_live_feed in
  let f' := exec (@onmessage samplePlatform (Some sample_message)) f in
  exists m,
    delivered f' =
      {| type := WHALE; magnitude := m;
         sig := JStr (lit "5VERv8NM");
         timestamp := sample_clock (S (clockCalls f)) |} :: delivered f /\
    (num 0.8 <= m /\ m <= 1)%Q /\
    eventCount f' = eventCount f + 1 /\
    lastEventMs f' = sample_clock (clockCalls f).
Proof.
  apply (well_formed_message_is_delivered samplePlatform sample_message
           sample_value
           [lit "Program log: Instruction: Transfer";
            lit "Program log: amount 1000000000"]
           (lit "5VERv8NMvzbJMEkV8xnrLkEaWRtSz9CosKDYjCJjBRnb")).
  - exact sample_random_in_unit.
  - vm_compute. reflexivity.
  - vm_compute. reflexivity.
  - vm_compute. reflexivity.
  - vm_compute. reflexivity.
Defined.



(** A message whose [logs] is present without being an array (a
    string, a number, an object) is dropped: nothing is counted and
    nothing reaches the consumer. *)
Theorem non_array_logs_are_dropped (P : Platform) (data v l : json) (f : Feed) :
  message_value data = Some v -> truthy (Some v) = true ->
  prop v (lit "logs") = Some l -> truthy (Some l) = true ->
  match l with JArr _ => False | _ => True end ->
  let f' := exec (onmessage (Some data)) f in
  onmessage (Some data) f = (Ok tt, f') /\
  delivered f' = delivered f /\
  eventCount f' = eventCount f /\
  lastEventMs f' = lastEventMs f.
Proof.
  intros Hv Ht Hl Hlt Hk. cbv zeta.
  unfold exec, onmessage, Effects.try_catch. cbn [snd].
  split; [reflexivity|].
  unfold _handleMessage. fold (message_value data). rewrite Hv, Ht, Hl.
  cbn [negb].
  unfold classify, random, Effects.bind, Effects.lift.
  destruct l as [|b|q|s|items|fields]; try contradiction;
    cbn in Hlt; try discriminate Hlt;
    unfold or_else; cbn [truthy]; rewrite ?Hlt; cbn; auto.
Qed.

Lemma non_array_logs_are_dropped_witness :
  let f := sample_live_feed in
  let data :=
    JObj [(lit "params",
           JObj [(lit "result",
                  JObj [(lit "value",
                         JObj [(lit "logs", JStr (lit "Instruction: Burn"))])])])] in
  let f' := exec (@onmessage samplePlatform (Some data)) f in
  @onmessage samplePlatform (Some data) f = (Ok tt, f') /\
  delivered f' = delivered f /\
  eventCount f' = eventCount f /\
  lastEventMs f' = lastEventMs f.
Proof.
  cbv zeta.
  apply (non_array_logs_are_dropped samplePlatform _
           (JObj [(lit "logs", JStr (lit "Instruction: Burn"))])
           (JStr (lit "Instruction: Burn")));
    vm_compute; auto.
Defined.

(** A log line that is not a string makes the message be dropped when
    the classifier reaches it: a number among the lines, with no line
    before it naming a transfer, is enough. *)
Theorem non_string_line_is_dropped (P : Platform) (data v : json)
        (before : list str) (q : Q) (rest : list json) (f : Feed) :
  message_value data = Some v -> truthy (Some v) = true ->
  prop v (lit "logs") = Some (JArr (map JStr before ++ JNum q :: rest)) ->
  transfer_line before = false ->
  let f' := exec (onmessage (Some data)) f in
  delivered f' = delivered f /\
  eventCount f' = eventCount f /\
  lastEventMs f' = lastEventMs f.
Proof.
  intros Hv Ht Hl Hb. cbv zeta.
  unfold exec, onmessage, Effects.try_catch. cbn [snd].
  unfold _handleMessage. fold (message_value data). rewrite Hv, Ht, Hl.
  cbn [negb or_else truthy].
  assert (E : some_of (JArr (map JStr before ++ JNum q :: rest)) isTransfer
              = Throw TypeError).
  { unfold some_of. clear -Hb. unfold transfer_line, any_line in Hb.
    induction before as [|l before IH]; cbn in *; [reflexivity|].
    rewrite orb_false_r in Hb. apply orb_false_iff in Hb. destruct Hb as [H1 H2].
    unfold isTransfer at 1. cbn. rewrite H1. exact (IH H2). }
  unfold classify, random, Effects.bind, Effects.lift.
  rewrite E. cbn. auto.
Qed.

Lemma non_string_line_is_dropped_witness :
  let f := sample_live_feed in
  let data :=
    JObj [(lit "params",
           JObj [(lit "result",
                  JObj [(lit "value",
                         JObj [(lit "logs",
                                JArr [JStr (lit "Program log: hello"); JNum 3;
                                      JStr (lit "Instruction: Burn")])])])])] in
  let f' := exec (@onmessage samplePlatform (Some data)) f in
  delivered f' = delivered f /\
  eventCount f' = eventCount f /\
  lastEventMs f' = lastEventMs f.
Proof.
  cbv zeta.
  apply (non_string_line_is_dropped samplePlatform _
           (JObj [(lit "logs",
                   JArr [JStr (lit "Program log: hello"); JNum 3;
                         JStr (lit "Instruction: Burn")])])
           [lit "Program log: hello"] 3 [JStr (lit "Instruction: Burn")]);
    vm_compute; reflexivity.
Defined.

End MessageTheorems.

(** ** The simulated feed and the counters *)

Section DemoFacts.
Import Helius Design.
Context {P : Platform}.

Lemma demoPick_draws_only (rand : Q) (f : Feed) :
  exists k tm, demoPick rand f = (Ok tm, set_randomCalls k f).
Proof.
  unfold demoPick, random, Effects.bind, Effects.ret.
  destruct (Qltb rand (num 0.005)); [cbn; eauto|].
  destruct (Qltb rand (num 0.025)); [cbn; eauto|].
  destruct (Qltb rand (num 0.04));
    [exists (randomCalls f); destruct f; cbn; eauto|].
  destruct (Qltb rand (num 0.05));
    [exists (randomCalls f); destruct f; cbn; eauto|].
  cbn; eauto.
Qed.

Lemma demoPick_bands (rand : Q) (f f' : Feed) (t : EventType) (m : Q) :
  random_in_unit P ->
  demoPick rand f = (Ok (t, m), f') -> demo_band t m.
Proof.
  intro R. destruct (R (randomCalls f)) as [R0 R0'].
  unfold demoPick, random, Effects.bind, Effects.ret.
  destruct (Qltb rand (num 0.005));
    [cbn; intro H; injection H as <- <- _;
     apply demo_whale_magnitude; assumption|].
  destruct (Qltb rand (num 0.025));
    [cbn; intro H; injection H as <- <- _;
     apply demo_mev_magnitude; assumption|].
  destruct (Qltb rand (num 0.04));
    [cbn; intro H; injection H as <- <- _; exact (proj1 literal_values)|].
  destruct (Qltb rand (num 0.05));
    [cbn; intro H; injection H as <- <- _; apply Qeq_refl|].
  cbn; intro H; injection H as <- <- _.
  apply demo_tx_magnitude; assumption.
Qed.


(** What the callback of the simulated loop does when the loop goes
    on. *)
Lemma demoTick_running (f : Feed) :
  connected f = false -> demoActive f = true ->
  exists e k,
    exec demoTick f =
    set_timers
      (timers f ++
       [{| task := RunDemoTick;
           delay := fadd (num 80) (fmul (Math_random k) (num 120)) |}])
      (set_randomCalls (S k)
         (set_delivered (e :: delivered f)
            (set_clockCalls (S (S (clockCalls f)))
               (set_lastEventMs (Date_now (clockCalls f))
                  (set_eventCount (eventCount f + 1) f))))) /\
    timestamp e = Date_now (S (clockCalls f)) /\
    sig e = JStr (lit "demo") /\
    (random_in_unit P -> demo_band (type e) (magnitude e)).
Proof.
  intros C D.
  unfold exec, demoTick.
  unfold Effects.bind at 1, Effects.get at 1. cbn [fst snd].
  unfold Effects.bind at 1, Effects.get at 1. cbn [fst snd].
  rewrite C, D. cbn [negb andb].
  unfold Effects.bind at 1, random at 1.
  set (f0 := set_randomCalls (S (randomCalls f)) f).
  destruct (demoPick_draws_only (Math_random (randomCalls f)) f0)
    as (k & [t m] & E).
  rewrite (bind_run _ _ _ _ _ E).
  exists {| type := t; magnitude := m; sig := JStr (lit "demo");
            timestamp := Date_now (S (clockCalls f)) |}, k.
  split; [|split; [reflexivity|split; [reflexivity|]]].
  - unfold Effects.bind, Effects.modify, dateNow, Effects.get, onEvent,
      scheduleNext, random, setTimeout. cbn. reflexivity.
  - intro R. cbn [type magnitude].
    exact (demoPick_bands _ _ _ t m R E).
Qed.

(** And when it does not. *)
Lemma demoTick_stopping (f : Feed) :
  negb (connected f) && demoActive f = false ->
  exec demoTick f = if connected f then set_demoActive false f else f.
Proof.
  intro H. unfold exec, demoTick, Effects.bind, Effects.get. cbn.
  rewrite H. destruct (connected f); reflexivity.
Qed.

End DemoFacts.

Section CounterFacts.
Import Helius Design.
Context {P : Platform}.

Ltac eff :=
  unfold exec, run_task, onopen, onclose, onerror, disconnect, connect,
    demoTick, _startDemoMode, scheduleNext, ws_send, ws_close, demoPick,
    setTimeout, onEvent, dateNow, random,
    Effects.bind, Effects.ret, Effects.get, Effects.modify, Effects.lift,
    Effects.throw in *.




End CounterFacts.

Section BookkeepingTheorems.
Import Helius Design.


Lemma sample_busy_feed_reachable :
  @reachable samplePlatform sample_key sample_busy_feed.
Proof.
  apply (run_reachable sample_key busy_script (constructor sample_key)).
  - apply reach_new.
  - vm_compute. reflexivity.
Qed.





End BookkeepingTheorems.

(** ** Sockets and timers of a reachable feed *)

Section SocketFacts.
Import Helius Design.
Context {P : Platform}.

Ltac eff :=
  unfold exec, run_task, onopen, onclose, onerror, disconnect, connect,
    demoTick, _startDemoMode, scheduleNext, ws_send, ws_close, demoPick,
    setTimeout, onEvent, dateNow, random,
    Effects.bind, Effects.ret, Effects.get, Effects.modify, Effects.lift,
    Effects.throw in *.

Lemma live_after_update (id : nat) (s : ReadyState) (ss : list ReadyState) :
  match s with OPEN | CLOSING => True | _ => False end ->
  has_live_socket ss = true \/ (id < List.length ss)%nat ->
  has_live_socket (update_nth id s ss) = true.
Proof.
  intros Hs. revert id.
  induction ss as [|x ss IH]; intros [|id] H; cbn in *.
  - destruct H; [discriminate | lia].
  - destruct H; [discriminate | lia].
  - destruct s; try contradiction; reflexivity.
  - destruct x; cbn in *; auto; apply IH;
      (destruct H as [H|H]; [now left | right; lia]).
Qed.

Lemma live_after_push (ss : list ReadyState) (s : ReadyState) :
  has_live_socket ss = true -> has_live_socket (ss ++ [s]) = true.
Proof.
  intro H. unfold has_live_socket. rewrite existsb_app.
  unfold has_live_socket in H. now rewrite H.
Qed.

Lemma newest_same_length (ss ss' : list ReadyState) :
  List.length ss' = List.length ss -> newest_socket ss' = newest_socket ss.
Proof.
  destruct ss, ss'; cbn; intro H; try discriminate; [reflexivity|].
  injection H as ->. reflexivity.
Qed.

Lemma newest_after_push (ss : list ReadyState) (s : ReadyState) :
  newest_socket (ss ++ [s]) = Some (List.length ss).
Proof.
  destruct ss; cbn; [reflexivity|]. rewrite length_app. cbn.
  f_equal. lia.
Qed.

Lemma sockets_ok_frame (f g : Feed) :
  ws g = ws f -> sockets g = sockets f -> connected g = connected f ->
  sockets_ok f -> sockets_ok g.
Proof. unfold sockets_ok. intros -> -> ->. auto. Qed.

Lemma startDemo_frame (f : Feed) :
  ws (exec _startDemoMode f) = ws f /\
  sockets (exec _startDemoMode f) = sockets f /\
  connected (exec _startDemoMode f) = connected f.
Proof. eff. destruct (demoActive f); cbn; auto. Qed.

Lemma onopen_frame (g : Feed) :
  ws (exec onopen g) = ws g /\
  sockets (exec onopen g) = sockets g /\
  connected (exec onopen g) = true.
Proof.
  eff. cbn. destruct (ws g) as [i|] eqn:W; cbn; rewrite ?W; auto.
  destruct (nth_error (sockets g) i) as [[]|] eqn:E; cbn; rewrite ?E; cbn;
    rewrite ?W; auto.
Qed.

Lemma sockets_ok_connect (ok : bool) (f : Feed) :
  sockets_ok f -> sockets_ok (exec (connect ok) f).
Proof.
  intro H.
  unfold exec, connect. unfold Effects.bind at 1, Effects.get at 1. cbn [fst snd].
  destruct (no_key (apiKey f)).
  - destruct (startDemo_frame f) as (A & B & C).
    exact (sockets_ok_frame f _ A B C H).
  - destruct ok.
    + destruct H as [_ L].
      unfold sockets_ok, Effects.bind, Effects.get, Effects.modify. cbn.
      split; [now rewrite newest_after_push|].
      intro C. apply live_after_push. exact (L C).
    + destruct (startDemo_frame f) as (A & B & C).
      exact (sockets_ok_frame f _ A B C H).
Qed.

Lemma ws_close_effect (id : nat) (f : Feed) :
  exists ss,
    ws_close id f = (Ok tt, set_sockets ss f) /\
    List.length ss = List.length (sockets f) /\
    (has_live_socket (sockets f) = true -> has_live_socket ss = true) /\
    (nth_error (sockets f) id = Some OPEN -> nth_error ss id = Some CLOSING).
Proof.
  unfold ws_close, Effects.bind, Effects.get, Effects.modify, Effects.ret. cbn.
  assert (Hl : forall s a, nth_error (sockets f) id = Some a ->
            match s with OPEN | CLOSING => True | _ => False end ->
            has_live_socket (sockets f) = true ->
            has_live_socket (update_nth id s (sockets f)) = true).
  { intros s a Ha Hs L. apply live_after_update; auto. }
  destruct (nth_error (sockets f) id) as [[]|] eqn:E;
    try (exists (sockets f); destruct f; cbn in *;
         repeat split; auto; discriminate).
  - exists (update_nth id CLOSING (sockets f)).
    split; [reflexivity|]. split; [apply update_nth_length|].
    split; [intro L; eapply Hl; eauto; exact I | discriminate].
  - exists (update_nth id CLOSING (sockets f)).
    split; [reflexivity|]. split; [apply update_nth_length|].
    split; [intro L; eapply Hl; eauto; exact I|].
    intros _. exact (nth_error_update_nth id CLOSING OPEN _ E).
Qed.

Lemma bind_get {S A B} (field : S -> A) (k : A -> Eff S B) (s : S) :
  Effects.bind (Effects.get field) k s = k (field s) s.
Proof. reflexivity. Qed.

Lemma disconnect_effect (g : Feed) :
  exists ss,
    exec disconnect g = set_connected false (set_sockets ss g) /\
    List.length ss = List.length (sockets g) /\
    (forall id, ws g = Some id -> nth_error (sockets g) id = Some OPEN ->
                nth_error ss id = Some CLOSING).
Proof.
  unfold exec, disconnect. rewrite bind_get.
  destruct (ws g) as [i|] eqn:W.
  - destruct (ws_close_effect i g) as (ss & E & Len & _ & Cl).
    rewrite (bind_run _ _ _ _ _ E). exists ss.
    split; [reflexivity|]. split; [exact Len|].
    intros id H. injection H as <-. exact Cl.
  - exists (sockets g). split; [destruct g; reflexivity|].
    split; [reflexivity | discriminate].
Qed.

Lemma onerror_effect (g : Feed) :
  ws g <> None ->
  exists ss,
    List.length ss = List.length (sockets g) /\
    (has_live_socket (sockets g) = true -> has_live_socket ss = true) /\
    onerror g =
      (Ok tt,
       if demoActive g then set_sockets ss g
       else exec _startDemoMode (set_sockets ss g)).
Proof.
  intro W. unfold onerror. rewrite bind_get.
  destruct (ws g) as [i|]; [|congruence].
  destruct (ws_close_effect i g) as (ss & E & Len & Lv & _).
  rewrite (bind_run _ _ _ _ _ E). rewrite bind_get.
  exists ss. split; [exact Len|]. split; [exact Lv|].
  cbn [demoActive set_sockets].
  destruct (demoActive g) eqn:D; cbn [negb]; [reflexivity|].
  unfold exec, _startDemoMode. rewrite bind_get. cbn [demoActive set_sockets].
  rewrite D. reflexivity.
Qed.

Lemma sockets_ok_step (f f' : Feed) (a : Action) :
  step f a = Some f' -> sockets_ok f -> sockets_ok f'.
Proof.
  intros S H. unfold step in S.
  destruct a as [ok| |id|id payload|id|id|n ok|].
  - injection S as <-. now apply sockets_ok_connect.
  - injection S as <-. destruct H as [W L].
    destruct (disconnect_effect f) as (ss & E & Len & _). rewrite E.
    unfold sockets_ok. cbn. rewrite (newest_same_length _ _ Len).
    split; [exact W | discriminate].
  - destruct (nth_error (sockets f) id) as [[]|] eqn:E; try discriminate.
    injection S as <-. destruct H as [W L].
    assert (Hid : (id < List.length (sockets f))%nat)
      by (apply nth_error_Some; congruence).
    assert (K : sockets_ok
                  (set_connected true
                     (set_sockets (update_nth id OPEN (sockets f)) f))).
    { unfold sockets_ok. cbn.
      rewrite (newest_same_length _ _ (update_nth_length id OPEN (sockets f))).
      split; [exact W|].
      intros _. apply live_after_update; [exact I | now right]. }
    destruct (onopen_frame (set_sockets (update_nth id OPEN (sockets f)) f))
      as (A & B & C).
    eapply sockets_ok_frame; [| | |exact K]; cbn; assumption.
  - destruct (nth_error (sockets f) id) as [[]|]; try discriminate.
    injection S as <-.
    pose proof (onmessage_control payload f) as C. unfold control in C.
    injection C as _ Cw Cc _ _ Cs _ _.
    exact (sockets_ok_frame f _ Cw Cs Cc H).
  - assert (K : sockets_ok (exec onerror f)).
    { destruct H as [W L].
      destruct (ws f) as [i|] eqn:Ew.
      - destruct (onerror_effect f) as (ss & Len & Lv & E); [congruence|].
        unfold exec. rewrite E. cbn [snd].
        set (g := set_sockets ss f).
        assert (Kg : sockets_ok g).
        { unfold sockets_ok, g. cbn. rewrite (newest_same_length _ _ Len).
          split; [congruence|].
          intro C. exact (Lv (L C)). }
        destruct (demoActive f); [exact Kg|].
        destruct (startDemo_frame g) as (A & B & C).
        exact (sockets_ok_frame g _ A B C Kg).
      - unfold exec, onerror. rewrite bind_get, Ew.
        unfold sockets_ok. cbn. split; [congruence | exact L]. }
    destruct (nth_error (sockets f) id) as [[]|]; try discriminate;
      injection S as <-; exact K.
  - assert (K : forall ss, List.length ss = List.length (sockets f) ->
                sockets_ok (exec onclose (set_sockets ss f))).
    { intros ss Len. destruct H as [W _].
      unfold sockets_ok. eff. cbn. rewrite (newest_same_length _ _ Len).
      split; [exact W | discriminate]. }
    destruct (nth_error (sockets f) id) as [[]|]; try discriminate;
      injection S as <-; apply K, update_nth_length.
  - destruct (nth_error (timers f) n) as [t|]; [|discriminate].
    injection S as <-.
    set (f0 := set_timers (remove_nth n (timers f)) f).
    assert (K0 : sockets_ok f0) by exact H.
    destruct (task t); cbn [run_task].
    + now apply sockets_ok_connect.
    + destruct (negb (connected f0) && demoActive f0) eqn:B.
      * apply andb_true_iff in B. destruct B as [C D].
        apply negb_true_iff in C.
        destruct (demoTick_running f0 C D) as (e & k & E & _).
        rewrite E. exact K0.
      * rewrite (demoTick_stopping f0 B).
        destruct (connected f0); exact K0.
  - injection S as <-. exact H.
Qed.

Lemma reachable_sockets_ok (key : option str) (f : Feed) :
  reachable key f -> sockets_ok f.
Proof.
  induction 1 as [|f a f' _ IH S].
  - split; [reflexivity | discriminate].
  - exact (sockets_ok_step f f' a S IH).
Qed.

End SocketFacts.

Section TimerFacts.
Import Helius Design.
Context {P : Platform}.





End TimerFacts.

Section SocketTheorems.
Import Helius Design.

(** In every reachable state [ws] is the socket created last (and
    null only while no socket was created), so the error handler of a
    socket always finds a socket to close and returns; and [connected]
    is set only while some socket is open or closing. *)
Theorem sockets_of_reachable_feed (P : Platform) (key : option str) (f : Feed) :
  reachable key f ->
  ws f = newest_socket (sockets f) /\
  (connected f = true -> has_live_socket (sockets f) = true) /\
  (sockets f <> [] -> fst (onerror f) = Ok tt).
Proof.
  intro H. destruct (reachable_sockets_ok key f H) as [W L].
  split; [exact W|]. split; [exact L|].
  intro Hs.
  destruct (onerror_effect f) as (ss & _ & _ & E).
  - rewrite W. destruct (sockets f); [congruence | discriminate].
  - now rewrite E.
Qed.

Lemma sockets_of_reachable_feed_witness :
  ws sample_busy_feed = newest_socket (sockets sample_busy_feed) /\
  (connected sample_busy_feed = true ->
   has_live_socket (sockets sample_busy_feed) = true) /\
  (sockets sample_busy_feed <> [] ->
   fst (@onerror samplePlatform sample_busy_feed) = Ok tt).
Proof.
  exact (sockets_of_reachable_feed samplePlatform sample_key sample_busy_feed
           sample_busy_feed_reachable).
Defined.

(** When the current socket opens, the feed is marked connected and
    one subscription request is sent on that socket. *)
Theorem open_subscribes (P : Platform) (f : Feed) (id : nat) :
  ws f = Some id -> nth_error (sockets f) id = Some CONNECTING ->
  exists f',
    step f (SocketOpen id) = Some f' /\
    connected f' = true /\ sent f' = id :: sent f /\
    nth_error (sockets f') id = Some OPEN /\
    counters f' = counters f /\ timers f' = timers f.
Proof.
  intros W E. unfold step. rewrite E. eexists. split; [reflexivity|].
  unfold exec, onopen, ws_send, Effects.bind, Effects.modify, Effects.get.
  cbn. rewrite W. cbn.
  rewrite (nth_error_update_nth id OPEN CONNECTING _ E). cbn.
  repeat split. exact (nth_error_update_nth id OPEN CONNECTING _ E).
Qed.

Lemma open_subscribes_witness :
  exists f',
    @step samplePlatform (exec (@connect samplePlatform true) (constructor sample_key))
      (SocketOpen 0) = Some f' /\
    connected f' = true /\ sent f' = [0%nat] /\
    nth_error (sockets f') 0 = Some OPEN /\
    counters f' = counters (constructor sample_key) /\ timers f' = [].
Proof.
  apply (open_subscribes samplePlatform
           (exec (@connect samplePlatform true) (constructor sample_key)) 0);
    vm_compute; reflexivity.
Defined.

(** When a socket opens that is not the current one while the current
    one is still connecting, the feed is marked connected although no
    subscription request is sent: sending on the connecting socket
    throws. *)
Theorem stale_open_sends_nothing (P : Platform) (f : Feed) (id w : nat) :
  ws f = Some w -> id <> w ->
  nth_error (sockets f) id = Some CONNECTING ->
  nth_error (sockets f) w = Some CONNECTING ->
  exists f',
    step f (SocketOpen id) = Some f' /\
    connected f' = true /\ sent f' = sent f /\
    fst (onopen (set_sockets (update_nth id OPEN (sockets f)) f))
    = Throw InvalidStateError.
Proof.
  intros W Hne E Ew. unfold step. rewrite E. eexists. split; [reflexivity|].
  assert (Ew' : nth_error (update_nth id OPEN (sockets f)) w = Some CONNECTING).
  { clear -Hne Ew. revert id w Hne Ew.
    induction (sockets f) as [|x l IH]; intros [|id] [|w] Hne H; cbn in *;
      try discriminate; try congruence; auto. }
  unfold exec, onopen, ws_send, Effects.bind, Effects.modify, Effects.get,
    Effects.throw.
  cbn. rewrite W. cbn. rewrite Ew'. cbn. auto.
Qed.

Lemma stale_open_sends_nothing_witness :
  exists f',
    @step samplePlatform two_sockets_feed (SocketOpen 0) = Some f' /\
    connected f' = true /\ sent f' = sent two_sockets_feed /\
    fst (onopen (set_sockets (update_nth 0 OPEN (sockets two_sockets_feed))
                   two_sockets_feed))
    = Throw InvalidStateError.
Proof.
  apply (stale_open_sends_nothing samplePlatform two_sockets_feed 0 1);
    vm_compute; congruence.
Defined.



(** The reconnect delay never decreases: it grows at a close and is
    kept by everything else. *)
Theorem reconnect_delay_never_decreases (P : Platform) (key : option str)
        (f f' : Feed) (a : Action) :
  reachable key f -> step f a = Some f' ->
  (reconnectDelay f <= reconnectDelay f')%Q.
Proof.
  intros H S.
  destruct (reachable_invariant key f H) as [_ [L U]].
  pose proof (step_delay f f' a S) as D.
  destruct a; try (rewrite D; apply Qle_refl).
  destruct D as (D & _). rewrite D.
  apply Q.min_glb; lra.
Qed.

Lemma reconnect_delay_never_decreases_witness :
  exists f',
    @step samplePlatform sample_live_feed (SocketClose 1) = Some f' /\
    (reconnectDelay sample_live_feed <= reconnectDelay f')%Q.
Proof.
  eexists. split; [vm_compute; reflexivity|].
  apply (reconnect_delay_never_decreases samplePlatform sample_key
           sample_live_feed _ (SocketClose 1) sample_live_feed_reachable).
  vm_compute. reflexivity.
Defined.

End SocketTheorems.

Section KeylessFacts.
Import Helius Design.
Context {P : Platform}.

Lemma startDemo_effect (g : Feed) :
  exists k ts,
    exec _startDemoMode g =
    set_timers ts (set_randomCalls k (set_demoActive true g)).
Proof.
  unfold exec, _startDemoMode. rewrite bind_get.
  destruct (demoActive g) eqn:D.
  - exists (randomCalls g), (timers g). destruct g; cbn in *. now subst.
  - unfold Effects.bind, Effects.modify, scheduleNext, random, setTimeout.
    cbn. eauto.
Qed.

Lemma simulated_only_step (key : option str) (f f' : Feed) (a : Action) :
  no_key key = true ->
  step f a = Some f' -> simulated_only key f -> simulated_only key f'.
Proof.
  intros Hk S (K & Ss & W & C & St & F & N).
  assert (Conn : forall ok g, simulated_only key g ->
                   simulated_only key (exec (connect ok) g)).
  { intros ok g (K' & Ss' & W' & C' & St' & F' & N').
    unfold exec, connect. rewrite bind_get, K', Hk.
    destruct (startDemo_effect g) as (k & ts & E).
    unfold exec in E. rewrite E. unfold simulated_only. cbn. auto 10. }
  unfold step in S.
  destruct a as [ok| |id|id payload|id|id|n ok|];
    try (rewrite Ss in S; destruct id; discriminate).
  - injection S as <-. apply Conn. unfold simulated_only. auto 10.
  - injection S as <-.
    destruct (disconnect_effect f) as (ss & E & Len & _). rewrite E.
    rewrite Ss in Len. destruct ss; [|discriminate].
    unfold simulated_only. cbn. auto 10.
  - destruct (nth_error (timers f) n) as [t|]; [|discriminate].
    injection S as <-.
    set (f0 := set_timers (remove_nth n (timers f)) f).
    assert (K0 : simulated_only key f0) by (unfold simulated_only; cbn; auto 10).
    destruct (task t); cbn [run_task]; [now apply Conn|].
    destruct (negb (connected f0) && demoActive f0) eqn:B.
    + apply andb_true_iff in B. destruct B as [Cn D].
      apply negb_true_iff in Cn.
      destruct (demoTick_running f0 Cn D) as (e & k & E & _ & Sg & _).
      rewrite E. unfold simulated_only. cbn.
      repeat split; auto. rewrite N. lia.
    + rewrite (demoTick_stopping f0 B). change (connected f0) with (connected f).
      rewrite C. exact K0.
  - injection S as <-.
    unfold simulated_only. cbn. auto 10.
Qed.

End KeylessFacts.

Section KeylessTheorems.
Import Helius Design.

(** A feed built without a key, or with the key 'demo', never creates
    a socket, is never connected and sends nothing, whatever is called
    on it; each of its events comes from the simulated loop, carries the
    signature 'demo' and is both counted and handed to the consumer; and
    [connect] leaves the simulated loop running with one callback
    pending. *)
Theorem keyless_feed_only_simulates (P : Platform) (key : option str) (f : Feed) :
  no_key key = true -> reachable key f ->
  simulated_only key f /\
  forall ok f', step f (CallConnect ok) = Some f' ->
    demoActive f' = true /\ pending_demo_ticks f' = 1%nat /\
    sockets f' = [].
Proof.
  intros Hk H.
  assert (K : forall g, reachable key g -> simulated_only key g).
  { intros g Hg. induction Hg as [|g a g' _ IH S].
    - unfold simulated_only. cbn. repeat split; auto.
    - exact (simulated_only_step key g g' a Hk S IH). }
  split; [exact (K f H)|].
  intros ok f' S.
  pose proof (reach_step key f (CallConnect ok) f' H S) as H'.
  destruct (K f' H') as (_ & Ss & _).
  destruct (reachable_invariant key f' H') as [I _].
  cbn in S. injection S as <-.
  assert (D : demoActive (exec (connect ok) f) = true).
  { destruct (K f H) as (Ka & _).
    unfold exec, connect. rewrite bind_get, Ka, Hk.
    destruct (startDemo_effect f) as (k & ts & E).
    unfold exec in E. now rewrite E. }
  unfold demo_invariant in I. rewrite D in I. auto.
Qed.

Lemma sample_demo_feed_reachable :
  @reachable samplePlatform None sample_demo_feed.
Proof.
  apply (run_reachable None demo_script (constructor None)).
  - apply reach_new.
  - vm_compute. reflexivity.
Qed.

Lemma keyless_feed_only_simulates_witness :
  List.length (delivered sample_demo_feed) = 2%nat /\
  simulated_only None sample_demo_feed /\
  forall ok f', @step samplePlatform sample_demo_feed (CallConnect ok) = Some f' ->
    demoActive f' = true /\ pending_demo_ticks f' = 1%nat /\
    sockets f' = [].
Proof.
  split; [reflexivity|].
  apply (keyless_feed_only_simulates samplePlatform None sample_demo_feed).
  - reflexivity.
  - exact sample_demo_feed_reachable.
Defined.

End KeylessTheorems.

(** ** The particle system: what [update] and the events keep *)

Section SimFacts.
Import Generative Helius ParticleSystem.
Context {P : Platform}.

Lemma bind_get_sys {A B} (field : System -> A) (k : A -> Eff System B)
      (s : System) :
  Effects.bind (Effects.get field) k s = k (field s) s.
Proof. reflexivity. Qed.

Lemma draws_eta (ps : list Particle) (s : System) :
  set_randomCalls (randomCalls s) (set_particles ps s) = set_particles ps s.
Proof. destruct s; reflexivity. Qed.

Lemma evolves_refl (p : Particle) : evolves p p.
Proof. unfold evolves. auto. Qed.

Lemma evolves_trans (p q r : Particle) :
  evolves p q -> evolves q r -> evolves p r.
Proof.
  unfold evolves. intros (A & B & C) (A' & B' & C').
  repeat split; [congruence | congruence | auto].
Qed.

Lemma Forall2_evolves_refl (ps : list Particle) : Forall2 evolves ps ps.
Proof. induction ps; constructor; auto using evolves_refl. Qed.

Lemma Forall2_evolves_trans (ps qs rs : list Particle) :
  Forall2 evolves ps qs -> Forall2 evolves qs rs -> Forall2 evolves ps rs.
Proof.
  intro H. revert rs. induction H as [|p q ps qs Hpq H IH]; intros rs K;
    inversion K; subst; constructor; eauto using evolves_trans.
Qed.

Lemma Forall2_update_nth (ps : list Particle) (i : nat) (p q : Particle) :
  nth_error ps i = Some p -> evolves p q ->
  Forall2 evolves ps (update_nth i q ps).
Proof.
  revert i. induction ps as [|x ps IH]; intros [|i] H E; cbn in *;
    try discriminate.
  - injection H as ->. constructor; [exact E | apply Forall2_evolves_refl].
  - constructor; [apply evolves_refl | now apply IH].
Qed.

Lemma trail_push_bounded (t : list (Q * Q)) (x : Q * Q) :
  (List.length t <= 18)%nat ->
  (List.length (if (18 <? List.length (t ++ [x]))%nat
                then tl (t ++ [x]) else t ++ [x]) <= 18)%nat.
Proof.
  intro H. destruct (Nat.ltb_spec 18 (List.length (t ++ [x]))) as [L|L];
    [|exact L].
  rewrite length_app in L. cbn in L.
  destruct t as [|y t]; cbn in *; [lia|].
  rewrite length_app. cbn. lia.
Qed.

(** One step of the loop of [update]: only the particles and the count
    of random draws change, every particle evolves, and the step returns
    when the particle has a home node among the scaled nodes. *)
Lemma stepParticle_effect (W H t : Q) (i : nat) (s : System) :
  exists ps k r,
    stepParticle W H t i s = (r, set_randomCalls k (set_particles ps s)) /\
    Forall2 evolves (particles s) ps /\
    (r = Ok tt \/ r = Throw TypeError) /\
    (forall p h, nth_error (particles s) i = Some p ->
                 homeNode p = Some h ->
                 (h < List.length (scaledNodes s))%nat -> r = Ok tt).
Proof.
  assert (Same : s = set_randomCalls (randomCalls s)
                       (set_particles (particles s) s))
    by (destruct s; reflexivity).
  unfold stepParticle, defined, Effects.bind, Effects.get. cbn.
  destruct (nth_error (particles s) i) as [p|] eqn:Ep; cbn.
  2:{ exists (particles s), (randomCalls s), (Throw TypeError).
      rewrite <- Same. split; [reflexivity|].
      split; [apply Forall2_evolves_refl|]. split; [now right | discriminate]. }
  destruct (lookup_home (scaledNodes s) (homeNode p)) as [home|] eqn:Eh; cbn.
  2:{ exists (particles s), (randomCalls s), (Throw TypeError).
      rewrite <- Same. split; [reflexivity|].
      split; [apply Forall2_evolves_refl|]. split; [now right|].
      intros p' h Hp' Hh Hlt. injection Hp' as <-. rewrite Hh in Eh. cbn in Eh.
      apply nth_error_None in Eh. lia. }
  match goal with
  | |- context [if ?c then _ else _] => destruct c
  end; unfold random, Effects.modify; cbn.
  - eexists. exists (S (S (S (S (randomCalls s))))), (Ok tt).
    split; [reflexivity|]. split; [|split; [now left | reflexivity]].
    apply (Forall2_update_nth _ i p); [exact Ep|].
    unfold evolves. cbn. repeat split. lia.
  - eexists. exists (randomCalls s), (Ok tt).
    split; [rewrite <- draws_eta; reflexivity|].
    split; [|split; [now left | reflexivity]].
    apply (Forall2_update_nth _ i p); [exact Ep|].
    unfold evolves. cbn. repeat split. apply trail_push_bounded.
Qed.

Lemma loop_effect (W H t : Q) (idx : list nat) (s : System) :
  Forall (fun i => (i < List.length (particles s))%nat) idx ->
  exists ps k r,
    for_each idx (stepParticle W H t) s =
      (r, set_randomCalls k (set_particles ps s)) /\
    Forall2 evolves (particles s) ps /\
    (r = Ok tt \/ r = Throw TypeError) /\
    (homes_valid s -> r = Ok tt).
Proof.
  revert s. induction idx as [|i idx IH]; intros s Hidx.
  - exists (particles s), (randomCalls s), (Ok tt). cbn.
    split; [rewrite draws_eta; destruct s; reflexivity|].
    split; [apply Forall2_evolves_refl | auto].
  - cbn [for_each]. inversion Hidx as [|? ? Hi Hidx']; subst.
    destruct (stepParticle_effect W H t i s) as (ps & k & r & E & F & Hr & Hok).
    rewrite (bind_run _ _ _ _ _ E).
    destruct r as [[]|e].
    + destruct (IH (set_randomCalls k (set_particles ps s)))
        as (ps' & k' & r' & E' & F' & Hr' & Hok').
      { cbn. rewrite <- (Forall2_length F). exact Hidx'. }
      exists ps', k', r'. split; [rewrite E'; reflexivity|].
      split; [exact (Forall2_evolves_trans _ _ _ F F')|].
      split; [exact Hr'|].
      intro Hv. apply Hok'. unfold homes_valid in *. cbn.
      clear -F Hv. induction F as [|p q l l' Hpq F IH]; [constructor|].
      inversion Hv as [|? ? (h & Hh & Hlt) Hv']; subst.
      constructor; [|now apply IH].
      exists h. destruct Hpq as (A & _). split; [congruence | exact Hlt].
    + exists ps, k, (Throw e). split; [reflexivity|].
      split; [exact F|]. split; [exact Hr|].
      intro Hv. destruct Hr as [Hr|Hr]; [discriminate|].
      exfalso.
      destruct (nth_error (particles s) i) as [p|] eqn:Ep;
        [|apply nth_error_None in Ep; lia].
      unfold homes_valid in Hv. rewrite Forall_forall in Hv.
      destruct (Hv p (nth_error_In _ _ Ep)) as (h & Hh & Hlt).
      specialize (Hok p h eq_refl Hh Hlt). discriminate.
Qed.

(** [update]: the time advances by 0.008, the particles evolve, the
    scaled nodes keep their number and their nodes. *)
Lemma update_effect (s : System) :
  exists ps ns k r,
    update s =
      (r, set_scaledNodes ns
            (set_randomCalls k
               (set_particles ps (set_time (time s + 0.008) s)))) /\
    Forall2 evolves (particles s) ps /\
    map base ns = map base (scaledNodes s) /\
    (r = Ok tt \/ r = Throw TypeError) /\
    (homes_valid s -> r = Ok tt).
Proof.
  unfold update.
  unfold Effects.bind at 1, Effects.modify at 1. cbn [fst snd].
  rewrite !bind_get_sys. cbn [particles set_time].
  set (s0 := set_time (time s + 0.008) s).
  destruct (loop_effect (width s0) (height s0) (turbulence (params s0))
              (seq 0 (List.length (particles s))) s0)
    as (ps & k & r & E & F & Hr & Hok).
  { apply Forall_forall. intros i Hi. apply in_seq in Hi. cbn. lia. }
  rewrite (bind_run _ _ _ _ _ E).
  destruct r as [[]|e].
  - rewrite bind_get_sys. unfold Effects.modify.
    eexists ps, _, k, (Ok tt). split; [reflexivity|].
    split; [exact F|]. split; [|auto].
    cbn. rewrite map_map. cbn. reflexivity.
  - exists ps, (scaledNodes s), k, (Throw e).
    split; [f_equal; clear; destruct s; reflexivity|].
    split; [exact F|]. split; [reflexivity|]. split; [exact Hr|].
    exact Hok.
Qed.

End SimFacts.

Section InitFacts.
Import Generative Helius ParticleSystem.
Context {P : Platform}.

Lemma initParticle_effect (i : nat) (s : System) :
  (scaledNodes s <> [] ->
   exists p k,
     initParticle i s =
       (Ok tt, set_randomCalls k (set_particles (particles s ++ [p]) s)) /\
     fresh_for (List.length (scaledNodes s)) i p) /\
  (scaledNodes s = [] -> initParticle i s = (Throw TypeError, s)).
Proof.
  unfold initParticle. rewrite bind_get_sys.
  split.
  - intro Hn.
    assert (Hl : (0 < List.length (scaledNodes s))%nat)
      by (destruct (scaledNodes s); [congruence | cbn; lia]).
    unfold home_index. destruct (List.length (scaledNodes s)) as [|n] eqn:El;
      [lia|]. cbn [lookup_home].
    destruct (nth_error (scaledNodes s) (i mod S n)) as [home|] eqn:Eh.
    2:{ apply nth_error_None in Eh.
        pose proof (Nat.mod_upper_bound i (S n) ltac:(discriminate)). lia. }
    unfold defined, random, Effects.bind, Effects.ret, Effects.modify. cbn.
    eexists. eexists. split; [reflexivity|]. split; reflexivity.
  - intro Hn. rewrite Hn. cbn. reflexivity.
Qed.

Lemma init_loop_effect (n a : nat) (s : System) :
  scaledNodes s <> [] ->
  exists ps k,
    for_each (seq a n) initParticle s =
      (Ok tt, set_randomCalls k (set_particles (particles s ++ ps) s)) /\
    List.length ps = n /\
    forall j p, nth_error ps j = Some p ->
                fresh_for (List.length (scaledNodes s)) (a + j) p.
Proof.
  revert a s. induction n as [|n IH]; intros a s Hn.
  - exists [], (randomCalls s). cbn. rewrite app_nil_r.
    split; [rewrite draws_eta; destruct s; reflexivity|].
    split; [reflexivity|]. intros [|j] p H; discriminate.
  - cbn [seq for_each].
    destruct (proj1 (initParticle_effect a s) Hn) as (p & k & E & Fp).
    rewrite (bind_run _ _ _ _ _ E).
    destruct (IH (S a) (set_randomCalls k (set_particles (particles s ++ [p]) s)))
      as (ps & k' & E' & Len & Fs); [exact Hn|].
    exists (p :: ps), k'. rewrite E'. cbn [particles set_particles set_randomCalls].
    rewrite <- app_assoc. split; [reflexivity|].
    split; [cbn; now rewrite Len|].
    intros [|j] q Hq; cbn in Hq.
    + injection Hq as <-. now rewrite Nat.add_0_r.
    + replace (a + S j)%nat with (S a + j)%nat by lia. exact (Fs j q Hq).
Qed.

Lemma handleLiveEvent_effect (e : Effect) (s : System) :
  random_in_unit P -> nodes (params s) <> [] ->
  exists node k,
    In node (nodes (params s)) /\
    handleLiveEvent e s =
      (Ok tt,
       set_particles
         (match effect_type e with
          | WHALE => map (pull (width s) (height s) node e) (particles s)
          | MINT =>
              particles s ++
              [{| px := node_x node * width s; py := node_y node * height s;
                  vx := (Math_random (S (randomCalls s)) - 0.5) * 2;
                  vy := (Math_random (S (S (randomCalls s))) - 0.5) * 2;
                  life := 1000; maxLife := 1000; homeNode := None;
                  trail := [] |}%Q]
          | BURN => filter (outside (width s) (height s) node) (particles s)
          | _ => particles s
          end)
         (set_randomCalls k
            (set_liveEffect
               (Some {| live_effect := e; live_x := node_x node;
                        live_y := node_y node; start := now s;
                        live_duration :=
                          if Qeq_bool (duration e) 0 then 1000%Q
                          else duration e |}) s))).
Proof.
  intros R Hn.
  pose proof (R (randomCalls s)) as R0.
  assert (Hlen : 0 < Z.of_nat (List.length (nodes (params s)))).
  { destruct (nodes (params s)); [congruence | cbn; lia]. }
  unfold handleLiveEvent, random, defined, Effects.bind, Effects.get,
    Effects.modify, Effects.ret. cbn.
  match goal with
  | |- context [Z.ltb ?i 0] =>
      assert (F : 0 <= i < Z.of_nat (List.length (nodes (params s))))
        by exact (floor_scale_range _ _ R0 Hlen);
      destruct (Z.ltb_spec i 0) as [C|_]; [lia|];
      destruct (nth_error (nodes (params s)) (Z.to_nat i)) as [node|] eqn:En;
      [|apply nth_error_None in En; lia]
  end.
  exists node. cbn.
  destruct (effect_type e); cbn; eexists;
    (split; [exact (nth_error_In _ _ En) | reflexivity]).
Qed.

End InitFacts.

Section SimTheorems.
Import Generative Helius ParticleSystem.

Lemma constructor_places_particles_aux {P : Platform} (w h : Q) (p : SceneParams) :
  nodes p <> [] ->
  exists s,
    constructor w h p = (Ok tt, s) /\
    List.length (particles s) = Z.to_nat (particleCount p) /\
    (forall i pt, nth_error (particles s) i = Some pt ->
                  fresh_for (List.length (nodes p)) i pt) /\
    scaledNodes s = map (_scaleNode w h) (nodes p) /\
    params s = p /\ healthy s.
Proof.
  intro Hn. unfold constructor, _initParticles.
  unfold Effects.bind at 1, Effects.modify at 1. cbn [fst snd].
  unfold Effects.bind at 1, Effects.modify at 1. cbn [fst snd].
  rewrite bind_get_sys.
  cbn [params set_particles set_scaledNodes width height].
  match goal with
  | |- context [for_each _ initParticle ?s0] => set (s0' := s0)
  end.
  assert (Hs : scaledNodes s0' <> []).
  { cbn. destruct (nodes p); [congruence | discriminate]. }
  destruct (init_loop_effect (Z.to_nat (particleCount p)) 0 s0' Hs)
    as (ps & k & E & Len & Fs).
  eexists. split; [exact E|]. cbn.
  split; [exact Len|].
  assert (Hl : List.length (map (_scaleNode w h) (nodes p)) =
               List.length (nodes p)) by apply length_map.
  split; [|split; [reflexivity|split; [reflexivity|]]].
  - intros i pt Hi. specialize (Fs i pt Hi). cbn in Fs.
    now rewrite Hl in Fs.
  - unfold healthy, homes_valid. cbn. split; [|split; [exact Hl | exact Hn]].
    apply Forall_forall. intros pt Hpt. apply In_nth_error in Hpt.
    destruct Hpt as [i Hi]. destruct (Fs i pt Hi) as [Hh _]. cbn in Hh.
    eexists. split; [exact Hh|]. rewrite Hl.
    apply Nat.mod_upper_bound. destruct (nodes p); [congruence | discriminate].
Qed.

(** On a scene with at least one node the constructor returns, with as
    many particles as [particleCount] says; the particle of index [i]
    has the node [i mod n] as home, of the [n] nodes of the scene, and
    an empty trail; and the scaled nodes are the nodes of the scene,
    scaled to the canvas. *)
Theorem constructor_places_particles (P : Platform) (w h : Q) (p : SceneParams) :
  nodes p <> [] ->
  exists s,
    constructor w h p = (Ok tt, s) /\
    List.length (particles s) = Z.to_nat (particleCount p) /\
    (forall i pt, nth_error (particles s) i = Some pt ->
                  fresh_for (List.length (nodes p)) i pt) /\
    scaledNodes s = map (_scaleNode w h) (nodes p) /\
    params s = p /\ healthy s.
Proof. exact (constructor_places_particles_aux w h p). Qed.

Lemma constructor_places_particles_witness :
  exists s,
    @constructor samplePlatform 800 600 sample_scene = (Ok tt, s) /\
    List.length (particles s) = Z.to_nat (particleCount sample_scene) /\
    (forall i pt, nth_error (particles s) i = Some pt ->
                  fresh_for (List.length (nodes sample_scene)) i pt) /\
    scaledNodes s = map (_scaleNode 800 600) (nodes sample_scene) /\
    params s = sample_scene /\ healthy s.
Proof.
  apply (constructor_places_particles samplePlatform 800 600 sample_scene).
  vm_compute. discriminate.
Defined.

Lemma constructor_without_nodes {P : Platform} (w h : Q) (p : SceneParams) :
  nodes p = [] ->
  exists r s, constructor w h p = (r, s) /\ particles s = [] /\
              (0 < particleCount p -> r = Throw TypeError).
Proof.
  intros Hn. unfold constructor, _initParticles.
  unfold Effects.bind at 1, Effects.modify at 1. cbn [fst snd].
  unfold Effects.bind at 1, Effects.modify at 1. cbn [fst snd].
  rewrite bind_get_sys.
  cbn [params set_particles set_scaledNodes width height].
  destruct (Z.to_nat (particleCount p)) as [|n] eqn:En.
  - cbn. eexists. eexists. split; [reflexivity|]. split; [reflexivity | lia].
  - cbn [seq for_each].
    match goal with
    | |- context [Effects.bind (initParticle 0) _ ?s0] =>
        rewrite (bind_run _ _ _ _ _
                   (proj2 (initParticle_effect 0 s0)
                      ltac:(cbn; rewrite Hn; reflexivity)))
    end.
    eexists. eexists. split; [reflexivity|]. split; reflexivity.
Qed.

(** On a scene without nodes that asks for at least one particle the
    constructor throws a TypeError, before it has made any particle. *)
Theorem constructor_without_nodes_throws (P : Platform) (w h : Q) (p : SceneParams) :
  nodes p = [] -> 0 < particleCount p ->
  fst (constructor w h p) = Throw TypeError /\
  particles (snd (constructor w h p)) = [].
Proof.
  intros Hn Hc.
  destruct (constructor_without_nodes w h p Hn) as (r & s & E & Hp & Hr).
  rewrite E. cbn. split; [exact (Hr Hc) | exact Hp].
Qed.

Lemma constructor_without_nodes_throws_witness :
  fst (@constructor samplePlatform 800 600 empty_scene) = Throw TypeError /\
  particles (snd (@constructor samplePlatform 800 600 empty_scene)) = [].
Proof.
  apply constructor_without_nodes_throws; [reflexivity | reflexivity].
Defined.

(** Whether it returns or throws, [update] advances the time by 0.008
    and keeps the particles in number and in order, each with its home
    node and its [maxLife]; it keeps the scene, the canvas and the live
    effect, and the scaled nodes stay the nodes of the scene. *)
Theorem update_keeps_the_particles (P : Platform) (s : System) :
  let s' := snd (update s) in
  Forall2 evolves (particles s) (particles s') /\
  List.length (particles s') = List.length (particles s) /\
  time s' = (time s + 0.008)%Q /\
  map base (scaledNodes s') = map base (scaledNodes s) /\
  params s' = params s /\ width s' = width s /\ height s' = height s /\
  liveEffect s' = liveEffect s.
Proof.
  cbv zeta.
  destruct (update_effect s) as (ps & ns & k & r & E & F & B & _).
  rewrite E. cbn. repeat split; auto.
  symmetry. exact (Forall2_length F).
Qed.

(** No call makes a trail longer than 18 positions: whatever the scene
    and the canvas, after the constructor and any calls of [update],
    [handleLiveEvent] and [resize], every trail has at most 18 points. *)
Theorem trails_never_exceed_18 (P : Platform) (w h : Q) (p : SceneParams)
        (acts : list SimAction) :
  trails_bounded (sim_run (snd (constructor w h p)) acts).
Proof.
  assert (Step : forall s a, trails_bounded s ->
                   trails_bounded (snd (sim_step s a))).
  { intros s a T. destruct a as [|e|]; cbn [sim_step].
    - destruct (update_effect s) as (ps & ns & k & r & E & F & _).
      rewrite E. unfold trails_bounded in *. cbn.
      clear -F T. induction F as [|x y l l' Hxy F IH]; [constructor|].
      inversion T; subst. constructor; [|now apply IH].
      destruct Hxy as (_ & _ & H). auto.
    - unfold trails_bounded in *.
      unfold handleLiveEvent, random, defined, Effects.bind, Effects.get,
        Effects.modify, Effects.ret, Effects.throw. cbn.
      destruct (Z.ltb _ 0); cbn; [exact T|].
      destruct (nth_error _ _) as [node|]; cbn; [|exact T].
      destruct (effect_type e); cbn; try exact T.
      + apply Forall_forall. intros q Hq. apply in_map_iff in Hq.
        destruct Hq as (x & <- & Hx). rewrite Forall_forall in T.
        unfold pull. destruct (Qltb _ 200); cbn; now apply T.
      + apply Forall_app. split; [exact T|]. constructor; [cbn; lia|constructor].
      + apply Forall_forall. intros q Hq. apply filter_In in Hq.
        rewrite Forall_forall in T. now apply T.
    - exact T. }
  assert (Init : trails_bounded (snd (constructor w h p))).
  { destruct (nodes p) as [|n0 ns0] eqn:Hn.
    - destruct (constructor_without_nodes w h p Hn) as (r & s & E & Hp & _).
      rewrite E. unfold trails_bounded. cbn. rewrite Hp. constructor.
    - destruct (constructor_places_particles_aux w h p) as (s & E & _ & F & _);
        [congruence|].
      rewrite E. cbn. apply Forall_forall. intros pt Hpt.
      apply In_nth_error in Hpt. destruct Hpt as [i Hi].
      destruct (F i pt Hi) as [_ Ht]. rewrite Ht. cbn. lia. }
  unfold sim_run. revert Init. generalize (snd (constructor w h p)).
  induction acts as [|a acts IH]; intros s T; cbn; [exact T|].
  apply IH, Step, T.
Qed.

End SimTheorems.

Section EventFacts.
Import Generative Helius ParticleSystem.
Context {P : Platform}.

Lemma healthy_step (s : System) (a : SimAction) :
  random_in_unit P -> healthy s -> not_a_mint a ->
  fst (sim_step s a) = Ok tt /\ healthy (snd (sim_step s a)).
Proof.
  intros R (Hv & Hl & Hn) Ha. destruct a as [|e|]; cbn [sim_step].
  - destruct (update_effect s) as (ps & ns & k & r & E & F & B & Hr & Hok).
    rewrite E. cbn. split; [exact (Hok Hv)|].
    assert (Ln : List.length ns = List.length (scaledNodes s)).
    { rewrite <- (length_map base ns), B. apply length_map. }
    unfold healthy, homes_valid. cbn. rewrite Ln.
    split; [|split; [exact Hl | exact Hn]].
    clear -F Hv. unfold homes_valid in Hv.
    induction F as [|x y l l' Hxy F IH]; [constructor|].
    inversion Hv as [|? ? (h & Hh & Hlt) Hv']; subst.
    constructor; [|now apply IH].
    exists h. destruct Hxy as (A & _). split; [congruence | exact Hlt].
  - destruct (handleLiveEvent_effect e s R Hn) as (node & k & Hin & E).
    rewrite E. cbn. split; [reflexivity|].
    unfold healthy, homes_valid. cbn.
    split; [|split; [exact Hl | exact Hn]].
    unfold homes_valid in Hv. cbn in Ha.
    destruct (effect_type e); try congruence; try exact Hv.
    + apply Forall_forall. intros q Hq. apply in_map_iff in Hq.
      destruct Hq as (x & <- & Hx). rewrite Forall_forall in Hv.
      unfold pull. destruct (Qltb _ 200); cbn; now apply Hv.
    + apply Forall_forall. intros q Hq. apply filter_In in Hq.
      rewrite Forall_forall in Hv. now apply Hv.
  - unfold resize, Effects.modify. cbn. split; [reflexivity|].
    unfold healthy, homes_valid. cbn. rewrite length_map.
    split; [|split; [reflexivity | exact Hn]].
    unfold homes_valid in Hv. now rewrite Hl in Hv.
Qed.

End EventFacts.

Section EventTheorems.
Import Generative Helius ParticleSystem.

(** As long as no mint event is applied, nothing throws: on a scene
    with at least one node, after the constructor and any calls of
    [update], [resize] and [handleLiveEvent] with effects other than a
    mint, every particle has a home node among the scaled nodes, and the
    next such call returns. *)
Theorem no_mint_no_throw (P : Platform) (w h : Q) (p : SceneParams)
        (acts : list SimAction) (a : SimAction) :
  random_in_unit P -> nodes p <> [] ->
  Forall not_a_mint acts -> not_a_mint a ->
  let s := sim_run (snd (constructor w h p)) acts in
  healthy s /\ fst (sim_step s a) = Ok tt.
Proof.
  intros R Hn Hacts Ha. cbv zeta.
  destruct (constructor_places_particles_aux w h p Hn) as (s0 & E & _ & _ & _ & _ & H0).
  rewrite E. cbn [snd].
  assert (K : healthy (sim_run s0 acts)).
  { unfold sim_run. clear E. revert s0 H0.
    induction Hacts as [|x acts Hx Hacts IH]; intros s0 H0; cbn; [exact H0|].
    apply IH. exact (proj2 (healthy_step s0 x R H0 Hx)). }
  split; [exact K|]. exact (proj1 (healthy_step _ a R K Ha)).
Qed.

Lemma no_mint_no_throw_witness :
  let s := @sim_run samplePlatform
             (snd (@constructor samplePlatform 800 600 sample_scene))
             [Update; LiveEvent sample_whale; Resize; LiveEvent sample_burn] in
  healthy s /\ fst (@sim_step samplePlatform s Update) = Ok tt.
Proof.
  apply (no_mint_no_throw samplePlatform 800 600 sample_scene
           [Update; LiveEvent sample_whale; Resize; LiveEvent sample_burn]
           Update).
  - exact sample_random_in_unit.
  - vm_compute. discriminate.
  - repeat constructor; cbn; discriminate.
  - exact I.
Defined.

(** An event of the feed, turned into an effect by [handleSolanaEvent]
    and applied, becomes the live effect: it keeps the type and the
    magnitude of the event, starts now, lasts what the table gives its
    type (800, 2000, 1200, 1500 or 1400 ms, never the default of
    1000), and sits on a node of the scene. *)
Theorem live_effect_is_recorded (P : Platform) (ev : Event) (s : System) :
  random_in_unit P -> nodes (params s) <> [] ->
  exists le node,
    liveEffect (snd (handleLiveEvent (handleSolanaEvent ev) s)) = Some le /\
    fst (handleLiveEvent (handleSolanaEvent ev) s) = Ok tt /\
    In node (nodes (params s)) /\
    live_x le = node_x node /\ live_y le = node_y node /\
    start le = now s /\
    effect_type (live_effect le) = type ev /\
    effect_magnitude (live_effect le) = magnitude ev /\
    live_duration le =
      match type ev with
      | TRANSACTION => 800 | WHALE => 2000 | MEV => 1200
      | MINT => 1500 | BURN => 1400
      end%Q.
Proof.
  intros R Hn.
  destruct (handleLiveEvent_effect (handleSolanaEvent ev) s R Hn)
    as (node & k & Hin & E).
  rewrite E. cbn [fst snd liveEffect set_particles set_randomCalls
                  set_liveEffect].
  eexists. exists node. split; [reflexivity|]. split; [reflexivity|].
  split; [exact Hin|]. cbn [live_x live_y start live_effect live_duration].
  unfold handleSolanaEvent, effects.
  destruct (type ev); cbn; repeat split; reflexivity.
Qed.

Lemma live_effect_is_recorded_witness :
  exists le node,
    liveEffect (snd (@handleLiveEvent samplePlatform sample_whale sample_system))
    = Some le /\
    fst (@handleLiveEvent samplePlatform sample_whale sample_system) = Ok tt /\
    In node (nodes (params sample_system)) /\
    live_x le = node_x node /\ live_y le = node_y node /\
    start le = now sample_system /\
    effect_type (live_effect le) = WHALE /\
    effect_magnitude (live_effect le) = 0.9%Q /\
    live_duration le = 2000%Q.
Proof.
  apply (live_effect_is_recorded samplePlatform
           {| type := WHALE; magnitude := 0.9; sig := JStr (lit "demo");
              timestamp := 0 |} sample_system).
  - exact sample_random_in_unit.
  - vm_compute. discriminate.
Defined.



End EventTheorems.
